(** * UMCP collapse calculus: invariants, face potentials, transport and weld validation

    A shallow embedding of [umcp/core/__init__.py] and
    [umcp/validation/__init__.py] (whose face-potential and step-validation
    functions are repeated verbatim in [collapse_validate.py], and whose
    return-time search is repeated in [turbo_compat_harness.py]).

    Numbers.  A Python [float] is modelled by a real number: every value is
    finite and arithmetic is exact.  The operations that raise in Python are
    fallible here: [math.log] raises [ValueError] outside its domain, [/]
    raises [ZeroDivisionError] on a zero divisor, list indexing raises
    [IndexError], a dict subscript raises [KeyError].  Python [int]s that can
    go negative (list indices, loop counters of the return-time search) are
    [Z]. *)

From Stdlib Require Import Reals Lra Lia ZArith List String Ascii.
From stdpp Require Import gmap strings list.

Local Open Scope R_scope.

(** ** Python exceptions as an error monad *)

Inductive pyerr : Type :=
| ValueError
| ZeroDivisionError
| IndexError
| KeyError
| TypeError.

Inductive exc (A : Type) : Type :=
| Ok (a : A)
| Raise (e : pyerr).

Arguments Ok {A} a.
Arguments Raise {A} e.

Definition exc_bind {A B : Type} (c : exc A) (k : A -> exc B) : exc B :=
  match c with
  | Ok a => k a
  | Raise e => Raise e
  end.

Notation "x <- c ;; k" := (exc_bind c (fun x => k))
  (at level 100, c at next level, right associativity).

(** [[f(x) for x in xs]]: evaluated left to right, the first exception
    escapes. *)
Fixpoint exc_map {A B : Type} (f : A -> exc B) (xs : list A) : exc (list B) :=
  match xs with
  | [] => Ok []
  | x :: rest =>
      y <- f x ;;
      ys <- exc_map f rest ;;
      Ok (y :: ys)
  end.

Definition returns {A : Type} (c : exc A) : Prop := exists a, c = Ok a.

(** ** Comparisons on floats, decided *)

#[global] Instance Rlt_decision : RelDecision Rlt := Rlt_dec.
#[global] Instance Rle_decision : RelDecision Rle := Rle_dec.
#[global] Instance Rge_decision : RelDecision Rge := Rge_dec.
#[global] Instance Rgt_decision : RelDecision Rgt := Rgt_dec.
#[global] Instance Req_decision : EqDecision R := Req_dec_T.

(** ** Python primitives *)

(** [math.log(x)]: [ValueError] ("math domain error") unless [x > 0]. *)
Definition math_log (x : R) : exc R :=
  if decide (0 < x) then Ok (ln x) else Raise ValueError.

(** [x / y] on floats: [ZeroDivisionError] when [y == 0]. *)
Definition py_div (x y : R) : exc R :=
  if decide (y = 0) then Raise ZeroDivisionError else Ok (x / y).

(** [xs[i]] with Python's negative indices: [xs[-1]] is the last element. *)
Definition py_getitem {A : Type} (xs : list A) (i : Z) : exc A :=
  let n := Z.of_nat (length xs) in
  let j := if decide (i < 0)%Z then (i + n)%Z else i in
  if decide (0 <= j < n)%Z then
    match xs !! Z.to_nat j with
    | Some x => Ok x
    | None => Raise IndexError
    end
  else Raise IndexError.

(** [range(a, b)]. *)
Definition py_range (a b : Z) : list Z :=
  map (fun k => (a + Z.of_nat k)%Z) (seq 0 (Z.to_nat (b - a))).

(** [sum(xs)]: a left fold from 0. *)
Definition py_sum (xs : list R) : R := fold_left Rplus xs 0.

(** ** [umcp.core] *)

Definition DEFAULT_EPS : R := 1e-8.
Definition DEFAULT_K : nat := 3.
Definition DEFAULT_ALPHA : R := 1.
Definition DEFAULT_P : R := 3.

(** The floor under every clamped logarithm. *)
Definition LOG_FLOOR : R := 1e-300.

Definition clip01 (value : R) : R := Rmax 0 (Rmin 1 value).

(** Faces are the strings ["normal"] and ["exact"]; as in the source, every
    string other than ["exact"] selects the normal face. *)
Definition phi (omega eps p : R) (face : string) : exc R :=
  if decide (face = "exact") then
    l1 <- math_log (Rmax (1 - omega) LOG_FLOOR) ;;
    l2 <- math_log (Rmax (1 - omega + eps) LOG_FLOOR) ;;
    Ok (2 * l1 + l2)
  else
    l <- math_log (Rmax (1 - omega) LOG_FLOOR) ;;
    Ok (p * l).

Definition gamma_pointwise (omega eps p : R) (face : string) : exc R :=
  if decide (face = "exact") then
    g1 <- py_div 2 (1 - omega) ;;
    g2 <- py_div 1 (1 - omega + eps) ;;
    Ok (g1 + g2)
  else py_div p (1 - omega).

Definition gamma_secant (om_minus om_plus eps p : R) (face : string) : exc R :=
  let d_om := om_plus - om_minus in
  if decide (Rabs d_om < 1e-15) then gamma_pointwise om_minus eps p face
  else
    phi_minus <- phi om_minus eps p face ;;
    phi_plus <- phi om_plus eps p face ;;
    py_div (phi_minus - phi_plus) d_om.

(** [compute_omega]: the first drift is always 0; afterwards the loop reads
    [y[i-1]] and [y[i]], here the previous and the current element. *)
Fixpoint omega_loop (policy : string) (y_prev : R) (rest : list R) : list R :=
  match rest with
  | [] => []
  | y_curr :: tl =>
      let drift :=
        if decide (policy = "pre_clip") then Rabs (y_curr - y_prev)
        else Rabs (clip01 y_curr - clip01 y_prev) in
      drift :: omega_loop policy y_curr tl
  end.

Definition compute_omega (y_series : list R) (policy : string) : list R :=
  0 :: match y_series with
       | [] => []
       | y0 :: tl => omega_loop policy y0 tl
       end.

Definition compute_fidelity (omega : list R) : list R :=
  map (fun w => 1 - w) omega.

(** No clamp here: the logarithm is taken of [1 - w + eps] as it is. *)
Definition compute_entropy (omega : list R) (eps : R) : exc (list R) :=
  exc_map (fun w => l <- math_log (1 - w + eps) ;; Ok (- l)) omega.

Definition curvature_at (xhat : list R) (K i : nat) : exc R :=
  if decide (i < K)%nat then Ok 0
  else
    diffs <- exc_map (fun k : nat =>
                        x_i <- py_getitem xhat (Z.of_nat i) ;;
                        x_k <- py_getitem xhat (Z.of_nat i - Z.of_nat k) ;;
                        Ok ((x_i - x_k) ^ 2))
                     (seq 1 K) ;;
    py_div (py_sum diffs) (INR K).

Definition compute_curvature (xhat : list R) (K : nat) : exc (list R) :=
  exc_map (curvature_at xhat K) (seq 0 (length xhat)).

(** The body of the [for dt in range(...)] loop of [compute_tau_ret];
    [Some dt] is the early [return dt], [None] is falling off the loop. *)
Fixpoint tau_ret_loop (eps_ret target : R) (xhat_series : list R)
    (t debounce_L : Z) (dts : list Z) (seen : Z) : exc (option Z) :=
  match dts with
  | [] => Ok None
  | dt :: rest =>
      x <- py_getitem xhat_series (t - dt) ;;
      if decide (Rabs (target - x) < eps_ret) then
        let seen' := (seen + 1)%Z in
        if decide (seen' >= debounce_L)%Z then Ok (Some dt)
        else tau_ret_loop eps_ret target xhat_series t debounce_L rest seen'
      else tau_ret_loop eps_ret target xhat_series t debounce_L rest 0%Z
  end.

Definition compute_tau_ret (eps_ret : R) (xhat_series : list R) (t : Z)
    (max_h debounce_L : Z) : exc Z :=
  if decide (t = 0%Z) then Ok 1%Z
  else
    target <- py_getitem xhat_series t ;;
    found <- tau_ret_loop eps_ret target xhat_series t debounce_L
               (py_range 1 (Z.min (t + 1) max_h + 1)) 0%Z ;;
    Ok (match found with Some dt => dt | None => max_h end).

Definition MAX_H : Z := 600.
Definition DEBOUNCE_L : Z := 2.

Definition compute_integrity_coefficient (F S omega C : R) (tau_R : Z)
    (alpha : R) : exc R :=
  q <- py_div (- alpha * C) (1 + IZR tau_R) ;;
  Ok (F * exp (- S) * (1 - omega) * exp q).

Definition compute_kappa (IC : R) : exc R := math_log (Rmax IC LOG_FLOOR).

Definition compute_U (C : R) (tau_R : Z) : exc R := py_div C (1 + IZR tau_R).

(** [classify_regime] has four [return] statements giving three labels; the
    branch taken is kept apart from the label it returns. *)
Inductive regime_branch : Type :=
| StableGate
| CriticalOverlay
| CollapseGate
| WatchGate
| DefaultFallback.

Definition classify_regime_branch (omega F S C IC : R) : regime_branch :=
  if decide (omega < 0.038 /\ F > 0.9 /\ S < 0.15 /\ C < 0.14) then StableGate
  else if decide (omega >= 0.30) then
    if decide (IC < 0.30) then CriticalOverlay else CollapseGate
  else if decide (0.038 <= omega /\ omega < 0.30) then WatchGate
  else DefaultFallback.

Definition branch_label (br : regime_branch) : string :=
  match br with
  | StableGate => "Stable"
  | CriticalOverlay => "Critical"
  | CollapseGate => "Collapse"
  | WatchGate => "Watch"
  | DefaultFallback => "Stable"
  end.

Definition classify_regime (omega F S C IC : R) : string :=
  branch_label (classify_regime_branch omega F S C IC).

(** One element of the list returned by [compute_invariants]. *)
Record InvariantRecord : Type := mkInvariantRecord {
  inv_t : nat;
  inv_x_raw : R;
  inv_y : R;
  inv_xhat : R;
  inv_omega : R;
  inv_F : R;
  inv_S : R;
  inv_C : R;
  inv_tau_R : Z;
  inv_IC : R;
  inv_kappa : R;
  inv_U : R;
  inv_regime : string
}.

Definition EMA_LAMBDA : R := 0.2.
Definition TAUR_K : R := 2.5.
Definition EPS_MIN : R := 5e-4.
Definition EPS_MAX : R := 0.07.

(** The adaptive threshold of the return-time search. *)
Definition eps_ret_of (res_sigma : R) : R :=
  Rmax EPS_MIN (Rmin (TAUR_K * res_sigma) EPS_MAX).

(** The [tau_R] loop of [compute_invariants]; [res_sigma] is the moving
    average carried from one index to the next.  [compute_tau_ret] gets the
    whole [xhat] list, as in the source. *)
Fixpoint tau_R_loop (xhat : list R) (idxs : list nat) (res_sigma : R)
    : exc (list Z) :=
  match idxs with
  | [] => Ok []
  | i :: rest =>
      if decide (i = 0%nat) then
        tl <- tau_R_loop xhat rest 0 ;;
        Ok (1%Z :: tl)
      else
        x_i <- py_getitem xhat (Z.of_nat i) ;;
        x_p <- py_getitem xhat (Z.of_nat i - 1) ;;
        let rres := x_i - x_p in
        let res_sigma' := EMA_LAMBDA * Rabs rres + (1 - EMA_LAMBDA) * res_sigma in
        let eps_ret := eps_ret_of res_sigma' in
        tau_r <- compute_tau_ret eps_ret xhat (Z.of_nat i) MAX_H DEBOUNCE_L ;;
        tl <- tau_R_loop xhat rest res_sigma' ;;
        Ok (tau_r :: tl)
  end.

Definition invariant_record_at (x_raw y xhat omega F S C : list R)
    (tau_R : list Z) (alpha : R) (i : nat) : exc InvariantRecord :=
  let iz := Z.of_nat i in
  F_i <- py_getitem F iz ;;
  S_i <- py_getitem S iz ;;
  omega_i <- py_getitem omega iz ;;
  C_i <- py_getitem C iz ;;
  tau_i <- py_getitem tau_R iz ;;
  IC <- compute_integrity_coefficient F_i S_i omega_i C_i tau_i alpha ;;
  kappa <- compute_kappa IC ;;
  U <- compute_U C_i tau_i ;;
  let regime := classify_regime omega_i F_i S_i C_i IC in
  x_i <- py_getitem x_raw iz ;;
  y_i <- py_getitem y iz ;;
  xhat_i <- py_getitem xhat iz ;;
  Ok (mkInvariantRecord i x_i y_i xhat_i omega_i F_i S_i C_i tau_i IC kappa U regime).

(** [b <= 0] is refused first, so the normalisation never divides by 0. *)
Definition compute_invariants (x_raw : list R) (a b eps : R) (K : nat)
    (alpha : R) : exc (list InvariantRecord) :=
  if decide (b <= 0) then Raise ValueError
  else
    let y := map (fun x => (x - a) / b) x_raw in
    let xhat := map clip01 y in
    let omega := compute_omega y "pre_clip" in
    let F := compute_fidelity omega in
    S <- compute_entropy omega eps ;;
    C <- compute_curvature xhat K ;;
    tau_R <- tau_R_loop xhat (seq 0 (length xhat)) 0 ;;
    exc_map (invariant_record_at x_raw y xhat omega F S C tau_R alpha)
            (seq 0 (length x_raw)).

(** ** [umcp.validation] *)

(** The values a row holds: floats (rows built by the pipeline), strings
    (rows read by [csv.DictReader]) and [None]. *)
Inductive pyval : Type :=
| VFloat (x : R)
| VStr (s : string)
| VNone.

(** [str.isspace] on one character; a character is a code point below 256. *)
Definition py_isspace (c : ascii) : bool :=
  let n := nat_of_ascii c in
  ((9 <=? n) && (n <=? 13) || (28 <=? n) && (n <=? 32)
   || (n =? 133) || (n =? 160))%nat.

Fixpoint py_lstrip (s : string) : string :=
  match s with
  | EmptyString => EmptyString
  | String c rest => if py_isspace c then py_lstrip rest else s
  end.

Definition py_rstrip (s : string) : string :=
  String.rev (py_lstrip (String.rev s)).

(** [s.strip()] *)
Definition py_strip (s : string) : string := py_rstrip (py_lstrip s).

Definition TRUTHY : list string := ["1"; "true"; "True"; "TRUE"]%string.

Definition choose_face (omega : R) (guard_on : bool) (eps pivot : R) : string :=
  if guard_on || bool_decide (omega >= pivot) then "exact" else "normal".

Definition transport_update_U (U_n om_n om_np1 alpha eps p : R) (face : string)
    : exc R :=
  Gam <- gamma_secant om_n om_np1 eps p face ;;
  inv_alpha <- py_div 1 alpha ;;
  Ok (U_n - inv_alpha * Gam * (om_np1 - om_n)).

(** The dictionary returned by [validate_step]. *)
Record StepResult : Type := mkStepResult {
  omega_n : R;
  omega_np1 : R;
  face_n : string;
  face_np1 : string;
  U_n : R;
  U_np1 : R;
  U_pred : R;
  rT : R;
  rW : R;
  okT : R;
  okW : R
}.

(** The same dictionary after [validate_sequence] has set its ["idx"]. *)
Record ValidationRecord : Type := mkValidationRecord {
  idx : Z;
  step : StepResult
}.

Record Summary : Type := mkSummary {
  total_steps : Z;
  transport_pass : Z;
  weld_pass : Z;
  transport_pass_rate : R;
  weld_pass_rate : R
}.

(** [float(abs(r) <= tol)] *)
Definition ok_flag (r tol : R) : R :=
  if decide (Rabs r <= tol) then 1 else 0.

(** [int(flag == 1.0)] *)
Definition flag_count (flag : R) : Z :=
  if decide (flag = 1) then 1%Z else 0%Z.

Section Validation.

(** Python's built-in conversions between [str] and [float] are not part
    of the repository: [float(s)] on a string ([None] when it raises
    [ValueError]) and [str(x)] on a float. *)
Variable float_of_str : string -> option R.
Variable str_of_float : R -> string.

Definition py_float (v : pyval) : exc R :=
  match v with
  | VFloat x => Ok x
  | VStr s =>
      match float_of_str s with
      | Some x => Ok x
      | None => Raise ValueError
      end
  | VNone => Raise TypeError
  end.

Definition py_str (v : pyval) : string :=
  match v with
  | VFloat x => str_of_float x
  | VStr s => s
  | VNone => "None"
  end.

Definition _to_bool_flag (s : pyval) : bool :=
  bool_decide (py_strip (py_str s) ∈ TRUTHY).

(** [row[key]] *)
Definition py_subscript (row : gmap string pyval) (key : string) : exc pyval :=
  match row !! key with
  | Some v => Ok v
  | None => Raise KeyError
  end.

(** [float(row[key])] *)
Definition row_float (row : gmap string pyval) (key : string) : exc R :=
  v <- py_subscript row key ;;
  py_float v.

(** ["kappa" in row and row["kappa"] not in ("", None)] *)
Definition has_kappa (row : gmap string pyval) : bool :=
  match row !! "kappa" with
  | Some (VStr EmptyString) => false
  | Some VNone => false
  | Some _ => true
  | None => false
  end.

Definition row_kappa (row : gmap string pyval) : exc R :=
  if has_kappa row then row_float row "kappa"
  else
    ic <- row_float row "IC" ;;
    math_log (Rmin (Rmax ic LOG_FLOOR) 1).

(** [_to_bool_flag(row.get("guard_on", "0"))] *)
Definition row_guard (row : gmap string pyval) : bool :=
  _to_bool_flag (default (VStr "0") (row !! "guard_on")).

(** The three-way transport prediction of [validate_step]. *)
Definition predict_U (U_n om_n om_np1 alpha eps p pivot : R)
    (face_n face_np1 : string) : exc R :=
  if decide (face_n <> face_np1) then
    let om_mid := pivot in
    if decide (~ (Rmin om_n om_np1 <= om_mid /\ om_mid <= Rmax om_n om_np1)) then
      transport_update_U U_n om_n om_np1 alpha eps p face_n
    else
      U_mid <- transport_update_U U_n om_n om_mid alpha eps p face_n ;;
      transport_update_U U_mid om_mid om_np1 alpha eps p face_np1
  else transport_update_U U_n om_n om_np1 alpha eps p face_n.

Definition validate_step (row_n row_np1 : gmap string pyval)
    (alpha eps p tolT tolW pivot : R) : exc StepResult :=
  om_n <- row_float row_n "omega" ;;
  C_n <- row_float row_n "C" ;;
  tau_n <- row_float row_n "tau_R" ;;
  k_n <- row_kappa row_n ;;
  U_n <- py_div C_n (1 + tau_n) ;;
  om_np1 <- row_float row_np1 "omega" ;;
  C_np1 <- row_float row_np1 "C" ;;
  tau_np1 <- row_float row_np1 "tau_R" ;;
  k_np1 <- row_kappa row_np1 ;;
  U_np1 <- py_div C_np1 (1 + tau_np1) ;;
  let guard_n := row_guard row_n in
  let guard_np1 := row_guard row_np1 in
  let face_n := choose_face om_n guard_n eps pivot in
  let face_np1 := choose_face om_np1 guard_np1 eps pivot in
  U_pred <- predict_U U_n om_n om_np1 alpha eps p pivot face_n face_np1 ;;
  let rT := U_np1 - U_pred in
  let rW := k_np1 - k_n in
  Ok (mkStepResult om_n om_np1 face_n face_np1 U_n U_np1 U_pred rT rW
        (ok_flag rT tolT) (ok_flag rW tolW)).

(** The loop of [validate_sequence] with its three accumulators. *)
Fixpoint validate_loop (data : list (gmap string pyval))
    (alpha eps p tolT tolW pivot : R) (idxs : list nat)
    (results : list ValidationRecord) (passes_T passes_W : Z)
    : exc (list ValidationRecord * Z * Z) :=
  match idxs with
  | [] => Ok (results, passes_T, passes_W)
  | i :: rest =>
      row_n <- py_getitem data (Z.of_nat i) ;;
      row_np1 <- py_getitem data (Z.of_nat i + 1) ;;
      res <- validate_step row_n row_np1 alpha eps p tolT tolW pivot ;;
      validate_loop data alpha eps p tolT tolW pivot rest
        (results ++ [mkValidationRecord (Z.of_nat i) res])
        (passes_T + flag_count (okT res))%Z
        (passes_W + flag_count (okW res))%Z
  end.

Definition validate_sequence (data : list (gmap string pyval))
    (alpha eps p tolT tolW pivot : R)
    : exc (list ValidationRecord * Summary) :=
  if decide (length data < 2)%nat then Raise ValueError
  else
    let total := (length data - 1)%nat in
    out <- validate_loop data alpha eps p tolT tolW pivot (seq 0 total) [] 0%Z 0%Z ;;
    let '(results, passes_T, passes_W) := out in
    let rate (passes : Z) : R :=
      if decide (0 < total)%nat then IZR passes / INR total else 0 in
    Ok (results,
        mkSummary (Z.of_nat total) passes_T passes_W (rate passes_T) (rate passes_W)).

End Validation.

(** ** Vocabulary of the statements *)


(** What the loop of [validate_sequence] adds to a pass counter. *)
Fixpoint sum_flags (flag : StepResult -> R) (steps : list StepResult) : Z :=
  match steps with
  | [] => 0%Z
  | s :: rest => (flag_count (flag s) + sum_flags flag rest)%Z
  end.

(** [res] is the validation of the adjacent pair [data[i]], [data[i+1]]. *)
Definition step_at (float_of_str : string -> option R)
    (str_of_float : R -> string) (data : list (gmap string pyval))
    (alpha eps p tolT tolW pivot : R) (i : nat) (res : StepResult) : Prop :=
  exists row_n row_np1,
    data !! i = Some row_n /\ data !! S i = Some row_np1
    /\ validate_step float_of_str str_of_float row_n row_np1
         alpha eps p tolT tolW pivot = Ok res.

(** The code points below 256 that [str.isspace] accepts, and so the
    characters that [str.strip] removes. *)
Definition whitespace_codes : list nat :=
  [9; 10; 11; 12; 13; 28; 29; 30; 31; 32; 133; 160]%nat.

Definition all_whitespace (s : string) : Prop :=
  Forall (fun c => nat_of_ascii c ∈ whitespace_codes) (list_ascii_of_string s).

(** [s] is one of the four accepted words with whitespace, and nothing
    else, before and after it. *)
Definition strips_to_truthy (s : string) : Prop :=
  exists lead core trail,
    s = lead +:+ core +:+ trail
    /\ all_whitespace lead /\ all_whitespace trail
    /\ (core = "1" \/ core = "true" \/ core = "True" \/ core = "TRUE")%string.

(** ** Concrete rows and series *)

(** The rows of the scenarios hold floats only, so neither string
    conversion is ever applied; these two stand in for them. *)
Definition float_of_str_none : string -> option R := fun _ => None.
Definition str_of_float_opaque : R -> string := fun _ => "<float>"%string.

Definition audit_row (omega C tau_R kappa : R) : gmap string pyval :=
  <["omega"%string := VFloat omega]>
    (<["C"%string := VFloat C]>
       (<["tau_R"%string := VFloat tau_R]>
          (<["kappa"%string := VFloat kappa]> ∅))).

(** Scenario B of the specification: omega = 0.5, C = 0.2, tau_R = 1,
    kappa = -0.1, no guard_on field. *)
Definition row_B : gmap string pyval := audit_row 0.5 0.2 1 (-0.1).

(** The same row with its guard engaged, written with blanks around the
    word as a hand-edited CSV cell may have them. *)
Definition row_B_guarded : gmap string pyval :=
  <["guard_on"%string := VStr " true "]> row_B.


(** Scenario C of the specification: omega goes from 0.95 to 0.995. *)
Definition row_C_n : gmap string pyval := audit_row 0.95 0.2 1 (-0.1).
Definition row_C_np1 : gmap string pyval := audit_row 0.995 0.2 1 (-0.1).

(** ** The return time in the specification's words *)

(** Section 4.1, step 5 of the specification: the candidates are the lags
    dt = 1, ..., min(i, 600), each compared through xhat[i - dt] with
    i - dt >= 0; a counter of consecutive close matches is reset by every
    miss; the answer is the first lag at which the counter reaches 2, and
    600 when there is none. *)
Definition spec_close (eps_ret : R) (xhat : list R) (i dt : nat) : bool :=
  match xhat !! i, xhat !! (i - dt)%nat with
  | Some x_i, Some x_lag => bool_decide (Rabs (x_i - x_lag) < eps_ret)
  | _, _ => false
  end.

Fixpoint spec_search (eps_ret : R) (xhat : list R) (i : nat) (dts : list nat)
    (seen : nat) : Z :=
  match dts with
  | [] => 600%Z
  | dt :: rest =>
      if spec_close eps_ret xhat i dt then
        if (2 <=? S seen)%nat then Z.of_nat dt
        else spec_search eps_ret xhat i rest (S seen)
      else spec_search eps_ret xhat i rest 0%nat
  end.

Definition tau_R_spec (eps_ret : R) (xhat : list R) (i : nat) : Z :=
  match i with
  | O => 1%Z
  | S _ => spec_search eps_ret xhat i (seq 1 (Nat.min i 600)) 0%nat
  end.

(** ** Weld continuity on a sequence of kappa values *)

(** [validate_weld]: one flag per adjacent pair; the indices [i] and
    [i + 1] are read from the list as the source does. *)
Definition validate_weld (kappa_sequence : list R) (tolerance : R)
    : exc (list bool) :=
  if decide (length kappa_sequence < 2)%nat then Ok []
  else
    exc_map (fun i : nat =>
               k_next <- py_getitem kappa_sequence (Z.of_nat i + 1) ;;
               k_here <- py_getitem kappa_sequence (Z.of_nat i) ;;
               let diff := Rabs (k_next - k_here) in
               Ok (bool_decide (diff <= tolerance)))
            (seq 0 (length kappa_sequence - 1)).

(** ** Records handed to the validator *)

(** The dictionary [compute_invariants] builds for one time step, as the
    validator reads it when the list of records is passed on as rows.  The
    two integer fields are stored through their float values: the validator
    only ever applies [float] to them. *)
Definition record_row (r : InvariantRecord) : gmap string pyval :=
  <["t"%string := VFloat (INR (inv_t r))]>
  (<["x_raw"%string := VFloat (inv_x_raw r)]>
  (<["y"%string := VFloat (inv_y r)]>
  (<["xhat"%string := VFloat (inv_xhat r)]>
  (<["omega"%string := VFloat (inv_omega r)]>
  (<["F"%string := VFloat (inv_F r)]>
  (<["S"%string := VFloat (inv_S r)]>
  (<["C"%string := VFloat (inv_C r)]>
  (<["tau_R"%string := VFloat (IZR (inv_tau_R r))]>
  (<["IC"%string := VFloat (inv_IC r)]>
  (<["kappa"%string := VFloat (inv_kappa r)]>
  (<["U"%string := VFloat (inv_U r)]>
  (<["regime"%string := VStr (inv_regime r)]> ∅)))))))))))).

(** The kappa field of a row is missing, empty or [None]. *)
Definition kappa_blank (row : gmap string pyval) : Prop :=
  row !! "kappa"%string = None
  \/ row !! "kappa"%string = Some (VStr EmptyString)
  \/ row !! "kappa"%string = Some VNone.

(** ** The helpers of the scripts *)

(** [clip01] as [umcp/scripts/turbo.py] and [turbo_compat_harness.py] write
    it, with two conditionals instead of [max] and [min]. *)
Definition clip01_branch (u : R) : R :=
  if decide (u < 0) then 0 else if decide (u > 1) then 1 else u.

(** ** The control-chart overlays of [umcp/scripts/turbo.py] *)

(** The dictionary returned by [compute_spc_overlays]. *)
Record SpcOverlays : Type := mkSpcOverlays {
  shewhart_flags : list bool;
  ewma : list R;
  ewma_flags : list bool;
  cusum_pos : list R;
  cusum_neg : list R;
  cusum_flags : list bool
}.

(** [xs[-1] if xs else 0.0] *)
Definition last_or_zero (xs : list R) : R :=
  match last xs with
  | Some x => x
  | None => 0
  end.

(** The loop of [compute_spc_overlays]: the six lists grow by one entry
    per sample, [z] is the running average ([None] before the first
    sample).  [(lam / (2.0 - lam)) ** 0.5] is the square root of a positive
    constant. *)
Fixpoint spc_loop (sigma : R) (y_series : list R) (acc : SpcOverlays)
    (z : option R) : SpcOverlays :=
  match y_series with
  | [] => acc
  | y_i :: rest =>
      let lam := 0.2 in
      let k := 0.5 * sigma in
      let h := 5.0 * sigma in
      let shewhart' := shewhart_flags acc ++ [bool_decide (Rabs y_i > 3 * sigma)] in
      let z' := match z with
                | None => y_i
                | Some z0 => lam * y_i + (1 - lam) * z0
                end in
      let ewma' := ewma acc ++ [z'] in
      let L := 3.0 in
      let sigma_z := sigma * sqrt (lam / (2.0 - lam)) in
      let ewma_flags' := ewma_flags acc ++ [bool_decide (Rabs z' > L * sigma_z)] in
      let cp := Rmax 0 ((y_i - k) + last_or_zero (cusum_pos acc)) in
      let cn := Rmax 0 ((- y_i - k) + last_or_zero (cusum_neg acc)) in
      let cusum_pos' := cusum_pos acc ++ [cp] in
      let cusum_neg' := cusum_neg acc ++ [cn] in
      let cusum_flags' :=
        cusum_flags acc ++ [bool_decide (cp > h) || bool_decide (cn > h)] in
      spc_loop sigma rest
        (mkSpcOverlays shewhart' ewma' ewma_flags' cusum_pos' cusum_neg'
           cusum_flags')
        (Some z')
  end.

Definition compute_spc_overlays (y_series : list R) (sigma : R) : SpcOverlays :=
  spc_loop sigma y_series (mkSpcOverlays [] [] [] [] [] []) None.

(** ** [umcp.analysis] *)

(** [mean(xs) if xs else 0.0], [max(xs) if xs else 0.0] and
    [min(xs) if xs else 0.0]: the guard keeps [statistics.mean], [max] and
    [min] away from the empty list. *)
Definition mean_or_zero (xs : list R) : R :=
  match xs with
  | [] => 0
  | _ :: _ => py_sum xs / INR (length xs)
  end.

Definition max_or_zero (xs : list R) : R :=
  match xs with
  | [] => 0
  | x :: rest => fold_left Rmax rest x
  end.

Definition min_or_zero (xs : list R) : R :=
  match xs with
  | [] => 0
  | x :: rest => fold_left Rmin rest x
  end.

(** [regime_counts[regime] = regime_counts.get(regime, 0) + 1], for every
    regime in turn. *)
Definition count_regimes (regimes : list string) : gmap string Z :=
  fold_left (fun (counts : gmap string Z) regime =>
               <[regime := (default 0%Z (counts !! regime) + 1)%Z]> counts)
            regimes ∅.

(** [[i for i, r in enumerate(results) if r['regime'] in ['Collapse',
    'Critical']]], the enumeration starting at [i]. *)
Fixpoint critical_from (i : nat) (results : list InvariantRecord) : list nat :=
  match results with
  | [] => []
  | r :: rest =>
      if decide (inv_regime r ∈ ["Collapse"%string; "Critical"%string])
      then i :: critical_from (S i) rest
      else critical_from (S i) rest
  end.

Record Statistics : Type := mkStatistics {
  n_samples : Z;
  regime_counts : gmap string Z;
  mean_omega : R;
  mean_F : R;
  mean_S : R;
  mean_C : R;
  mean_kappa : R;
  mean_IC : R;
  max_omega : R;
  max_C : R;
  min_IC : R
}.

(** The ['parameters'] entry: [a], [b] and the keyword arguments. *)
Record Parameters : Type := mkParameters {
  par_a : R;
  par_b : R;
  par_eps : R;
  par_K : nat;
  par_alpha : R
}.

Record Analysis : Type := mkAnalysis {
  an_results : list InvariantRecord;
  an_statistics : Statistics;
  an_critical_periods : list nat;
  an_parameters : Parameters
}.

(** [analyze_time_series]; the keyword arguments are those of
    [compute_invariants]. *)
Definition analyze_time_series (x_raw : list R) (a b eps : R) (K : nat)
    (alpha : R) : exc Analysis :=
  results <- compute_invariants x_raw a b eps K alpha ;;
  let omega := map inv_omega results in
  let F := map inv_F results in
  let S := map inv_S results in
  let C := map inv_C results in
  let kappa := map inv_kappa results in
  let IC := map inv_IC results in
  let regimes := map inv_regime results in
  let stats :=
    mkStatistics (Z.of_nat (length results)) (count_regimes regimes)
      (mean_or_zero omega) (mean_or_zero F) (mean_or_zero S) (mean_or_zero C)
      (mean_or_zero kappa) (mean_or_zero IC)
      (max_or_zero omega) (max_or_zero C) (min_or_zero IC) in
  Ok (mkAnalysis results stats (critical_from 0 results)
        (mkParameters a b eps K alpha)).

(** One entry of the list returned by [parameter_sweep]: the statistics of
    a combination, or the exception it raised. *)
Inductive SweepEntry : Type :=
| SweepStats (a b : R) (stats : Statistics) (n_critical : Z)
| SweepError (a b : R) (e : pyerr).

(** [parameter_sweep]: every [a], and for it every [b], in order; an
    exception of the analysis becomes an error entry. *)
Definition sweep_entry (x_raw : list R) (eps : R) (K : nat) (alpha : R)
    (a b : R) : SweepEntry :=
  match analyze_time_series x_raw a b eps K alpha with
  | Ok analysis =>
      SweepStats a b (an_statistics analysis)
        (Z.of_nat (length (an_critical_periods analysis)))
  | Raise e => SweepError a b e
  end.

Definition parameter_sweep (x_raw a_values b_values : list R) (eps : R)
    (K : nat) (alpha : R) : list SweepEntry :=
  flat_map (fun a => map (sweep_entry x_raw eps K alpha a) b_values) a_values.

(** How often a label occurs among the records. *)
Definition regime_occurrences (label : string) (results : list InvariantRecord)
    : Z :=
  Z.of_nat (length (filter (fun r => inv_regime r = label) results)).

(** ** [turbo_compat_harness.py] *)

Module Harness.

Definition K : nat := 3.

(** [compute_tau_ret] of the harness: the loop of the core function, without
    its [if t == 0: return 1]. *)
Definition compute_tau_ret (eps : R) (series : list R) (t : Z)
    (max_h debounce_L : Z) : exc Z :=
  target <- py_getitem series t ;;
  found <- tau_ret_loop eps target series t debounce_L
             (py_range 1 (Z.min (t + 1) max_h + 1)) 0%Z ;;
  Ok (match found with Some dt => dt | None => max_h end).

(** [xhat_win.append(xh)] on a [deque(maxlen=maxlen)]: once the deque is
    full, the oldest entries fall out at the left. *)
Definition deque_append (maxlen : nat) (win : list R) (x : R) : list R :=
  let w := win ++ [x] in
  drop (length w - maxlen) w.

(** The curvature of a row, from the window after the row's [xhat] has been
    appended: the lags are [xhat_win[-1] - xhat_win[-k]] for k = 1 .. K. *)
Definition window_curvature (xhat_win : list R) : exc R :=
  if decide (length xhat_win < K + 1)%nat then Ok 0
  else
    diffs <- exc_map (fun k : nat =>
                        x_last <- py_getitem xhat_win (-1) ;;
                        x_k <- py_getitem xhat_win (- Z.of_nat k) ;;
                        Ok ((x_last - x_k) ^ 2))
                     (seq 1 K) ;;
    py_div (py_sum diffs) (INR K).

(** The curvature column of the loop of [main], as a function of the [xhat]
    values of the rows; [xhat_win] is the deque as the loop carries it. *)
Fixpoint curvature_loop (xhat_win : list R) (xhat : list R) : exc (list R) :=
  match xhat with
  | [] => Ok []
  | xh :: rest =>
      let xhat_win' := deque_append (K + 1) xhat_win xh in
      c <- window_curvature xhat_win' ;;
      cs <- curvature_loop xhat_win' rest ;;
      Ok (c :: cs)
  end.

Definition curvature_column (xhat : list R) : exc (list R) :=
  curvature_loop [] xhat.

End Harness.

(** ** Proof automation *)

(** Case analysis on the comparisons hidden in [Rabs], [Rmax] and [Rmin]. *)
Ltac rcases :=
  unfold Rabs, Rmax, Rmin in *;
  repeat match goal with
         | |- context [Rcase_abs ?x] => destruct (Rcase_abs x)
         | |- context [Rle_dec ?x ?y] => destruct (Rle_dec x y)
         end;
  try lra.

(** The same, also through the hypotheses. *)
Ltac rcases_all :=
  unfold Rabs, Rmax, Rmin in *;
  repeat match goal with
         | |- context [Rcase_abs ?x] => destruct (Rcase_abs x)
         | |- context [Rle_dec ?x ?y] => destruct (Rle_dec x y)
         | H : context [Rcase_abs ?x] |- _ => destruct (Rcase_abs x)
         | H : context [Rle_dec ?x ?y] |- _ => destruct (Rle_dec x y)
         end;
  try lra.

(** * Properties *)

(** ** The error monad and the primitives *)

Lemma exc_bind_Ok {A B : Type} (c : exc A) (k : A -> exc B) (b : B) :
  exc_bind c k = Ok b <-> exists a, c = Ok a /\ k a = Ok b.
Proof.
  split.
  - destruct c as [a|e]; simpl; intros H; [eauto | discriminate].
  - intros (a & -> & Hk). exact Hk.
Qed.

Lemma LOG_FLOOR_pos : 0 < LOG_FLOOR.
Proof. unfold LOG_FLOOR. lra. Qed.

Lemma Rmax_floor_pos (x : R) : 0 < Rmax x LOG_FLOOR.
Proof.
  pose proof LOG_FLOOR_pos. pose proof (Rmax_r x LOG_FLOOR). lra.
Qed.

Lemma math_log_Ok (x : R) : 0 < x -> math_log x = Ok (ln x).
Proof. intros Hx. unfold math_log. case_decide; [reflexivity | contradiction]. Qed.

Lemma math_log_Raise (x : R) : x <= 0 -> math_log x = Raise ValueError.
Proof. intros Hx. unfold math_log. case_decide; [lra | reflexivity]. Qed.

Lemma math_log_clamped (x : R) :
  math_log (Rmax x LOG_FLOOR) = Ok (ln (Rmax x LOG_FLOOR)).
Proof. apply math_log_Ok, Rmax_floor_pos. Qed.

Lemma py_div_Ok (x y : R) : y <> 0 -> py_div x y = Ok (x / y).
Proof. intros Hy. unfold py_div. case_decide; [contradiction | reflexivity]. Qed.

(** ** Face potentials *)

Lemma phi_exact (omega eps p : R) :
  phi omega eps p "exact"
  = Ok (2 * ln (Rmax (1 - omega) LOG_FLOOR) + ln (Rmax (1 - omega + eps) LOG_FLOOR)).
Proof.
  unfold phi. case_decide; [| congruence].
  rewrite !math_log_clamped. reflexivity.
Qed.

Lemma phi_other (omega eps p : R) (face : string) :
  face <> "exact"%string ->
  phi omega eps p face = Ok (p * ln (Rmax (1 - omega) LOG_FLOOR)).
Proof.
  intros Hf. unfold phi. case_decide; [contradiction |].
  rewrite math_log_clamped. reflexivity.
Qed.

Lemma phi_returns (omega eps p : R) (face : string) :
  returns (phi omega eps p face).
Proof.
  destruct (decide (face = "exact"%string)) as [-> | Hne].
  - eexists. apply phi_exact.
  - eexists. apply phi_other, Hne.
Qed.

(** C5: on [0, 1) the exact face with eps = 0 and the normal face with p = 3
    give the same potential; both calls return, and below the clamp the
    common value is 3 ln(1 - omega) = 2 ln(1 - omega) + ln(1 - omega + 0). *)
Theorem phi_face_equivalence (omega : R) :
  0 <= omega < 1 ->
  phi omega 0 3 "exact" = phi omega 0 3 "normal"
  /\ returns (phi omega 0 3 "normal")
  /\ 2 * ln (1 - omega) + ln (1 - omega + 0) = 3 * ln (1 - omega)
  /\ (LOG_FLOOR <= 1 - omega -> phi omega 0 3 "normal" = Ok (3 * ln (1 - omega))).
Proof.
  intros _.
  rewrite phi_exact, (phi_other omega 0 3 "normal") by discriminate.
  replace (1 - omega + 0) with (1 - omega) by lra.
  repeat split.
  - f_equal. lra.
  - eexists. reflexivity.
  - lra.
  - intros Hfl. rewrite Rmax_left by lra. reflexivity.
Qed.

Lemma phi_face_equivalence_witness :
  phi 0.5 0 3 "exact" = phi 0.5 0 3 "normal"
  /\ returns (phi 0.5 0 3 "normal")
  /\ 2 * ln (1 - 0.5) + ln (1 - 0.5 + 0) = 3 * ln (1 - 0.5)
  /\ (LOG_FLOOR <= 1 - 0.5 -> phi 0.5 0 3 "normal" = Ok (3 * ln (1 - 0.5))).
Proof. apply (phi_face_equivalence 0.5). lra. Defined.

Lemma gamma_secant_below_scale (om_minus om_plus eps p : R) (face : string) :
  Rabs (om_plus - om_minus) < 1e-15 ->
  gamma_secant om_minus om_plus eps p face = gamma_pointwise om_minus eps p face.
Proof.
  intros Hd. unfold gamma_secant. case_decide; [reflexivity | contradiction].
Qed.

Lemma gamma_secant_same (w eps p : R) (face : string) :
  gamma_secant w w eps p face = gamma_pointwise w eps p face.
Proof.
  apply gamma_secant_below_scale.
  replace (w - w) with 0 by lra. rewrite Rabs_R0. lra.
Qed.

(** C8: on a degenerate interval the secant rate is the pointwise rate, and
    more generally whenever the interval is shorter than 1e-15 the secant
    rate is the pointwise rate at the left end: the same value, or the same
    exception. *)
Theorem gamma_secant_degenerate (om_minus om_plus eps p : R) (face : string) :
  gamma_secant om_minus om_minus eps p face = gamma_pointwise om_minus eps p face
  /\ (Rabs (om_plus - om_minus) < 1e-15 ->
      gamma_secant om_minus om_plus eps p face
      = gamma_pointwise om_minus eps p face).
Proof.
  split.
  - apply gamma_secant_same.
  - apply gamma_secant_below_scale.
Qed.

Lemma Rabs_small_example : Rabs (0.5 - 0.5) < 1e-15.
Proof. replace (0.5 - 0.5) with 0 by lra. rewrite Rabs_R0. lra. Qed.

Lemma gamma_secant_degenerate_witness :
  Rabs (0.5 - 0.5) < 1e-15
  /\ gamma_secant 0.5 0.5 1e-8 3 "normal" = gamma_pointwise 0.5 1e-8 3 "normal".
Proof.
  split; [exact Rabs_small_example |].
  apply (gamma_secant_degenerate 0.5 0.5 1e-8 3 "normal"), Rabs_small_example.
Defined.

Lemma gamma_pointwise_exact_pole (omega eps p : R) :
  gamma_pointwise omega eps p "exact" = Raise ZeroDivisionError
  <-> 1 - omega = 0 \/ 1 - omega + eps = 0.
Proof.
  unfold gamma_pointwise. case_decide; [| congruence].
  unfold py_div.
  destruct (decide (1 - omega = 0)) as [H1 | H1];
    destruct (decide (1 - omega + eps = 0)) as [H2 | H2]; simpl;
    intuition (try discriminate; try lra).
Qed.

Lemma gamma_pointwise_other_pole (omega eps p : R) (face : string) :
  face <> "exact"%string ->
  (gamma_pointwise omega eps p face = Raise ZeroDivisionError <-> 1 - omega = 0).
Proof.
  intros Hf. unfold gamma_pointwise. case_decide; [contradiction |].
  unfold py_div. case_decide; intuition (try discriminate).
Qed.

(** C10: the pointwise rate divides without a clamp: on the normal face it
    raises at omega = 1, on the exact face it raises exactly when
    1 - omega = 0 or 1 - omega + eps = 0, while [phi] returns everywhere;
    when the interval is shorter than 1e-15 and its left end is such a
    pole, the secant rate and the transport update raise as well. *)
Theorem gamma_pointwise_unclamped (omega om_plus U_n alpha eps p : R) (face : string) :
  gamma_pointwise 1 eps p "normal" = Raise ZeroDivisionError
  /\ returns (phi 1 eps p "normal")
  /\ (gamma_pointwise omega eps p "exact" = Raise ZeroDivisionError
      <-> 1 - omega = 0 \/ 1 - omega + eps = 0)
  /\ returns (phi omega eps p "exact")
  /\ (Rabs (om_plus - omega) < 1e-15 ->
      gamma_pointwise omega eps p face = Raise ZeroDivisionError ->
      gamma_secant omega om_plus eps p face = Raise ZeroDivisionError
      /\ transport_update_U U_n omega om_plus alpha eps p face
         = Raise ZeroDivisionError).
Proof.
  split; [| split; [| split; [| split]]].
  - apply gamma_pointwise_other_pole; [discriminate | lra].
  - apply phi_returns.
  - apply gamma_pointwise_exact_pole.
  - apply phi_returns.
  - intros Hd Hpole.
    pose proof (gamma_secant_below_scale omega om_plus eps p face Hd) as Hsec.
    rewrite Hpole in Hsec.
    split; [exact Hsec |].
    unfold transport_update_U. rewrite Hsec. reflexivity.
Qed.

Lemma Rabs_zero_small : Rabs (1 - 1) < 1e-15.
Proof. replace (1 - 1) with 0 by lra. rewrite Rabs_R0. lra. Qed.

Lemma gamma_pointwise_unclamped_witness :
  gamma_secant 1 1 1e-8 3 "exact" = Raise ZeroDivisionError
  /\ transport_update_U 0.1 1 1 1 1e-8 3 "exact" = Raise ZeroDivisionError.
Proof.
  apply (gamma_pointwise_unclamped 1 1 0.1 1 1e-8 3 "exact").
  - exact Rabs_zero_small.
  - apply gamma_pointwise_exact_pole. left. lra.
Defined.

(** ** Regime classification *)

(** C6, as the code has it: the branch taken is determined as follows.  The
    Stable gate is taken exactly when its four conditions hold; otherwise
    omega >= 0.30 gives the Collapse/Critical branch and
    0.038 <= omega < 0.30 gives Watch; the final fallback is taken exactly
    when omega < 0.038 and one of the other three Stable conditions fails,
    so it is reached for non-negative omega too, and never for
    omega >= 0.038. *)
Theorem classify_regime_branches (omega F S C IC : R) :
  let br := classify_regime_branch omega F S C IC in
  (br = StableGate <-> omega < 0.038 /\ F > 0.9 /\ S < 0.15 /\ C < 0.14)
  /\ (br = CriticalOverlay <-> omega >= 0.30 /\ IC < 0.30)
  /\ (br = CollapseGate <-> omega >= 0.30 /\ IC >= 0.30)
  /\ (br = WatchGate <-> 0.038 <= omega < 0.30)
  /\ (br = DefaultFallback <->
      omega < 0.038 /\ (F <= 0.9 \/ S >= 0.15 \/ C >= 0.14))
  /\ classify_regime omega F S C IC = branch_label br.
Proof.
  cbv zeta. unfold classify_regime, classify_regime_branch.
  destruct (decide (omega < 0.038 /\ F > 0.9 /\ S < 0.15 /\ C < 0.14)) as [Hs | Hs];
    [| destruct (decide (omega >= 0.30)) as [Hc | Hc];
       [destruct (decide (IC < 0.30)) as [Hi | Hi]
       | destruct (decide (0.038 <= omega /\ omega < 0.30)) as [Hw | Hw]]];
    repeat split; try discriminate; try reflexivity; try lra; intros; try lra.
  all: try (exfalso; lra).
  all: try (destruct (Rle_lt_dec F 0.9); [lra |];
            destruct (Rle_lt_dec 0.15 S); [lra |];
            destruct (Rle_lt_dec 0.14 C); lra).
Qed.

(** C6 fails as stated: a non-negative omega below 0.038 with a curvature of
    0.2 falls through every explicit gate into the final fallback. *)
Lemma classify_regime_fallback_nonneg :
  0 <= 0
  /\ classify_regime_branch 0 1 0 0.2 1 = DefaultFallback
  /\ classify_regime 0 1 0 0.2 1 = "Stable"%string.
Proof.
  assert (Hb : classify_regime_branch 0 1 0 0.2 1 = DefaultFallback).
  { unfold classify_regime_branch.
    repeat (case_decide; try lra). reflexivity. }
  split; [lra |]. split; [exact Hb |].
  unfold classify_regime. rewrite Hb. reflexivity.
Qed.

(** ** Face selection and the guard flag *)

Lemma choose_face_exact (omega eps pivot : R) (guard_on : bool) :
  choose_face omega guard_on eps pivot = "exact"%string
  <-> guard_on = true \/ omega >= pivot.
Proof.
  unfold choose_face. destruct guard_on; simpl.
  - intuition.
  - case_bool_decide; intuition discriminate.
Qed.

Lemma choose_face_normal (omega eps pivot : R) (guard_on : bool) :
  choose_face omega guard_on eps pivot = "normal"%string
  <-> ~ (guard_on = true \/ omega >= pivot).
Proof.
  unfold choose_face. destruct guard_on; simpl.
  - intuition discriminate.
  - case_bool_decide; intuition discriminate.
Qed.

Section GuardFlag.

Variable float_of_str : string -> option R.
Variable str_of_float : R -> string.

Lemma row_guard_missing (row : gmap string pyval) :
  row !! "guard_on"%string = None -> row_guard str_of_float row = false.
Proof.
  intros Hm. unfold row_guard. rewrite Hm. reflexivity.
Qed.

End GuardFlag.

(** ** Indexing *)

Lemma py_getitem_nat {A : Type} (xs : list A) (i : nat) :
  py_getitem xs (Z.of_nat i)
  = match xs !! i with Some x => Ok x | None => Raise IndexError end.
Proof.
  unfold py_getitem. cbv zeta.
  destruct (decide (Z.of_nat i < 0)%Z) as [Hneg | _]; [lia |].
  destruct (decide (0 <= Z.of_nat i < Z.of_nat (length xs))%Z) as [Hin | Hout].
  - rewrite Nat2Z.id. reflexivity.
  - rewrite (lookup_ge_None_2 xs i) by lia. reflexivity.
Qed.

Lemma py_getitem_nat_Ok {A : Type} (xs : list A) (i : nat) (x : A) :
  py_getitem xs (Z.of_nat i) = Ok x <-> xs !! i = Some x.
Proof.
  rewrite py_getitem_nat. destruct (xs !! i); split; intros H;
    try discriminate; inversion H; reflexivity.
Qed.

Lemma py_getitem_succ_Ok {A : Type} (xs : list A) (i : nat) (x : A) :
  py_getitem xs (Z.of_nat i + 1) = Ok x <-> xs !! S i = Some x.
Proof.
  replace (Z.of_nat i + 1)%Z with (Z.of_nat (S i)) by lia.
  apply py_getitem_nat_Ok.
Qed.

Lemma exc_map_Ok_length {A B : Type} (f : A -> exc B) (xs : list A) (ys : list B) :
  exc_map f xs = Ok ys -> length ys = length xs.
Proof.
  revert ys. induction xs as [| x rest IH]; simpl; intros ys H.
  - inversion H. reflexivity.
  - apply exc_bind_Ok in H as (y & _ & H).
    apply exc_bind_Ok in H as (ys' & Hrest & H).
    inversion H; subst. simpl. f_equal. apply IH, Hrest.
Qed.

Lemma exc_map_Ok_lookup {A B : Type} (f : A -> exc B) (xs : list A) (ys : list B)
    (i : nat) (y : B) :
  exc_map f xs = Ok ys -> ys !! i = Some y ->
  exists x, xs !! i = Some x /\ f x = Ok y.
Proof.
  revert ys i. induction xs as [| x rest IH]; simpl; intros ys i H Hy.
  - inversion H; subst. discriminate.
  - apply exc_bind_Ok in H as (y0 & Hf & H).
    apply exc_bind_Ok in H as (ys' & Hrest & H).
    inversion H; subst. destruct i as [| i]; simpl in *.
    + inversion Hy; subst. eauto.
    + eapply IH; eassumption.
Qed.

Lemma exc_map_returns {A B : Type} (f : A -> exc B) (xs : list A) :
  (forall x, In x xs -> returns (f x)) -> returns (exc_map f xs).
Proof.
  induction xs as [| x rest IH]; simpl; intros Hall.
  - eexists. reflexivity.
  - destruct (Hall x) as [y Hy]; [left; reflexivity |].
    destruct IH as [ys Hys]; [intros; apply Hall; right; assumption |].
    rewrite Hy, Hys. simpl. eexists. reflexivity.
Qed.

(** ** Transport prediction *)

Lemma transport_update_U_Ok (U_n om_n om_np1 alpha eps p U' : R) (face : string) :
  transport_update_U U_n om_n om_np1 alpha eps p face = Ok U'
  <-> exists Gam, gamma_secant om_n om_np1 eps p face = Ok Gam
      /\ alpha <> 0
      /\ U' = U_n - (1 / alpha) * Gam * (om_np1 - om_n).
Proof.
  unfold transport_update_U. rewrite exc_bind_Ok. split.
  - intros (Gam & HG & H). apply exc_bind_Ok in H as (ia & Hia & H).
    unfold py_div in Hia. destruct (decide (alpha = 0)); [discriminate |].
    inversion Hia; subst. inversion H; subst. eauto.
  - intros (Gam & HG & Ha & ->). exists Gam. split; [assumption |].
    rewrite py_div_Ok by assumption. reflexivity.
Qed.

Section StepValidation.

Variable float_of_str : string -> option R.
Variable str_of_float : R -> string.

Abbreviation validate_step' := (validate_step float_of_str str_of_float).
Abbreviation row_float' := (row_float float_of_str).
Abbreviation row_guard' := (row_guard str_of_float).

Lemma validate_step_Ok (row_n row_np1 : gmap string pyval)
    (alpha eps p tolT tolW pivot : R) (r : StepResult) :
  validate_step' row_n row_np1 alpha eps p tolT tolW pivot = Ok r ->
  exists C_n tau_n k_n C_np1 tau_np1 k_np1,
    row_float' row_n "omega" = Ok (omega_n r)
    /\ row_float' row_n "C" = Ok C_n
    /\ row_float' row_n "tau_R" = Ok tau_n
    /\ row_kappa float_of_str row_n = Ok k_n
    /\ py_div C_n (1 + tau_n) = Ok (U_n r)
    /\ row_float' row_np1 "omega" = Ok (omega_np1 r)
    /\ row_float' row_np1 "C" = Ok C_np1
    /\ row_float' row_np1 "tau_R" = Ok tau_np1
    /\ row_kappa float_of_str row_np1 = Ok k_np1
    /\ py_div C_np1 (1 + tau_np1) = Ok (U_np1 r)
    /\ face_n r = choose_face (omega_n r) (row_guard' row_n) eps pivot
    /\ face_np1 r = choose_face (omega_np1 r) (row_guard' row_np1) eps pivot
    /\ predict_U (U_n r) (omega_n r) (omega_np1 r) alpha eps p pivot
         (face_n r) (face_np1 r) = Ok (U_pred r)
    /\ rT r = U_np1 r - U_pred r
    /\ rW r = k_np1 - k_n
    /\ okT r = ok_flag (rT r) tolT
    /\ okW r = ok_flag (rW r) tolW.
Proof.
  unfold validate_step. intros H.
  apply exc_bind_Ok in H as (om_n & Hom_n & H).
  apply exc_bind_Ok in H as (C_n & HC_n & H).
  apply exc_bind_Ok in H as (tau_n & Htau_n & H).
  apply exc_bind_Ok in H as (k_n & Hk_n & H).
  apply exc_bind_Ok in H as (Un & HU_n & H).
  apply exc_bind_Ok in H as (om_np1 & Hom_np1 & H).
  apply exc_bind_Ok in H as (C_np1 & HC_np1 & H).
  apply exc_bind_Ok in H as (tau_np1 & Htau_np1 & H).
  apply exc_bind_Ok in H as (k_np1 & Hk_np1 & H).
  apply exc_bind_Ok in H as (Unp1 & HU_np1 & H).
  cbv zeta in H.
  apply exc_bind_Ok in H as (Upred & Hpred & H).
  inversion H; subst r; clear H. simpl.
  exists C_n, tau_n, k_n, C_np1, tau_np1, k_np1.
  repeat split; assumption.
Qed.

(** C4: on every transition that [validate_step] validates, the predicted
    payload is the single-face secant update on the common face when the
    two faces agree; two chained single-face updates, omega_n to pivot on
    the departure face and pivot to omega_np1 on the arrival face, when
    the faces differ and pivot lies between the two drifts; and a
    single-face update on the departure face over the whole step when the
    faces differ and pivot lies outside. *)
Theorem validate_step_prediction (row_n row_np1 : gmap string pyval)
    (alpha eps p tolT tolW pivot : R) (r : StepResult) :
  validate_step' row_n row_np1 alpha eps p tolT tolW pivot = Ok r ->
  face_n r = choose_face (omega_n r) (row_guard' row_n) eps pivot
  /\ face_np1 r = choose_face (omega_np1 r) (row_guard' row_np1) eps pivot
  /\ (face_n r = face_np1 r ->
      exists Gam,
        gamma_secant (omega_n r) (omega_np1 r) eps p (face_n r) = Ok Gam
        /\ U_pred r = U_n r - (1 / alpha) * Gam * (omega_np1 r - omega_n r))
  /\ (face_n r <> face_np1 r ->
      Rmin (omega_n r) (omega_np1 r) <= pivot <= Rmax (omega_n r) (omega_np1 r) ->
      exists U_mid,
        transport_update_U (U_n r) (omega_n r) pivot alpha eps p (face_n r)
        = Ok U_mid
        /\ transport_update_U U_mid pivot (omega_np1 r) alpha eps p (face_np1 r)
           = Ok (U_pred r))
  /\ (face_n r <> face_np1 r ->
      ~ (Rmin (omega_n r) (omega_np1 r) <= pivot <= Rmax (omega_n r) (omega_np1 r)) ->
      transport_update_U (U_n r) (omega_n r) (omega_np1 r) alpha eps p (face_n r)
      = Ok (U_pred r)).
Proof.
  intros H.
  apply validate_step_Ok in H
    as (C_n & tau_n & k_n & C_np1 & tau_np1 & k_np1 & _ & _ & _ & _ & _
        & _ & _ & _ & _ & _ & Hfn & Hfnp1 & Hpred & _).
  split; [exact Hfn |]. split; [exact Hfnp1 |].
  unfold predict_U in Hpred.
  destruct (decide (face_n r <> face_np1 r)) as [Hne | Heq].
  - destruct (decide (~ (Rmin (omega_n r) (omega_np1 r) <= pivot
                         /\ pivot <= Rmax (omega_n r) (omega_np1 r))))
      as [Hout | Hin].
    + repeat split; intros; try contradiction; assumption.
    + repeat split; intros; try contradiction.
      apply exc_bind_Ok in Hpred as (U_mid & Hmid & Hpred). eauto.
  - assert (Hsame : face_n r = face_np1 r).
    { destruct (decide (face_n r = face_np1 r)); [assumption | contradiction]. }
    repeat split; intros; try contradiction.
    apply transport_update_U_Ok in Hpred as (Gam & HG & _ & HU). eauto.
Qed.

End StepValidation.

(** ** Stripping and the accepted words *)

Lemma py_isspace_codes (c : ascii) :
  py_isspace c = true <-> nat_of_ascii c ∈ whitespace_codes.
Proof.
  assert (H : py_isspace c = bool_decide (nat_of_ascii c ∈ whitespace_codes)).
  { destruct c as [[] [] [] [] [] [] [] []]; vm_compute; reflexivity. }
  rewrite H. apply bool_decide_eq_true.
Qed.

Lemma all_whitespace_nil : all_whitespace "".
Proof. constructor. Qed.

Lemma all_whitespace_cons (c : ascii) (s : string) :
  all_whitespace (String c s)
  <-> py_isspace c = true /\ all_whitespace s.
Proof.
  unfold all_whitespace. cbn [list_ascii_of_string].
  rewrite Forall_cons, py_isspace_codes. reflexivity.
Qed.

Lemma all_whitespace_app (a b : string) :
  all_whitespace (a +:+ b) <-> all_whitespace a /\ all_whitespace b.
Proof.
  induction a as [| c a IH].
  - simpl. split; [intros H; split; [apply all_whitespace_nil | exact H] | tauto].
  - change (String c a +:+ b) with (String c (a +:+ b)).
    rewrite !all_whitespace_cons, IH. tauto.
Qed.

Lemma py_lstrip_decompose (s : string) :
  exists lead, s = lead +:+ py_lstrip s /\ all_whitespace lead.
Proof.
  induction s as [| c s IH].
  - exists ""%string. split; [reflexivity | apply all_whitespace_nil].
  - cbn [py_lstrip]. destruct (py_isspace c) eqn:Hc.
    + destruct IH as (lead & Hs & Hlead). exists (String c lead). split.
      * change (String c lead +:+ py_lstrip s)
          with (String c (lead +:+ py_lstrip s)).
        rewrite <- Hs. reflexivity.
      * apply all_whitespace_cons. auto.
    + exists ""%string. split; [reflexivity | apply all_whitespace_nil].
Qed.

Lemma py_lstrip_skip (lead t : string) :
  all_whitespace lead -> py_lstrip (lead +:+ t) = py_lstrip t.
Proof.
  induction lead as [| c lead IH]; intros Hl; [reflexivity |].
  apply all_whitespace_cons in Hl as (Hc & Hl).
  change (String c lead +:+ t) with (String c (lead +:+ t)).
  cbn [py_lstrip]. rewrite Hc. apply IH, Hl.
Qed.

Lemma string_app_assoc (a b c : string) : (a +:+ b) +:+ c = a +:+ b +:+ c.
Proof.
  induction a as [| x a IH]; [reflexivity |].
  change (String x ((a +:+ b) +:+ c) = String x (a +:+ b +:+ c)).
  rewrite IH. reflexivity.
Qed.

Lemma string_app_nil_r (a : string) : a +:+ "" = a.
Proof.
  induction a as [| x a IH]; [reflexivity |].
  change (String x (a +:+ "") = String x a). rewrite IH. reflexivity.
Qed.

Lemma string_rev_app_spec (s t : string) :
  String.rev_app s t = String.rev s +:+ t.
Proof.
  unfold String.rev. revert t. induction s as [| c s IH]; intros t; [reflexivity |].
  simpl. rewrite (IH (String c t)), (IH (String c "")), string_app_assoc.
  reflexivity.
Qed.

Lemma string_rev_app (a b : string) :
  String.rev (a +:+ b) = String.rev b +:+ String.rev a.
Proof.
  induction a as [| c a IH].
  - simpl. rewrite string_app_nil_r. reflexivity.
  - unfold String.rev in *. simpl.
    rewrite (string_rev_app_spec (a +:+ b)), (string_rev_app_spec a).
    unfold String.rev. rewrite IH, string_app_assoc. reflexivity.
Qed.

Lemma string_rev_involutive (s : string) : String.rev (String.rev s) = s.
Proof.
  induction s as [| c s IH]; [reflexivity |].
  change (String c s) with (String c "" +:+ s) at 1.
  rewrite string_rev_app, string_rev_app, IH. reflexivity.
Qed.

Lemma all_whitespace_rev (s : string) :
  all_whitespace s -> all_whitespace (String.rev s).
Proof.
  induction s as [| c s IH]; intros Hs; [exact Hs |].
  change (String c s) with (String c "" +:+ s).
  rewrite string_rev_app. apply all_whitespace_app.
  apply all_whitespace_cons in Hs as (Hc & Hs). split; [apply IH, Hs |].
  change (String.rev (String c "")) with (String c "").
  apply all_whitespace_cons. split; [exact Hc | apply all_whitespace_nil].
Qed.

Lemma py_strip_decompose (s : string) :
  exists lead trail,
    s = lead +:+ py_strip s +:+ trail
    /\ all_whitespace lead /\ all_whitespace trail.
Proof.
  destruct (py_lstrip_decompose s) as (lead & Hs & Hlead).
  destruct (py_lstrip_decompose (String.rev (py_lstrip s)))
    as (liart & Hr & Hliart).
  exists lead, (String.rev liart). split; [| split].
  - rewrite Hs at 1. f_equal.
    rewrite <- (string_rev_involutive (py_lstrip s)) at 1.
    rewrite Hr at 1. rewrite string_rev_app. reflexivity.
  - exact Hlead.
  - apply all_whitespace_rev, Hliart.
Qed.

Lemma py_strip_truthy (lead core trail : string) :
  all_whitespace lead -> all_whitespace trail ->
  (core = "1" \/ core = "true" \/ core = "True" \/ core = "TRUE")%string ->
  py_strip (lead +:+ core +:+ trail) = core.
Proof.
  intros Hlead Htrail Hcore. unfold py_strip, py_rstrip.
  rewrite (py_lstrip_skip lead _ Hlead).
  assert (Hl : py_lstrip (core +:+ trail) = core +:+ trail).
  { destruct Hcore as [-> | [-> | [-> | ->]]]; reflexivity. }
  rewrite Hl, string_rev_app.
  rewrite (py_lstrip_skip _ _ (all_whitespace_rev _ Htrail)).
  destruct Hcore as [-> | [-> | [-> | ->]]]; reflexivity.
Qed.

Lemma strips_to_truthy_iff (s : string) :
  py_strip s ∈ TRUTHY <-> strips_to_truthy s.
Proof.
  unfold TRUTHY, strips_to_truthy. rewrite !elem_of_cons, elem_of_nil. split.
  - intros Hs. destruct (py_strip_decompose s) as (lead & trail & Heq & Hl & Ht).
    exists lead, (py_strip s), trail. repeat split; try assumption. tauto.
  - intros (lead & core & trail & -> & Hl & Ht & Hcore).
    rewrite (py_strip_truthy _ _ _ Hl Ht Hcore). tauto.
Qed.

Section GuardParsing.

Variable float_of_str : string -> option R.
Variable str_of_float : R -> string.

Lemma row_guard_value (row : gmap string pyval) (v : pyval) :
  row !! "guard_on"%string = Some v ->
  (row_guard str_of_float row = true
   <-> strips_to_truthy (py_str str_of_float v)).
Proof.
  intros Hv. unfold row_guard, _to_bool_flag. rewrite Hv. cbn [default].
  rewrite bool_decide_eq_true. apply strips_to_truthy_iff.
Qed.

(** C9: [choose_face] answers "exact" exactly when the guard is on or
    omega >= pivot, and "normal" otherwise.  The guard of a parsed row is
    on exactly when its guard_on field, as a string, is one of "1",
    "true", "True", "TRUE" with nothing but whitespace before and after
    it: for a string field that is the field itself, for a float field
    the text [str] gives it; a field holding None and a missing field
    both leave the guard off.  So two rows with omega = 0.5 and no
    guard_on field both get the normal face under the default pivot 0.99.
    The faces [validate_step] reports are those of [choose_face] on each
    row's own drift and guard. *)
Theorem choose_face_and_guard (omega eps pivot : R) (guard_on : bool)
    (row row' : gmap string pyval) :
  (choose_face omega guard_on eps pivot = "exact"%string
   <-> guard_on = true \/ omega >= pivot)
  /\ (~ (guard_on = true \/ omega >= pivot) ->
      choose_face omega guard_on eps pivot = "normal"%string)
  /\ (forall s, row !! "guard_on"%string = Some (VStr s) ->
                (row_guard str_of_float row = true <-> strips_to_truthy s))
  /\ (forall x, row !! "guard_on"%string = Some (VFloat x) ->
                (row_guard str_of_float row = true
                 <-> strips_to_truthy (str_of_float x)))
  /\ (row !! "guard_on"%string = Some VNone ->
      row_guard str_of_float row = false)
  /\ (row !! "guard_on"%string = None -> row_guard str_of_float row = false)
  /\ (row !! "guard_on"%string = None ->
      row' !! "guard_on"%string = None ->
      choose_face 0.5 (row_guard str_of_float row) eps 0.99 = "normal"%string
      /\ choose_face 0.5 (row_guard str_of_float row') eps 0.99 = "normal"%string)
  /\ (forall alpha p tolT tolW r,
         validate_step float_of_str str_of_float row row'
           alpha eps p tolT tolW pivot = Ok r ->
         face_n r = choose_face (omega_n r) (row_guard str_of_float row) eps pivot
         /\ face_np1 r
            = choose_face (omega_np1 r) (row_guard str_of_float row') eps pivot).
Proof.
  split; [apply choose_face_exact |].
  split; [apply choose_face_normal |].
  split; [intros s Hs; apply (row_guard_value row _ Hs) |].
  split; [intros x Hx; apply (row_guard_value row _ Hx) |].
  split; [| split; [apply row_guard_missing | split]].
  - intros Hn. unfold row_guard. rewrite Hn. reflexivity.
  - intros Hm Hm'.
    rewrite (row_guard_missing str_of_float row Hm),
      (row_guard_missing str_of_float row' Hm').
    assert (Hn : choose_face 0.5 false eps 0.99 = "normal"%string).
    { apply choose_face_normal. intros [Hg | Hg]; [discriminate | lra]. }
    split; exact Hn.
  - intros alpha p tolT tolW r Hr.
    apply validate_step_Ok in Hr
      as (C_n & tau_n & k_n & C_np1 & tau_np1 & k_np1 & _ & _ & _ & _ & _ & _
          & _ & _ & _ & _ & Hfn & Hfnp1 & _).
    split; assumption.
Qed.

End GuardParsing.

(** ** Sequence validation *)

Section SequenceValidation.

Variable float_of_str : string -> option R.
Variable str_of_float : R -> string.
Variable data : list (gmap string pyval).
Variables alpha eps p tolT tolW pivot : R.

Abbreviation step_at' :=
  (step_at float_of_str str_of_float data alpha eps p tolT tolW pivot).
Abbreviation validate_loop' :=
  (validate_loop float_of_str str_of_float data alpha eps p tolT tolW pivot).
Abbreviation validate_sequence' :=
  (validate_sequence float_of_str str_of_float data alpha eps p tolT tolW pivot).
Abbreviation with_idx := (fun (i : nat) res => mkValidationRecord (Z.of_nat i) res).

Lemma validate_loop_Ok_inv (idxs : list nat) (results : list ValidationRecord)
    (passes_T passes_W : Z) out :
  validate_loop' idxs results passes_T passes_W = Ok out ->
  exists steps,
    Forall2 step_at' idxs steps
    /\ out = (results ++ zip_with with_idx idxs steps,
              (passes_T + sum_flags okT steps)%Z,
              (passes_W + sum_flags okW steps)%Z).
Proof.
  revert results passes_T passes_W.
  induction idxs as [| i rest IH]; simpl; intros results pT pW H.
  - inversion H; subst. exists []. split; [constructor |].
    simpl. rewrite app_nil_r, !Z.add_0_r. reflexivity.
  - apply exc_bind_Ok in H as (row_n & Hn & H).
    apply exc_bind_Ok in H as (row_np1 & Hnp1 & H).
    apply exc_bind_Ok in H as (res & Hres & H).
    apply IH in H as (steps & Hsteps & ->).
    exists (res :: steps). split.
    + constructor; [| exact Hsteps].
      exists row_n, row_np1.
      apply py_getitem_nat_Ok in Hn. apply py_getitem_succ_Ok in Hnp1.
      auto.
    + simpl. rewrite <- app_assoc. simpl. f_equal; [f_equal |]; lia.
Qed.

Lemma validate_loop_complete (idxs : list nat) (steps : list StepResult)
    (results : list ValidationRecord) (passes_T passes_W : Z) :
  Forall2 step_at' idxs steps ->
  validate_loop' idxs results passes_T passes_W
  = Ok (results ++ zip_with with_idx idxs steps,
        (passes_T + sum_flags okT steps)%Z,
        (passes_W + sum_flags okW steps)%Z).
Proof.
  intros Hall. revert results passes_T passes_W.
  induction Hall as [| i res rest steps (row_n & row_np1 & Hn & Hnp1 & Hres) _ IH];
    intros results pT pW; simpl.
  - rewrite app_nil_r, !Z.add_0_r. reflexivity.
  - apply py_getitem_nat_Ok in Hn. apply py_getitem_succ_Ok in Hnp1.
    rewrite Hn, Hnp1. simpl. rewrite Hres. simpl. rewrite IH.
    rewrite <- app_assoc. simpl. f_equal. f_equal; [f_equal |]; lia.
Qed.




Lemma validate_sequence_Ok_inv recs summ :
  validate_sequence' = Ok (recs, summ) ->
  (2 <= length data)%nat
  /\ exists steps,
      Forall2 step_at' (seq 0 (length data - 1)) steps
      /\ recs = zip_with with_idx (seq 0 (length data - 1)) steps
      /\ total_steps summ = Z.of_nat (length data - 1)
      /\ transport_pass summ = sum_flags okT steps
      /\ weld_pass summ = sum_flags okW steps.
Proof.
  unfold validate_sequence.
  destruct (decide (length data < 2)%nat) as [Hlt | Hge]; [discriminate |].
  intros H. split; [lia |].
  apply exc_bind_Ok in H as (out & Hloop & H).
  apply validate_loop_Ok_inv in Hloop as (steps & Hsteps & ->).
  simpl in H. inversion H; subst; clear H. simpl.
  exists steps. repeat split; try assumption; lia.
Qed.


End SequenceValidation.

(** ** The concrete rows *)

Section ConcreteRows.

Variable float_of_str : string -> option R.
Variable str_of_float : R -> string.
Variables omega C tau_R kappa : R.

Lemma audit_row_omega :
  row_float float_of_str (audit_row omega C tau_R kappa) "omega" = Ok omega.
Proof. reflexivity. Qed.

Lemma audit_row_C :
  row_float float_of_str (audit_row omega C tau_R kappa) "C" = Ok C.
Proof. reflexivity. Qed.

Lemma audit_row_tau_R :
  row_float float_of_str (audit_row omega C tau_R kappa) "tau_R" = Ok tau_R.
Proof. reflexivity. Qed.

Lemma audit_row_kappa :
  row_kappa float_of_str (audit_row omega C tau_R kappa) = Ok kappa.
Proof. reflexivity. Qed.

Lemma audit_row_guard :
  row_guard str_of_float (audit_row omega C tau_R kappa) = false.
Proof. reflexivity. Qed.

End ConcreteRows.

Lemma validate_step_audit_rows (float_of_str : string -> option R)
    (str_of_float : R -> string)
    (om1 C1 tau1 k1 om2 C2 tau2 k2 alpha eps p tolT tolW pivot : R) :
  validate_step float_of_str str_of_float
    (audit_row om1 C1 tau1 k1) (audit_row om2 C2 tau2 k2)
    alpha eps p tolT tolW pivot
  = (U1 <- py_div C1 (1 + tau1) ;;
     U2 <- py_div C2 (1 + tau2) ;;
     let f1 := choose_face om1 false eps pivot in
     let f2 := choose_face om2 false eps pivot in
     U_pred <- predict_U U1 om1 om2 alpha eps p pivot f1 f2 ;;
     Ok (mkStepResult om1 om2 f1 f2 U1 U2 U_pred (U2 - U_pred) (k2 - k1)
           (ok_flag (U2 - U_pred) tolT) (ok_flag (k2 - k1) tolW))).
Proof.
  unfold validate_step.
  rewrite !audit_row_omega, !audit_row_C, !audit_row_tau_R, !audit_row_kappa,
    !audit_row_guard.
  reflexivity.
Qed.

Lemma choose_face_below_pivot (omega eps : R) :
  omega < 0.99 -> choose_face omega false eps 0.99 = "normal"%string.
Proof.
  intros Hlt. apply choose_face_normal. intros [Hg | Hge]; [discriminate | lra].
Qed.


(** Scenario B of the specification, evaluated. *)
Lemma scenario_B_step (float_of_str : string -> option R)
    (str_of_float : R -> string) :
  exists r,
    validate_step float_of_str str_of_float row_B row_B 1 1e-8 3 1e-9 1e-12 0.99
    = Ok r
    /\ face_n r = "normal"%string /\ face_np1 r = "normal"%string
    /\ omega_n r = 0.5 /\ omega_np1 r = 0.5
    /\ U_n r = 0.1 /\ U_np1 r = 0.1 /\ U_pred r = 0.1
    /\ rT r = 0 /\ rW r = 0 /\ okT r = 1 /\ okW r = 1.
Proof.
  unfold row_B. rewrite validate_step_audit_rows.
  rewrite !py_div_Ok by lra. simpl exc_bind. cbv zeta.
  rewrite !choose_face_below_pivot by lra.
  unfold predict_U.
  destruct (decide ("normal"%string <> "normal"%string)) as [Hne | _];
    [contradiction Hne; reflexivity |].
  unfold transport_update_U.
  rewrite gamma_secant_same.
  unfold gamma_pointwise.
  destruct (decide ("normal"%string = "exact"%string)) as [Heq | _];
    [discriminate |].
  rewrite !py_div_Ok by lra. simpl exc_bind.
  eexists. split; [reflexivity |]. simpl.
  assert (HrT : 0.2 / (1 + 1) - (0.2 / (1 + 1) - 1 / 1 * (3 / (1 - 0.5)) * (0.5 - 0.5)) = 0)
    by lra.
  assert (HrW : -0.1 - -0.1 = 0) by lra.
  rewrite HrT, HrW. unfold ok_flag. rewrite Rabs_R0.
  destruct (decide (0 <= 1e-9)); [| lra].
  destruct (decide (0 <= 1e-12)); [| lra].
  repeat split; lra.
Qed.


Lemma gamma_secant_returns (om_minus om_plus eps p : R) (face : string) :
  ~ Rabs (om_plus - om_minus) < 1e-15 ->
  returns (gamma_secant om_minus om_plus eps p face).
Proof.
  intros Hwide. unfold gamma_secant.
  destruct (decide (Rabs (om_plus - om_minus) < 1e-15)); [contradiction |].
  destruct (phi_returns om_minus eps p face) as [a ->].
  destruct (phi_returns om_plus eps p face) as [b ->]. simpl.
  rewrite py_div_Ok; [eexists; reflexivity |].
  intros Hz. apply Hwide. rewrite Hz, Rabs_R0. lra.
Qed.

Lemma transport_update_U_returns (U_n om_n om_np1 alpha eps p : R) (face : string) :
  returns (gamma_secant om_n om_np1 eps p face) -> alpha <> 0 ->
  returns (transport_update_U U_n om_n om_np1 alpha eps p face).
Proof.
  intros [Gam HG] Ha. unfold transport_update_U. rewrite HG. simpl.
  rewrite py_div_Ok by assumption. simpl. eexists. reflexivity.
Qed.

(** Scenario C of the specification, evaluated: the faces differ, the
    default pivot lies between the two drifts, and the step is validated. *)
Lemma scenario_C_step (float_of_str : string -> option R)
    (str_of_float : R -> string) :
  exists r,
    validate_step float_of_str str_of_float row_C_n row_C_np1
      1 1e-8 3 1e-9 1e-12 0.99 = Ok r
    /\ omega_n r = 0.95 /\ omega_np1 r = 0.995
    /\ face_n r = "normal"%string /\ face_np1 r = "exact"%string.
Proof.
  unfold row_C_n, row_C_np1. rewrite validate_step_audit_rows.
  rewrite !py_div_Ok by lra. simpl exc_bind. cbv zeta.
  rewrite choose_face_below_pivot by lra.
  assert (Hex : choose_face 0.995 false 1e-8 0.99 = "exact"%string).
  { apply choose_face_exact. right. lra. }
  rewrite Hex. unfold predict_U.
  destruct (decide ("normal"%string <> "exact"%string)) as [_ | Heq];
    [| exfalso; apply Heq; discriminate].
  destruct (decide (~ (Rmin 0.95 0.995 <= 0.99 /\ 0.99 <= Rmax 0.95 0.995)))
    as [Hout | _].
  { exfalso. apply Hout. rcases. }
  destruct (transport_update_U_returns (0.2 / (1 + 1)) 0.95 0.99 1 1e-8 3 "normal")
    as [U_mid HU_mid]; [apply gamma_secant_returns; rcases | lra |].
  destruct (transport_update_U_returns U_mid 0.99 0.995 1 1e-8 3 "exact")
    as [U_p HU_p]; [apply gamma_secant_returns; rcases | lra |].
  rewrite HU_mid. simpl exc_bind. rewrite HU_p. simpl exc_bind.
  eexists. split; [reflexivity |]. simpl. repeat split; reflexivity.
Qed.

(** Scenario B with the guard of the first row engaged, followed by a row
    at omega = 0.95: the step is validated. *)
Lemma guarded_step (float_of_str : string -> option R)
    (str_of_float : R -> string) :
  exists r,
    validate_step float_of_str str_of_float row_B_guarded row_C_n
      1 1e-8 3 1e-9 1e-12 0.99 = Ok r
    /\ omega_n r = 0.5 /\ omega_np1 r = 0.95.
Proof.
  assert (Hreads : row_float float_of_str row_B_guarded "omega" = Ok 0.5
                   /\ row_float float_of_str row_B_guarded "C" = Ok 0.2
                   /\ row_float float_of_str row_B_guarded "tau_R" = Ok 1
                   /\ row_kappa float_of_str row_B_guarded = Ok (-0.1)).
  { repeat split; reflexivity. }
  destruct Hreads as (Hom & HC & Htau & Hk).
  unfold validate_step. rewrite Hom, HC, Htau, Hk. unfold row_C_n.
  rewrite audit_row_omega, audit_row_C, audit_row_tau_R, audit_row_kappa.
  cbn [exc_bind]. rewrite !py_div_Ok by lra. cbn [exc_bind]. cbv zeta.
  destruct (transport_update_U_returns (0.2 / (1 + 1)) 0.5 0.95 1 1e-8 3
              (choose_face 0.5 (row_guard str_of_float row_B_guarded) 1e-8 0.99))
    as [U_p HU_p]; [apply gamma_secant_returns; rcases | lra |].
  assert (Hpred : predict_U (0.2 / (1 + 1)) 0.5 0.95 1 1e-8 3 0.99
                    (choose_face 0.5 (row_guard str_of_float row_B_guarded)
                       1e-8 0.99)
                    (choose_face 0.95
                       (row_guard str_of_float (audit_row 0.95 0.2 1 (-0.1)))
                       1e-8 0.99)
                  = Ok U_p).
  { unfold predict_U.
    destruct (decide (~ (Rmin 0.5 0.95 <= 0.99 /\ 0.99 <= Rmax 0.5 0.95)))
      as [_ | Hin]; [| exfalso; apply Hin; rcases].
    case_decide; exact HU_p. }
  rewrite Hpred. simpl exc_bind.
  eexists. split; [reflexivity |]. simpl. split; reflexivity.
Qed.

Lemma choose_face_and_guard_witness :
  row_B !! "guard_on"%string = None
  /\ choose_face 0.5 (row_guard str_of_float_opaque row_B) 1e-8 0.99 = "normal"%string
  /\ row_guard str_of_float_opaque row_B_guarded = true
  /\ choose_face 0.5 (row_guard str_of_float_opaque row_B_guarded) 1e-8 0.99
     = "exact"%string
  /\ exists r,
      validate_step float_of_str_none str_of_float_opaque row_B_guarded row_C_n
        1 1e-8 3 1e-9 1e-12 0.99 = Ok r
      /\ face_n r = "exact"%string /\ face_np1 r = "normal"%string.
Proof.
  destruct (choose_face_and_guard float_of_str_none str_of_float_opaque
              0.5 1e-8 0.99 (row_guard str_of_float_opaque row_B_guarded)
              row_B_guarded row_C_n)
    as (Hexact & _ & Hstr & _ & _ & _ & _ & Hfaces).
  destruct (choose_face_and_guard float_of_str_none str_of_float_opaque
              0.95 1e-8 0.99 (row_guard str_of_float_opaque row_C_n)
              row_B row_B)
    as (_ & Hnormal & _ & _ & _ & Hmissing & Hscenario & _).
  assert (Hguard : row_guard str_of_float_opaque row_B_guarded = true).
  { apply (Hstr " true "%string); [reflexivity |].
    exists " "%string, "true"%string, " "%string.
    split; [reflexivity |].
    split; [apply all_whitespace_cons; split;
            [reflexivity | apply all_whitespace_nil] |].
    split; [apply all_whitespace_cons; split;
            [reflexivity | apply all_whitespace_nil] |].
    right. left. reflexivity. }
  split; [reflexivity |].
  split; [apply Hscenario; reflexivity |].
  split; [exact Hguard |].
  split; [apply Hexact; left; exact Hguard |].
  destruct (guarded_step float_of_str_none str_of_float_opaque)
    as (r & Hr & Hom & Hom').
  exists r. split; [exact Hr |].
  destruct (Hfaces 1 3 1e-9 1e-12 r Hr) as (Hfn & Hfnp1).
  rewrite Hfn, Hfnp1, Hom, Hom'. split.
  - apply Hexact. left. exact Hguard.
  - apply Hnormal. intros [Hg | Hge]; [| lra].
    unfold row_C_n in Hg.
    rewrite (audit_row_guard str_of_float_opaque) in Hg. discriminate.
Defined.

Lemma validate_step_prediction_witness :
  exists r,
    validate_step float_of_str_none str_of_float_opaque row_C_n row_C_np1
      1 1e-8 3 1e-9 1e-12 0.99 = Ok r
    /\ face_n r <> face_np1 r
    /\ Rmin (omega_n r) (omega_np1 r) <= 0.99 <= Rmax (omega_n r) (omega_np1 r)
    /\ exists U_mid,
        transport_update_U (U_n r) (omega_n r) 0.99 1 1e-8 3 (face_n r) = Ok U_mid
        /\ transport_update_U U_mid 0.99 (omega_np1 r) 1 1e-8 3 (face_np1 r)
           = Ok (U_pred r).
Proof.
  destruct (scenario_C_step float_of_str_none str_of_float_opaque)
    as (r & Hr & Hon & Honp1 & Hfn & Hfnp1).
  assert (Hne : face_n r <> face_np1 r).
  { rewrite Hfn, Hfnp1. discriminate. }
  assert (Hin : Rmin (omega_n r) (omega_np1 r) <= 0.99 <= Rmax (omega_n r) (omega_np1 r)).
  { rewrite Hon, Honp1. rcases. }
  exists r. split; [exact Hr |]. split; [exact Hne |]. split; [exact Hin |].
  apply (validate_step_prediction float_of_str_none str_of_float_opaque
           row_C_n row_C_np1 1 1e-8 3 1e-9 1e-12 0.99 r Hr); assumption.
Defined.





(** ** Logarithms of the pipeline *)

Lemma omega_loop_pre_clip (y_prev y_curr : R) (tl : list R) :
  omega_loop "pre_clip" y_prev (y_curr :: tl)
  = Rabs (y_curr - y_prev) :: omega_loop "pre_clip" y_curr tl.
Proof. reflexivity. Qed.

Lemma ln_le (x y : R) : 0 < x -> x <= y -> ln x <= ln y.
Proof.
  intros Hx [Hlt | ->]; [| lra].
  left. apply ln_increasing; assumption.
Qed.

Lemma exp_le_1 (q : R) : q <= 0 -> 0 < exp q <= 1.
Proof.
  intros Hq. split; [apply exp_pos |].
  destruct Hq as [Hlt | ->]; [| rewrite exp_0; lra].
  left. rewrite <- exp_0. apply exp_increasing, Hlt.
Qed.

Lemma compute_kappa_clamped (IC : R) :
  compute_kappa IC = Ok (ln (Rmax IC LOG_FLOOR)).
Proof. apply math_log_clamped. Qed.

Lemma entropy_term_Ok (w eps : R) :
  w < 1 + eps ->
  (l <- math_log (1 - w + eps) ;; Ok (- l)) = Ok (- ln (1 - w + eps)).
Proof. intros Hw. rewrite math_log_Ok by lra. reflexivity. Qed.

Lemma entropy_term_Raise (w eps : R) :
  1 + eps <= w ->
  (l <- math_log (1 - w + eps) ;; Ok (- l)) = Raise ValueError.
Proof. intros Hw. rewrite math_log_Raise by lra. reflexivity. Qed.

Lemma entropy_term_inv (w eps s : R) :
  (l <- math_log (1 - w + eps) ;; Ok (- l)) = Ok s ->
  w < 1 + eps /\ s = - ln (1 - w + eps).
Proof.
  intros H. destruct (Rlt_le_dec w (1 + eps)) as [Hlt | Hge].
  - rewrite entropy_term_Ok in H by assumption. inversion H. auto.
  - rewrite entropy_term_Raise in H by assumption. discriminate.
Qed.

Lemma compute_entropy_Ok (ws : list R) (eps : R) :
  Forall (fun w => w < 1 + eps) ws ->
  compute_entropy ws eps = Ok (map (fun w => - ln (1 - w + eps)) ws).
Proof.
  unfold compute_entropy. induction 1 as [| w ws Hw _ IH]; simpl.
  - reflexivity.
  - rewrite entropy_term_Ok by assumption. simpl. rewrite IH. reflexivity.
Qed.

Lemma compute_entropy_Raise (ws : list R) (eps : R) :
  Exists (fun w => 1 + eps <= w) ws ->
  compute_entropy ws eps = Raise ValueError.
Proof.
  unfold compute_entropy. induction ws as [| w ws IH]; intros Hex.
  - inversion Hex.
  - simpl. destruct (Rlt_le_dec w (1 + eps)) as [Hlt | Hge].
    + rewrite entropy_term_Ok by assumption. simpl.
      rewrite IH; [reflexivity |].
      inversion Hex; subst; [lra | assumption].
    + rewrite entropy_term_Raise by assumption. reflexivity.
Qed.




(** ** The invariant pipeline, list by list *)

Lemma clip01_range (v : R) : 0 <= clip01 v <= 1.
Proof. unfold clip01. rcases. Qed.

Lemma omega_loop_nonneg (policy : string) (y_prev : R) (rest : list R) :
  Forall (fun w => 0 <= w) (omega_loop policy y_prev rest).
Proof.
  revert y_prev. induction rest as [| y tl IH]; intros y_prev; simpl.
  - constructor.
  - constructor; [| apply IH].
    destruct (decide (policy = "pre_clip"%string)); apply Rabs_pos.
Qed.

Lemma compute_omega_nonneg (y_series : list R) (policy : string) :
  Forall (fun w => 0 <= w) (compute_omega y_series policy).
Proof.
  unfold compute_omega. constructor; [lra |].
  destruct y_series; [constructor | apply omega_loop_nonneg].
Qed.

Lemma omega_loop_length (policy : string) (y_prev : R) (rest : list R) :
  length (omega_loop policy y_prev rest) = length rest.
Proof.
  revert y_prev. induction rest as [| y tl IH]; intros y_prev; simpl;
    [reflexivity | f_equal; apply IH].
Qed.

Lemma compute_omega_length (y_series : list R) (policy : string) :
  y_series <> [] -> length (compute_omega y_series policy) = length y_series.
Proof.
  destruct y_series as [| y0 tl]; [congruence |]. intros _.
  simpl. f_equal. apply omega_loop_length.
Qed.

Lemma fold_left_Rplus_nonneg (xs : list R) (acc : R) :
  0 <= acc -> Forall (fun x => 0 <= x) xs -> 0 <= fold_left Rplus xs acc.
Proof.
  revert acc. induction xs as [| x rest IH]; intros acc Hacc Hall; simpl.
  - exact Hacc.
  - inversion Hall; subst. apply IH; [lra | assumption].
Qed.

Lemma curvature_at_nonneg (xhat : list R) (K i : nat) (c : R) :
  curvature_at xhat K i = Ok c -> 0 <= c.
Proof.
  unfold curvature_at. destruct (decide (i < K)%nat) as [_ | _].
  - intros H. inversion H. lra.
  - intros H. apply exc_bind_Ok in H as (diffs & Hdiffs & Hdiv).
    unfold py_div in Hdiv. destruct (decide (INR K = 0)) as [| HK];
      [discriminate |].
    inversion Hdiv; subst c.
    assert (Hsum : 0 <= py_sum diffs).
    { apply fold_left_Rplus_nonneg; [lra |].
      apply Forall_lookup_2. intros j d Hj.
      destruct (exc_map_Ok_lookup _ _ _ _ _ Hdiffs Hj) as (k & _ & Hk).
      apply exc_bind_Ok in Hk as (x_i & _ & Hk).
      apply exc_bind_Ok in Hk as (x_k & _ & Hk).
      inversion Hk. apply pow2_ge_0. }
    pose proof (pos_INR K) as HKpos.
    apply Rmult_le_pos; [exact Hsum |].
    left. apply Rinv_0_lt_compat. lra.
Qed.

Lemma compute_curvature_nonneg (xhat : list R) (K : nat) (C : list R) :
  compute_curvature xhat K = Ok C -> Forall (fun c => 0 <= c) C.
Proof.
  intros H. apply Forall_lookup_2. intros i c Hi.
  destruct (exc_map_Ok_lookup _ _ _ _ _ H Hi) as (j & _ & Hj).
  eapply curvature_at_nonneg, Hj.
Qed.

Lemma in_py_range (a b dt : Z) : In dt (py_range a b) <-> (a <= dt < b)%Z.
Proof.
  unfold py_range. rewrite in_map_iff. split.
  - intros (k & <- & Hk). apply in_seq in Hk. lia.
  - intros Hdt. exists (Z.to_nat (dt - a)). split; [lia |].
    apply in_seq. lia.
Qed.

Lemma tau_ret_loop_found (eps_ret target : R) (xs : list R) (t L : Z)
    (dts : list Z) (seen dt : Z) :
  tau_ret_loop eps_ret target xs t L dts seen = Ok (Some dt) -> In dt dts.
Proof.
  revert seen. induction dts as [| d rest IH]; intros seen H; simpl in H.
  - discriminate.
  - apply exc_bind_Ok in H as (x & _ & H).
    destruct (decide (Rabs (target - x) < eps_ret)).
    + cbv zeta in H. destruct (decide (seen + 1 >= L)%Z).
      * inversion H. left. reflexivity.
      * right. eapply IH, H.
    + right. eapply IH, H.
Qed.

Lemma compute_tau_ret_ge_1 (eps_ret : R) (xs : list R) (t tau : Z) :
  compute_tau_ret eps_ret xs t MAX_H DEBOUNCE_L = Ok tau -> (1 <= tau)%Z.
Proof.
  unfold compute_tau_ret. destruct (decide (t = 0%Z)).
  - intros H. inversion H. lia.
  - intros H. apply exc_bind_Ok in H as (target & _ & H).
    apply exc_bind_Ok in H as ([dt |] & Hloop & H); inversion H; subst.
    + apply tau_ret_loop_found, in_py_range in Hloop. lia.
    + unfold MAX_H. lia.
Qed.

Lemma tau_R_loop_ge_1 (xhat : list R) (idxs : list nat) (res_sigma : R)
    (taus : list Z) :
  tau_R_loop xhat idxs res_sigma = Ok taus -> Forall (fun tau => (1 <= tau)%Z) taus.
Proof.
  revert res_sigma taus.
  induction idxs as [| i rest IH]; intros res_sigma taus H; simpl in H.
  - inversion H. constructor.
  - destruct (decide (i = 0%nat)).
    + apply exc_bind_Ok in H as (tl & Htl & H). inversion H; subst.
      constructor; [lia | eapply IH, Htl].
    + apply exc_bind_Ok in H as (x_i & _ & H).
      apply exc_bind_Ok in H as (x_p & _ & H). cbv zeta in H.
      apply exc_bind_Ok in H as (tau_r & Htau & H).
      apply exc_bind_Ok in H as (tl & Htl & H). inversion H; subst.
      constructor; [eapply compute_tau_ret_ge_1, Htau | eapply IH, Htl].
Qed.

Lemma invariant_record_at_inv (x_raw y xhat omega F S C : list R)
    (tau_R : list Z) (alpha : R) (i : nat) (r : InvariantRecord) :
  invariant_record_at x_raw y xhat omega F S C tau_R alpha i = Ok r ->
  inv_t r = i
  /\ x_raw !! i = Some (inv_x_raw r)
  /\ y !! i = Some (inv_y r)
  /\ xhat !! i = Some (inv_xhat r)
  /\ omega !! i = Some (inv_omega r)
  /\ F !! i = Some (inv_F r)
  /\ S !! i = Some (inv_S r)
  /\ C !! i = Some (inv_C r)
  /\ tau_R !! i = Some (inv_tau_R r)
  /\ compute_integrity_coefficient (inv_F r) (inv_S r) (inv_omega r) (inv_C r)
       (inv_tau_R r) alpha = Ok (inv_IC r)
  /\ compute_kappa (inv_IC r) = Ok (inv_kappa r)
  /\ compute_U (inv_C r) (inv_tau_R r) = Ok (inv_U r)
  /\ inv_regime r
     = classify_regime (inv_omega r) (inv_F r) (inv_S r) (inv_C r) (inv_IC r).
Proof.
  unfold invariant_record_at. cbv zeta. intros H.
  apply exc_bind_Ok in H as (F_i & HF & H).
  apply exc_bind_Ok in H as (S_i & HS & H).
  apply exc_bind_Ok in H as (omega_i & Hom & H).
  apply exc_bind_Ok in H as (C_i & HC & H).
  apply exc_bind_Ok in H as (tau_i & Htau & H).
  apply exc_bind_Ok in H as (IC & HIC & H).
  apply exc_bind_Ok in H as (kappa & Hk & H).
  apply exc_bind_Ok in H as (U & HU & H).
  apply exc_bind_Ok in H as (x_i & Hx & H).
  apply exc_bind_Ok in H as (y_i & Hy & H).
  apply exc_bind_Ok in H as (xhat_i & Hxh & H).
  inversion H; subst r; clear H. simpl.
  apply py_getitem_nat_Ok in HF, HS, Hom, HC, Htau, Hx, Hy, Hxh.
  repeat split; assumption.
Qed.

Lemma compute_invariants_inv (x_raw : list R) (a b eps : R) (K : nat)
    (alpha : R) (recs : list InvariantRecord) :
  compute_invariants x_raw a b eps K alpha = Ok recs ->
  let y := map (fun x => (x - a) / b) x_raw in
  let xhat := map clip01 y in
  let omega := compute_omega y "pre_clip" in
  0 < b
  /\ exists S C taus,
      compute_entropy omega eps = Ok S
      /\ compute_curvature xhat K = Ok C
      /\ tau_R_loop xhat (seq 0 (length xhat)) 0 = Ok taus
      /\ exc_map (invariant_record_at x_raw y xhat omega
                    (compute_fidelity omega) S C taus alpha)
           (seq 0 (length x_raw)) = Ok recs.
Proof.
  unfold compute_invariants. destruct (decide (b <= 0)) as [| Hb]; [discriminate |].
  cbv zeta. intros H.
  apply exc_bind_Ok in H as (S & HS & H).
  apply exc_bind_Ok in H as (C & HC & H).
  apply exc_bind_Ok in H as (taus & Htau & H).
  split; [lra |]. exists S, C, taus. auto.
Qed.

(** What every record of a run is made of. *)
Lemma record_facts (x_raw : list R) (a b eps : R) (K : nat) (alpha : R)
    (recs : list InvariantRecord) (i : nat) (r : InvariantRecord) :
  compute_invariants x_raw a b eps K alpha = Ok recs ->
  recs !! i = Some r ->
  let y := map (fun x => (x - a) / b) x_raw in
  let q := - alpha * inv_C r / (1 + IZR (inv_tau_R r)) in
  compute_omega y "pre_clip" !! i = Some (inv_omega r)
  /\ (exists C, compute_curvature (map clip01 y) K = Ok C
                /\ C !! i = Some (inv_C r))
  /\ (exists taus, tau_R_loop (map clip01 y) (seq 0 (length (map clip01 y))) 0
                   = Ok taus
                   /\ taus !! i = Some (inv_tau_R r))
  /\ inv_y r = (inv_x_raw r - a) / b
  /\ inv_xhat r = clip01 (inv_y r)
  /\ 0 <= inv_omega r < 1 + eps
  /\ inv_F r = 1 - inv_omega r
  /\ inv_S r = - ln (1 - inv_omega r + eps)
  /\ 0 <= inv_C r
  /\ (1 <= inv_tau_R r)%Z
  /\ inv_IC r
     = (1 - inv_omega r) * (1 - inv_omega r + eps) * (1 - inv_omega r) * exp q
  /\ inv_kappa r = ln (Rmax (inv_IC r) LOG_FLOOR).
Proof.
  intros Hrun Hr. cbv zeta.
  apply compute_invariants_inv in Hrun as (Hb & S & C & taus & HS & HC & Htau & Hrecs).
  destruct (exc_map_Ok_lookup _ _ _ _ _ Hrecs Hr) as (j & Hj & Hat).
  apply lookup_seq in Hj as [Hj _]. simpl in Hj. subst j.
  apply invariant_record_at_inv in Hat
    as (_ & Hx & Hy & Hxh & Hom & HF & HSi & HCi & Hti & HIC & Hk & _ & _).
  unfold compute_fidelity in HF.
  rewrite list_lookup_fmap, Hom in HF. simpl in HF. inversion HF as [HFeq].
  destruct (exc_map_Ok_lookup _ _ _ _ _ HS HSi) as (w & Hw & HSw).
  rewrite Hom in Hw. inversion Hw; subst w.
  apply entropy_term_inv in HSw as (Hlt & HSeq).
  rewrite list_lookup_fmap, Hy in Hxh. simpl in Hxh. inversion Hxh as [Hxheq].
  rewrite list_lookup_fmap, Hx in Hy. simpl in Hy. inversion Hy as [Hyeq].
  pose proof (compute_omega_nonneg (map (fun x => (x - a) / b) x_raw) "pre_clip")
    as Hnn.
  pose proof (Forall_lookup_1 _ _ _ _ Hnn Hom) as Hom0. simpl in Hom0.
  pose proof (Forall_lookup_1 _ _ _ _ (compute_curvature_nonneg _ _ _ HC) HCi)
    as HC0. simpl in HC0.
  pose proof (Forall_lookup_1 _ _ _ _ (tau_R_loop_ge_1 _ _ _ _ Htau) Hti)
    as Ht1. simpl in Ht1.
  assert (Hden : 1 + IZR (inv_tau_R r) <> 0).
  { apply IZR_le in Ht1. lra. }
  unfold compute_integrity_coefficient in HIC.
  rewrite py_div_Ok in HIC by exact Hden. simpl in HIC. inversion HIC as [HICeq].
  rewrite compute_kappa_clamped in Hk. inversion Hk as [Hkeq].
  split; [exact Hom |]. split; [eauto |]. split; [eauto |].
  split; [reflexivity |]. split; [reflexivity |].
  split; [lra |]. split; [reflexivity |]. split; [exact HSeq |].
  split; [exact HC0 |]. split; [exact Ht1 |]. split; [| rewrite HICeq; reflexivity].
  rewrite <- HFeq, HSeq, Ropp_involutive, exp_ln by lra.
  reflexivity.
Qed.

(** ** Totality of the pipeline *)

Lemma lookup_map_Some {A B : Type} (f : A -> B) (xs : list A) (i : nat) (x : A) :
  xs !! i = Some x -> map f xs !! i = Some (f x).
Proof.
  revert i. induction xs as [| x0 rest IH]; intros [| i] H; simpl in *;
    try discriminate.
  - inversion H. reflexivity.
  - apply IH, H.
Qed.

Lemma py_getitem_returns {A : Type} (xs : list A) (i : Z) :
  (- Z.of_nat (length xs) <= i < Z.of_nat (length xs))%Z ->
  returns (py_getitem xs i).
Proof.
  intros Hi. unfold py_getitem. cbv zeta.
  set (j := if decide (i < 0)%Z then (i + Z.of_nat (length xs))%Z else i).
  assert (Hj : (0 <= j < Z.of_nat (length xs))%Z).
  { subst j. destruct (decide (i < 0)%Z); lia. }
  destruct (decide (0 <= j < Z.of_nat (length xs))%Z); [| contradiction].
  destruct (lookup_lt_is_Some_2 xs (Z.to_nat j)) as [x Hx]; [lia |].
  rewrite Hx. eexists. reflexivity.
Qed.

Lemma tau_ret_loop_returns (eps_ret target : R) (xs : list R) (t L : Z)
    (dts : list Z) (seen : Z) :
  (forall dt, In dt dts ->
     (- Z.of_nat (length xs) <= t - dt < Z.of_nat (length xs))%Z) ->
  returns (tau_ret_loop eps_ret target xs t L dts seen).
Proof.
  revert seen. induction dts as [| dt rest IH]; intros seen Hall; simpl.
  - eexists. reflexivity.
  - destruct (py_getitem_returns xs (t - dt)) as [x Hx];
      [apply Hall; left; reflexivity |].
    rewrite Hx. simpl.
    assert (Hrest : forall d, In d rest ->
              (- Z.of_nat (length xs) <= t - d < Z.of_nat (length xs))%Z)
      by (intros; apply Hall; right; assumption).
    destruct (decide (Rabs (target - x) < eps_ret)); [| apply IH, Hrest].
    destruct (decide (seen + 1 >= L)%Z); [eexists; reflexivity | apply IH, Hrest].
Qed.

Lemma compute_tau_ret_returns (eps_ret : R) (xs : list R) (t max_h L : Z) :
  (0 <= t < Z.of_nat (length xs))%Z ->
  returns (compute_tau_ret eps_ret xs t max_h L).
Proof.
  intros Ht. unfold compute_tau_ret.
  destruct (decide (t = 0%Z)); [eexists; reflexivity |].
  destruct (py_getitem_returns xs t) as [target Htarget]; [lia |].
  rewrite Htarget. simpl.
  destruct (tau_ret_loop_returns eps_ret target xs t L
              (py_range 1 (Z.min (t + 1) max_h + 1)) 0) as [found Hfound].
  { intros dt Hdt. apply in_py_range in Hdt. lia. }
  rewrite Hfound. simpl. eexists. reflexivity.
Qed.

Lemma tau_R_loop_returns (xhat : list R) (idxs : list nat) (res_sigma : R) :
  (forall i, In i idxs -> (i < length xhat)%nat) ->
  exists taus, tau_R_loop xhat idxs res_sigma = Ok taus
               /\ length taus = length idxs.
Proof.
  revert res_sigma. induction idxs as [| i rest IH]; intros res_sigma Hall; simpl.
  - exists []. split; reflexivity.
  - assert (Hi : (i < length xhat)%nat) by (apply Hall; left; reflexivity).
    assert (Hrest : forall j, In j rest -> (j < length xhat)%nat)
      by (intros; apply Hall; right; assumption).
    destruct (decide (i = 0%nat)).
    + destruct (IH 0 Hrest) as (tl & -> & Hlen). simpl.
      eexists. split; [reflexivity |]. simpl. f_equal. exact Hlen.
    + destruct (py_getitem_returns xhat (Z.of_nat i)) as [x_i ->]; [lia |].
      destruct (py_getitem_returns xhat (Z.of_nat i - 1)) as [x_p ->]; [lia |].
      simpl.
      destruct (compute_tau_ret_returns
                  (eps_ret_of (EMA_LAMBDA * Rabs (x_i - x_p)
                               + (1 - EMA_LAMBDA) * res_sigma))
                  xhat (Z.of_nat i) MAX_H DEBOUNCE_L) as [tau_r ->]; [lia |].
      simpl.
      destruct (IH (EMA_LAMBDA * Rabs (x_i - x_p) + (1 - EMA_LAMBDA) * res_sigma)
                  Hrest) as (tl & -> & Hlen).
      simpl. eexists. split; [reflexivity |]. simpl. f_equal. exact Hlen.
Qed.

Lemma curvature_at_returns (xhat : list R) (K i : nat) :
  (0 < K)%nat -> (i < length xhat)%nat -> returns (curvature_at xhat K i).
Proof.
  intros HK Hi. unfold curvature_at.
  destruct (decide (i < K)%nat) as [| Hge]; [eexists; reflexivity |].
  match goal with
  | |- returns (exc_bind (exc_map ?f ?l) _) =>
      destruct (exc_map_returns f l) as [diffs Hdiffs]
  end.
  { intros k Hk. apply in_seq in Hk.
    destruct (py_getitem_returns xhat (Z.of_nat i)) as [x_i ->]; [lia |].
    destruct (py_getitem_returns xhat (Z.of_nat i - Z.of_nat k)) as [x_k ->];
      [lia |].
    simpl. eexists. reflexivity. }
  rewrite Hdiffs. simpl. rewrite py_div_Ok; [eexists; reflexivity |].
  apply not_0_INR. lia.
Qed.

Lemma compute_curvature_returns (xhat : list R) (K : nat) :
  (0 < K)%nat -> exists C, compute_curvature xhat K = Ok C
                           /\ length C = length xhat.
Proof.
  intros HK. unfold compute_curvature.
  destruct (exc_map_returns (curvature_at xhat K) (seq 0 (length xhat)))
    as [C HC].
  { intros i Hi. apply in_seq in Hi. apply curvature_at_returns; [exact HK | lia]. }
  exists C. split; [exact HC |].
  apply exc_map_Ok_length in HC. rewrite length_seq in HC. exact HC.
Qed.

(** With a positive scale, a positive window and every drift below
    1 + eps, [compute_invariants] returns one record per input sample. *)
Lemma compute_invariants_returns (x_raw : list R) (a b eps : R) (K : nat)
    (alpha : R) :
  0 < b -> (0 < K)%nat ->
  Forall (fun w => w < 1 + eps)
    (compute_omega (map (fun x => (x - a) / b) x_raw) "pre_clip") ->
  exists recs, compute_invariants x_raw a b eps K alpha = Ok recs
               /\ length recs = length x_raw.
Proof.
  intros Hb HK Hom. unfold compute_invariants.
  destruct (decide (b <= 0)); [lra |]. cbv zeta.
  set (y := map (fun x => (x - a) / b) x_raw) in *.
  set (xhat := map clip01 y).
  set (omega := compute_omega y "pre_clip") in *.
  rewrite (compute_entropy_Ok omega eps Hom). cbn [exc_bind].
  destruct (compute_curvature_returns xhat K HK) as (C & -> & HClen). cbn [exc_bind].
  destruct (tau_R_loop_returns xhat (seq 0 (length xhat)) 0) as (taus & Htaus & Htlen).
  { intros i Hi. apply in_seq in Hi. lia. }
  rewrite Htaus. cbn [exc_bind].
  pose proof (tau_R_loop_ge_1 _ _ _ _ Htaus) as Hge1.
  rewrite length_seq in Htlen.
  assert (Hylen : length y = length x_raw) by (subst y; apply length_map).
  assert (Hxlen : length xhat = length x_raw)
    by (subst xhat; rewrite length_map; exact Hylen).
  match goal with
  | |- exists recs, exc_map ?f ?l = Ok recs /\ _ =>
      destruct (exc_map_returns f l) as [recs Hrecs]
  end.
  - intros i Hi. apply in_seq in Hi.
    assert (Hne : y <> []) by (intros Hnil; rewrite Hnil in Hylen; simpl in Hylen; lia).
    pose proof (compute_omega_length y "pre_clip" Hne) as Holen. fold omega in Holen.
    unfold invariant_record_at. cbv zeta.
    destruct (lookup_lt_is_Some_2 omega i) as [w Hw]; [lia |].
    destruct (lookup_lt_is_Some_2 C i) as [c Hc]; [lia |].
    destruct (lookup_lt_is_Some_2 taus i) as [tau Htau]; [lia |].
    destruct (lookup_lt_is_Some_2 x_raw i) as [x Hx]; [lia |].
    pose proof (lookup_map_Some (fun w => 1 - w) omega i w Hw) as HF.
    pose proof (lookup_map_Some (fun w => - ln (1 - w + eps)) omega i w Hw) as HS.
    pose proof (lookup_map_Some (fun x => (x - a) / b) x_raw i x Hx) as Hy.
    fold y in Hy.
    pose proof (lookup_map_Some clip01 y i _ Hy) as Hxh. fold xhat in Hxh.
    apply py_getitem_nat_Ok in Hw, Hc, Htau, Hx, HF, HS, Hy, Hxh.
    unfold compute_fidelity.
    rewrite HF. cbn [exc_bind]. rewrite HS. cbn [exc_bind]. rewrite Hw. cbn [exc_bind].
    rewrite Hc. cbn [exc_bind]. rewrite Htau. cbn [exc_bind].
    apply py_getitem_nat_Ok in Htau.
    pose proof (Forall_lookup_1 _ _ _ _ Hge1 Htau) as Ht1. cbn beta in Ht1.
    assert (Hden : 1 + IZR tau <> 0) by (apply IZR_le in Ht1; lra).
    unfold compute_integrity_coefficient, compute_U.
    rewrite !py_div_Ok by exact Hden. cbn [exc_bind].
    rewrite compute_kappa_clamped. cbn [exc_bind].
    rewrite Hx. cbn [exc_bind]. rewrite Hy. cbn [exc_bind]. rewrite Hxh. cbn [exc_bind].
    eexists. reflexivity.
  - exists recs. split; [exact Hrecs |].
    apply exc_map_Ok_length in Hrecs. rewrite length_seq in Hrecs. exact Hrecs.
Qed.

(** ** Ranges of the invariants *)

Lemma IC_product_bounds (w eps e : R) :
  0 < eps <= 1 -> 0 <= w < 1 + eps -> 0 < e <= 1 ->
  let IC := (1 - w) * (1 - w + eps) * (1 - w) * e in
  0 <= IC <= 1 + eps
  /\ (IC = 0 <-> w = 1)
  /\ (eps <= w -> IC <= 1).
Proof.
  intros Heps Hw He. cbv zeta.
  assert (Hu2 : 0 <= (1 - w) * (1 - w) <= 1).
  { pose proof (Rle_0_sqr (1 - w)) as Hsq. unfold Rsqr in Hsq.
    assert (Hprod : 0 <= (1 - (1 - w)) * (1 + (1 - w)))
      by (apply Rmult_le_pos; lra).
    split; [exact Hsq |]. nra. }
  assert (Hve : 0 < (1 - w + eps) * e) by (apply Rmult_lt_0_compat; lra).
  assert (Hve1 : (1 - w + eps) * e <= (1 + eps) * 1)
    by (apply Rmult_le_compat; lra).
  replace ((1 - w) * (1 - w + eps) * (1 - w) * e)
    with (((1 - w) * (1 - w)) * ((1 - w + eps) * e)) by ring.
  split; [split |]; [| | split].
  - apply Rmult_le_pos; lra.
  - assert (H1 : (1 - w) * (1 - w) * ((1 - w + eps) * e) <= 1 * ((1 + eps) * 1))
      by (apply Rmult_le_compat; lra).
    lra.
  - split.
    + intros Hz. apply Rmult_integral in Hz as [Hz | Hz]; [| lra].
      apply Rmult_integral in Hz. lra.
    + intros ->. ring.
  - intros Hge.
    assert (Hve2 : (1 - w + eps) * e <= 1 * 1) by (apply Rmult_le_compat; lra).
    assert (H1 : (1 - w) * (1 - w) * ((1 - w + eps) * e) <= 1 * (1 * 1))
      by (apply Rmult_le_compat; lra).
    lra.
Qed.

(** C1, as the code has it: in every record of a run, with 0 < eps <= 1 and
    alpha >= 0 (so for the defaults), 0 <= omega, 0 <= xhat <= 1,
    0 <= IC <= 1 + eps and kappa <= ln(1 + eps); IC is 0 exactly when
    omega = 1; and IC <= 1 and kappa <= 0 hold whenever omega >= eps. *)
Theorem invariants_range (x_raw : list R) (a b eps : R) (K : nat) (alpha : R)
    (recs : list InvariantRecord) (r : InvariantRecord) :
  0 < eps <= 1 -> 0 <= alpha ->
  compute_invariants x_raw a b eps K alpha = Ok recs -> r ∈ recs ->
  0 < b
  /\ 0 <= inv_omega r
  /\ 0 <= inv_xhat r <= 1
  /\ 0 <= inv_IC r <= 1 + eps
  /\ inv_kappa r <= ln (1 + eps)
  /\ (inv_IC r = 0 <-> inv_omega r = 1)
  /\ (eps <= inv_omega r -> inv_IC r <= 1 /\ inv_kappa r <= 0).
Proof.
  intros Heps Halpha Hrun Hin.
  apply list_elem_of_lookup in Hin as [i Hi].
  pose proof (compute_invariants_inv _ _ _ _ _ _ _ Hrun) as [Hb _].
  pose proof (record_facts _ _ _ _ _ _ _ _ _ Hrun Hi) as Hfacts.
  cbv zeta in Hfacts.
  destruct Hfacts as (_ & _ & _ & _ & Hxh & Hom & _ & _ & HC & Htau & HIC & Hk).
  set (q := - alpha * inv_C r / (1 + IZR (inv_tau_R r))) in *.
  assert (Hq : q <= 0).
  { subst q. apply IZR_le in Htau.
    assert (Hinv : 0 < / (1 + IZR (inv_tau_R r)))
      by (apply Rinv_0_lt_compat; lra).
    unfold Rdiv. assert (Hnum : 0 <= alpha * inv_C r) by (apply Rmult_le_pos; lra).
    nra. }
  pose proof (exp_le_1 q Hq) as He.
  pose proof (IC_product_bounds (inv_omega r) eps (exp q) Heps Hom He) as Hb3.
  cbv zeta in Hb3. rewrite <- HIC in Hb3.
  destruct Hb3 as (Hrange & Hzero & Hone).
  assert (Hfloor : 0 < Rmax (inv_IC r) LOG_FLOOR) by apply Rmax_floor_pos.
  assert (Hfl1 : LOG_FLOOR <= 1) by (unfold LOG_FLOOR; lra).
  split; [exact Hb |]. split; [lra |].
  split; [rewrite Hxh; apply clip01_range |].
  split; [exact Hrange |]. split; [| split; [exact Hzero |]].
  - rewrite Hk. apply ln_le; [exact Hfloor |].
    apply Rmax_lub; lra.
  - intros Hge. specialize (Hone Hge). split; [exact Hone |].
    rewrite Hk, <- ln_1. apply ln_le; [exact Hfloor |].
    apply Rmax_lub; lra.
Qed.

Lemma first_record_IC (x_raw : list R) (a b eps : R) (K : nat) (alpha : R)
    (recs : list InvariantRecord) (r : InvariantRecord) :
  (0 < K)%nat ->
  compute_invariants x_raw a b eps K alpha = Ok recs -> recs !! 0%nat = Some r ->
  inv_omega r = 0 /\ inv_C r = 0 /\ inv_IC r = 1 + eps.
Proof.
  intros HK Hrun Hr.
  pose proof (record_facts _ _ _ _ _ _ _ _ _ Hrun Hr) as Hfacts.
  cbv zeta in Hfacts.
  destruct Hfacts as (Hom & (C & HC & HCi) & _ & _ & _ & _ & _ & _ & _ & _ & HIC & _).
  assert (Hom0 : inv_omega r = 0).
  { unfold compute_omega in Hom. simpl in Hom. inversion Hom. reflexivity. }
  assert (HC0 : inv_C r = 0).
  { destruct (exc_map_Ok_lookup _ _ _ _ _ HC HCi) as (j & Hj & Hat).
    apply lookup_seq in Hj as [Hj _]. simpl in Hj. subst j.
    unfold curvature_at in Hat.
    destruct (decide (0 < K)%nat); [| contradiction].
    inversion Hat. reflexivity. }
  split; [exact Hom0 |]. split; [exact HC0 |].
  rewrite HIC, Hom0, HC0.
  replace (- alpha * 0 / (1 + IZR (inv_tau_R r))) with 0
    by (unfold Rdiv; ring).
  rewrite exp_0. ring.
Qed.

Lemma compute_omega_pre_clip_cons (y0 : R) (tl : list R) :
  compute_omega (y0 :: tl) "pre_clip" = 0 :: omega_loop "pre_clip" y0 tl.
Proof. reflexivity. Qed.

(** A single sample, under the defaults: the run returns one record, whose
    integrity coefficient is 1 + eps. *)
Lemma run_single_sample :
  exists r,
    compute_invariants [0] 0 1 DEFAULT_EPS DEFAULT_K DEFAULT_ALPHA = Ok [r]
    /\ inv_omega r = 0
    /\ inv_IC r = 1 + DEFAULT_EPS
    /\ inv_kappa r = ln (1 + DEFAULT_EPS).
Proof.
  destruct (compute_invariants_returns [0] 0 1 DEFAULT_EPS DEFAULT_K DEFAULT_ALPHA)
    as (recs & Hrun & Hlen).
  - lra.
  - unfold DEFAULT_K. lia.
  - cbn [map]. rewrite compute_omega_pre_clip_cons. cbn [omega_loop].
    unfold DEFAULT_EPS. repeat constructor. lra.
  - destruct recs as [| r [| r' rest]]; simpl in Hlen; try discriminate.
    exists r. split; [exact Hrun |].
    destruct (first_record_IC [0] 0 1 DEFAULT_EPS DEFAULT_K DEFAULT_ALPHA [r] r)
      as (Hom & _ & HIC); [unfold DEFAULT_K; lia | exact Hrun | reflexivity |].
    split; [exact Hom |]. split; [exact HIC |].
    pose proof (record_facts _ _ _ _ _ _ _ 0%nat r Hrun eq_refl) as Hfacts.
    cbv zeta in Hfacts.
    destruct Hfacts as (_ & _ & _ & _ & _ & _ & _ & _ & _ & _ & _ & Hk).
    rewrite Hk, HIC. f_equal. apply Rmax_left.
    unfold DEFAULT_EPS, LOG_FLOOR. lra.
Qed.

(** A jump of exactly one normalised unit: the second record has omega = 1
    and an integrity coefficient of 0. *)
Lemma run_unit_jump :
  exists r0 r1,
    compute_invariants [0; 1] 0 1 DEFAULT_EPS DEFAULT_K DEFAULT_ALPHA = Ok [r0; r1]
    /\ inv_omega r1 = 1
    /\ inv_IC r1 = 0.
Proof.
  destruct (compute_invariants_returns [0; 1] 0 1 DEFAULT_EPS DEFAULT_K DEFAULT_ALPHA)
    as (recs & Hrun & Hlen).
  - lra.
  - unfold DEFAULT_K. lia.
  - cbn [map]. rewrite compute_omega_pre_clip_cons, omega_loop_pre_clip.
    cbn [omega_loop]. unfold DEFAULT_EPS. repeat constructor; rcases.
  - destruct recs as [| r0 [| r1 [| r2 rest]]]; simpl in Hlen; try discriminate.
    exists r0, r1. split; [exact Hrun |].
    pose proof (record_facts _ _ _ _ _ _ _ 1%nat r1 Hrun eq_refl) as Hfacts.
    cbv zeta in Hfacts.
    destruct Hfacts as (Hom & _ & _ & _ & _ & _ & _ & _ & _ & _ & HIC & _).
    cbn [map] in Hom.
    rewrite compute_omega_pre_clip_cons, omega_loop_pre_clip in Hom.
    inversion Hom as [Hom1].
    assert (Hone : Rabs ((1 - 0) / 1 - (0 - 0) / 1) = 1) by rcases.
    rewrite Hone in *. split; [reflexivity |].
    rewrite HIC, <- Hom1. ring.
Qed.

(** C1 fails as stated: under the defaults the only record of the
    one-sample series [0] has IC = 1 + eps > 1 and kappa = ln(1 + eps) > 0,
    and the second record of the series [0, 1] has IC = 0. *)
Lemma invariants_range_counterexample :
  (exists r,
      compute_invariants [0] 0 1 DEFAULT_EPS DEFAULT_K DEFAULT_ALPHA = Ok [r]
      /\ 1 < inv_IC r /\ 0 < inv_kappa r)
  /\ (exists r0 r1,
         compute_invariants [0; 1] 0 1 DEFAULT_EPS DEFAULT_K DEFAULT_ALPHA
         = Ok [r0; r1]
         /\ ~ 0 < inv_IC r1).
Proof.
  split.
  - destruct run_single_sample as (r & Hrun & _ & HIC & Hk).
    exists r. split; [exact Hrun |].
    rewrite HIC, Hk. unfold DEFAULT_EPS. split; [lra |].
    rewrite <- ln_1. apply ln_increasing; lra.
  - destruct run_unit_jump as (r0 & r1 & Hrun & _ & HIC).
    exists r0, r1. split; [exact Hrun |]. rewrite HIC. lra.
Qed.

Lemma invariants_range_witness :
  exists r,
    compute_invariants [0] 0 1 DEFAULT_EPS DEFAULT_K DEFAULT_ALPHA = Ok [r]
    /\ 0 < 1
    /\ 0 <= inv_omega r
    /\ 0 <= inv_xhat r <= 1
    /\ 0 <= inv_IC r <= 1 + DEFAULT_EPS
    /\ inv_kappa r <= ln (1 + DEFAULT_EPS)
    /\ (inv_IC r = 0 <-> inv_omega r = 1)
    /\ (DEFAULT_EPS <= inv_omega r -> inv_IC r <= 1 /\ inv_kappa r <= 0).
Proof.
  destruct run_single_sample as (r & Hrun & _).
  exists r. split; [exact Hrun |].
  apply (invariants_range [0] 0 1 DEFAULT_EPS DEFAULT_K DEFAULT_ALPHA [r] r).
  - unfold DEFAULT_EPS. lra.
  - unfold DEFAULT_ALPHA. lra.
  - exact Hrun.
  - apply list_elem_of_here.
Defined.

(** ** The return time *)

Lemma eps_ret_of_pos (res_sigma : R) : 0 < eps_ret_of res_sigma.
Proof.
  unfold eps_ret_of.
  pose proof (Rmax_l EPS_MIN (Rmin (TAUR_K * res_sigma) EPS_MAX)) as Hl.
  unfold EPS_MIN in *. lra.
Qed.

(** At index 1 of a two-sample series with equal samples, the loop runs
    over dt = 1 and dt = 2; the lag dt = 2 reads [xhat[-1]], the last
    sample, and completes the debounce. *)
Lemma compute_tau_ret_pair_same (eps_ret x : R) :
  0 < eps_ret ->
  compute_tau_ret eps_ret [x; x] 1 MAX_H DEBOUNCE_L = Ok 2%Z.
Proof.
  intros Heps. unfold compute_tau_ret.
  destruct (decide (1 = 0)%Z) as [Hz | _]; [lia |].
  change (py_getitem [x; x] 1) with (Ok x). cbn [exc_bind].
  change (py_range 1 (Z.min (1 + 1) MAX_H + 1)) with [1%Z; 2%Z].
  cbn [tau_ret_loop].
  change (py_getitem [x; x] (1 - 1)) with (Ok x).
  change (py_getitem [x; x] (1 - 2)) with (Ok x).
  cbn [exc_bind].
  replace (x - x) with 0 by lra. rewrite Rabs_R0.
  destruct (decide (0 < eps_ret)) as [_ | Hn]; [| contradiction].
  cbv zeta.
  destruct (decide (0 + 1 >= DEBOUNCE_L)%Z) as [Hd | _];
    [unfold DEBOUNCE_L in Hd; lia |].
  destruct (decide (0 + 1 + 1 >= DEBOUNCE_L)%Z) as [_ | Hd];
    [reflexivity | unfold DEBOUNCE_L in Hd; lia].
Qed.

Lemma tau_R_loop_pair_same (x : R) :
  tau_R_loop [x; x] [0%nat; 1%nat] 0 = Ok [1%Z; 2%Z].
Proof.
  cbn [tau_R_loop].
  destruct (decide (0%nat = 0%nat)) as [_ | Hn]; [| contradiction].
  destruct (decide (1%nat = 0%nat)) as [Hn | _]; [discriminate |].
  change (py_getitem [x; x] (Z.of_nat 1)) with (Ok x).
  change (py_getitem [x; x] (Z.of_nat 1 - 1)) with (Ok x).
  cbn [exc_bind]. cbv zeta.
  change (Z.of_nat 1) with 1%Z.
  rewrite compute_tau_ret_pair_same by apply eps_ret_of_pos.
  reflexivity.
Qed.

Lemma tau_R_spec_index_1 (eps_ret : R) (xhat : list R) :
  tau_R_spec eps_ret xhat 1 = 600%Z.
Proof.
  unfold tau_R_spec. change (seq 1 (Nat.min 1 600)) with [1%nat].
  cbn [spec_search]. destruct (spec_close eps_ret xhat 1 1); reflexivity.
Qed.

(** C2 at the failing input: on the series [0.5, 0.5] (a = 0, b = 1, the
    defaults) the run returns two records with tau_R = 1 and tau_R = 2;
    the second value exceeds min(i, 600) = 1 and is not 600, whereas the
    return time in the specification's words is 600 at index 1 of every
    series. *)
Theorem tau_R_reads_past_start :
  (exists r0 r1,
      compute_invariants [0.5; 0.5] 0 1 DEFAULT_EPS DEFAULT_K DEFAULT_ALPHA
      = Ok [r0; r1]
      /\ inv_tau_R r0 = 1%Z
      /\ inv_tau_R r1 = 2%Z
      /\ ~ (inv_tau_R r1 <= Z.min 1 600)%Z
      /\ inv_tau_R r1 <> 600%Z)
  /\ (forall eps_ret xhat, tau_R_spec eps_ret xhat 1 = 600%Z).
Proof.
  split; [| exact tau_R_spec_index_1].
  destruct (compute_invariants_returns [0.5; 0.5] 0 1
              DEFAULT_EPS DEFAULT_K DEFAULT_ALPHA) as (recs & Hrun & Hlen).
  - lra.
  - unfold DEFAULT_K. lia.
  - cbn [map]. rewrite compute_omega_pre_clip_cons, omega_loop_pre_clip.
    cbn [omega_loop]. unfold DEFAULT_EPS. repeat constructor; rcases.
  - destruct recs as [| r0 [| r1 [| r2 rest]]]; simpl in Hlen; try discriminate.
    exists r0, r1. split; [exact Hrun |].
    pose proof (record_facts _ _ _ _ _ _ _ 0%nat r0 Hrun eq_refl) as Hf0.
    pose proof (record_facts _ _ _ _ _ _ _ 1%nat r1 Hrun eq_refl) as Hf1.
    cbv zeta in Hf0, Hf1.
    destruct Hf0 as (_ & _ & (taus0 & Hloop0 & Ht0) & _).
    destruct Hf1 as (_ & _ & (taus1 & Hloop1 & Ht1) & _).
    cbn [map length seq] in Hloop0, Hloop1.
    rewrite tau_R_loop_pair_same in Hloop0, Hloop1.
    inversion Hloop0; subst taus0. inversion Hloop1; subst taus1.
    inversion Ht0 as [H0]. inversion Ht1 as [H1].
    repeat split; try reflexivity; lia.
Qed.

Lemma py_range_from_1 (n : nat) :
  py_range 1 (Z.of_nat n + 1) = map Z.of_nat (seq 1 n).
Proof.
  unfold py_range. replace (Z.to_nat (Z.of_nat n + 1 - 1)) with n by lia.
  rewrite <- (fmap_S_seq 0 n).
  change (S <$> seq 0 n) with (map S (seq 0 n)). rewrite map_map.
  apply map_ext. intros k. lia.
Qed.

(** Away from the start of the series the loop of [compute_tau_ret] is the
    search of the specification: as long as every lag stays within the
    index, both read the same samples and count alike. *)
Lemma tau_ret_loop_spec (eps_ret x_i : R) (xs : list R) (i : nat)
    (dts : list nat) (seen : nat) :
  xs !! i = Some x_i ->
  (forall dt, In dt dts -> (dt <= i)%nat) ->
  exists found,
    tau_ret_loop eps_ret x_i xs (Z.of_nat i) DEBOUNCE_L
      (map Z.of_nat dts) (Z.of_nat seen) = Ok found
    /\ match found with Some dt => dt | None => 600%Z end
       = spec_search eps_ret xs i dts seen.
Proof.
  intros Hi. revert seen.
  induction dts as [| dt rest IH]; intros seen Hall; cbn [map tau_ret_loop spec_search].
  - exists None. split; reflexivity.
  - assert (Hdt : (dt <= i)%nat) by (apply Hall; left; reflexivity).
    assert (Hrest : forall d, In d rest -> (d <= i)%nat)
      by (intros; apply Hall; right; assumption).
    pose proof (lookup_lt_Some _ _ _ Hi) as Hlen.
    destruct (lookup_lt_is_Some_2 xs (i - dt)) as [x_lag Hlag]; [lia |].
    replace (Z.of_nat i - Z.of_nat dt)%Z with (Z.of_nat (i - dt)) by lia.
    rewrite (proj2 (py_getitem_nat_Ok xs (i - dt) x_lag) Hlag). cbn [exc_bind].
    unfold spec_close. rewrite Hi, Hlag.
    destruct (decide (Rabs (x_i - x_lag) < eps_ret)) as [Hclose | Hfar].
    + rewrite bool_decide_eq_true_2 by exact Hclose. cbv zeta.
      destruct (decide (Z.of_nat seen + 1 >= DEBOUNCE_L)%Z) as [Hd | Hd];
        unfold DEBOUNCE_L in Hd.
      * assert (Hleb : (2 <=? S seen)%nat = true) by (apply Nat.leb_le; lia).
        rewrite Hleb. exists (Some (Z.of_nat dt)). split; reflexivity.
      * assert (Hleb : (2 <=? S seen)%nat = false) by (apply Nat.leb_gt; lia).
        rewrite Hleb.
        replace (Z.of_nat seen + 1)%Z with (Z.of_nat (S seen)) by lia.
        apply IH, Hrest.
    + rewrite bool_decide_eq_false_2 by exact Hfar.
      change 0%Z with (Z.of_nat 0). apply IH, Hrest.
Qed.

(** From index 600 on, where the horizon is 600 on both sides,
    [compute_tau_ret] returns the return time of the specification. *)
Lemma compute_tau_ret_agrees_from_600 (eps_ret : R) (xs : list R) (i : nat) :
  (600 <= i)%nat -> (i < length xs)%nat ->
  compute_tau_ret eps_ret xs (Z.of_nat i) MAX_H DEBOUNCE_L
  = Ok (tau_R_spec eps_ret xs i).
Proof.
  intros H600 Hlen. unfold compute_tau_ret.
  destruct (decide (Z.of_nat i = 0%Z)) as [Hz | _]; [lia |].
  destruct (lookup_lt_is_Some_2 xs i Hlen) as [x_i Hi].
  rewrite (proj2 (py_getitem_nat_Ok xs i x_i) Hi). cbn [exc_bind].
  unfold MAX_H.
  replace (Z.min (Z.of_nat i + 1) 600 + 1)%Z with (Z.of_nat 600 + 1)%Z by lia.
  rewrite py_range_from_1.
  destruct (tau_ret_loop_spec eps_ret x_i xs i (seq 1 600) 0 Hi)
    as (found & Hfound & Hspec).
  { intros dt Hdt. apply in_seq in Hdt. lia. }
  change (Z.of_nat 0) with 0%Z in Hfound. rewrite Hfound. cbn [exc_bind].
  unfold tau_R_spec. destruct i as [| i']; [lia |].
  replace (Nat.min (S i') 600) with 600%nat by lia.
  rewrite <- Hspec. reflexivity.
Qed.

(** * Further properties of the code *)

(** ** Clipping and drift *)

(** X1: the two ways the repository writes [clip01] agree; the result lies
    in [0, 1], clipping twice is clipping once, and a value is left
    unchanged exactly when it already lies in [0, 1]. *)
Theorem clip01_implementations_agree (u : R) :
  clip01_branch u = clip01 u
  /\ 0 <= clip01 u <= 1
  /\ clip01 (clip01 u) = clip01 u
  /\ (clip01 u = u <-> 0 <= u <= 1).
Proof.
  split; [| split; [apply clip01_range | split]].
  - unfold clip01_branch, clip01.
    destruct (decide (u < 0)); [| destruct (decide (u > 1))]; rcases_all.
  - unfold clip01. rcases_all.
  - split.
    + intros <-. apply clip01_range.
    + intros Hu. unfold clip01. rcases_all.
Qed.

Lemma clip01_lipschitz (u v : R) : Rabs (clip01 u - clip01 v) <= Rabs (u - v).
Proof. unfold clip01. rcases_all. Qed.

Lemma clip01_diff_le_1 (u v : R) : Rabs (clip01 u - clip01 v) <= 1.
Proof. unfold clip01. rcases_all. Qed.

Lemma omega_loop_other_policy (policy : string) (y_prev : R) (rest : list R) :
  policy <> "pre_clip"%string ->
  omega_loop policy y_prev rest
  = omega_loop "pre_clip" (clip01 y_prev) (map clip01 rest).
Proof.
  intros Hp. revert y_prev.
  induction rest as [| y tl IH]; intros y_prev; [reflexivity |].
  cbn [map]. rewrite omega_loop_pre_clip. cbn [omega_loop].
  destruct (decide (policy = "pre_clip"%string)); [contradiction |].
  f_equal. apply IH.
Qed.

Lemma omega_loop_clip_le (y_prev : R) (rest : list R) :
  Forall2 Rle (omega_loop "pre_clip" (clip01 y_prev) (map clip01 rest))
              (omega_loop "pre_clip" y_prev rest).
Proof.
  revert y_prev. induction rest as [| y tl IH]; intros y_prev.
  - constructor.
  - cbn [map]. rewrite !omega_loop_pre_clip.
    constructor; [apply clip01_lipschitz | apply IH].
Qed.

Lemma omega_loop_clip_le_1 (y_prev : R) (rest : list R) :
  Forall (fun w => w <= 1) (omega_loop "pre_clip" (clip01 y_prev) (map clip01 rest)).
Proof.
  revert y_prev. induction rest as [| y tl IH]; intros y_prev.
  - constructor.
  - cbn [map]. rewrite omega_loop_pre_clip.
    constructor; [apply clip01_diff_le_1 | apply IH].
Qed.

(** X2: [compute_omega] always starts with the drift 0, also on an empty
    series, so its result has max(1, n) entries; every drift is
    non-negative. *)
Theorem compute_omega_shape (y_series : list R) (policy : string) :
  length (compute_omega y_series policy) = Nat.max 1 (length y_series)
  /\ compute_omega y_series policy !! 0%nat = Some 0
  /\ compute_omega [] policy = [0]
  /\ Forall (fun w => 0 <= w) (compute_omega y_series policy).
Proof.
  split; [| split; [reflexivity | split; [reflexivity |
                                          apply compute_omega_nonneg]]].
  destruct y_series as [| y0 tl]; [reflexivity |].
  rewrite compute_omega_length by discriminate. simpl. reflexivity.
Qed.

(** X3: every policy name other than "pre_clip" selects the post-clip
    drift, which is the pre-clip drift of the clipped series; each
    post-clip drift is at most the pre-clip drift at the same index and at
    most 1. *)
Theorem compute_omega_post_clip (y_series : list R) (policy : string) :
  policy <> "pre_clip"%string ->
  compute_omega y_series policy = compute_omega (map clip01 y_series) "pre_clip"
  /\ Forall2 Rle (compute_omega y_series policy) (compute_omega y_series "pre_clip")
  /\ Forall (fun w => 0 <= w <= 1) (compute_omega y_series policy).
Proof.
  intros Hp.
  assert (Heq : compute_omega y_series policy
                = compute_omega (map clip01 y_series) "pre_clip").
  { destruct y_series as [| y0 tl]; [reflexivity |].
    cbn [map]. unfold compute_omega. f_equal.
    apply omega_loop_other_policy, Hp. }
  split; [exact Heq |]. split.
  - rewrite Heq. destruct y_series as [| y0 tl].
    + constructor; [lra | constructor].
    + cbn [map]. rewrite !compute_omega_pre_clip_cons.
      constructor; [lra | apply omega_loop_clip_le].
  - pose proof (compute_omega_nonneg y_series policy) as Hnn.
    assert (Hle : Forall (fun w => w <= 1) (compute_omega y_series policy)).
    { rewrite Heq. destruct y_series as [| y0 tl].
      - constructor; [lra | constructor].
      - cbn [map]. rewrite compute_omega_pre_clip_cons.
        constructor; [lra | apply omega_loop_clip_le_1]. }
    rewrite Forall_forall in *. intros w Hw. split; auto.
Qed.

Lemma compute_omega_post_clip_witness :
  compute_omega [0; 3] "post_clip"
  = compute_omega (map clip01 [0; 3]) "pre_clip"
  /\ Forall2 Rle (compute_omega [0; 3] "post_clip")
                 (compute_omega [0; 3] "pre_clip")
  /\ Forall (fun w => 0 <= w <= 1) (compute_omega [0; 3] "post_clip").
Proof. apply (compute_omega_post_clip [0; 3] "post_clip"). discriminate. Defined.

(** X4: under the post-clip policy and with eps > 0 the entropy never
    raises: every drift is at most 1, so every logarithm has a positive
    argument. *)
Theorem entropy_post_clip_total (y_series : list R) (eps : R) :
  0 < eps ->
  compute_entropy (compute_omega y_series "post_clip") eps
  = Ok (map (fun w => - ln (1 - w + eps)) (compute_omega y_series "post_clip")).
Proof.
  intros Heps. apply compute_entropy_Ok.
  destruct (compute_omega_post_clip y_series "post_clip") as (_ & _ & Hr);
    [discriminate |].
  rewrite Forall_forall in *. intros w Hw. specialize (Hr w Hw). lra.
Qed.

Lemma entropy_post_clip_total_witness :
  compute_entropy (compute_omega [0; 3] "post_clip") 1e-8
  = Ok (map (fun w => - ln (1 - w + 1e-8)) (compute_omega [0; 3] "post_clip")).
Proof. apply (entropy_post_clip_total [0; 3] 1e-8). lra. Defined.

(** ** Curvature *)

Lemma py_getitem_Ok_elem {A : Type} (xs : list A) (i : Z) (x : A) :
  py_getitem xs i = Ok x -> x ∈ xs.
Proof.
  unfold py_getitem. cbv zeta.
  destruct (decide (0 <= (if decide (i < 0)%Z
                          then (i + Z.of_nat (length xs))%Z else i)
                    < Z.of_nat (length xs))%Z); [| discriminate].
  destruct (xs !! _) as [x' |] eqn:Hx; [| discriminate].
  intros H. inversion H; subst. eapply list_elem_of_lookup_2, Hx.
Qed.

Lemma fold_left_Rplus_le (xs : list R) (acc : R) :
  Forall (fun x => x <= 1) xs ->
  fold_left Rplus xs acc <= acc + INR (length xs).
Proof.
  revert acc. induction xs as [| x rest IH]; intros acc Hall.
  - simpl. lra.
  - inversion Hall; subst. cbn [fold_left]. rewrite length_cons, S_INR.
    specialize (IH (acc + x) H2). lra.
Qed.

Lemma curvature_at_le_1 (xhat : list R) (K i : nat) (c : R) :
  Forall (fun x => 0 <= x <= 1) xhat ->
  curvature_at xhat K i = Ok c -> c <= 1.
Proof.
  intros Hx. unfold curvature_at. destruct (decide (i < K)%nat).
  - intros H. inversion H. lra.
  - intros H. apply exc_bind_Ok in H as (diffs & Hdiffs & Hdiv).
    unfold py_div in Hdiv. destruct (decide (INR K = 0)) as [| HK];
      [discriminate |].
    inversion Hdiv; subst c.
    pose proof (pos_INR K) as HKpos.
    assert (Hlen : length diffs = K).
    { apply exc_map_Ok_length in Hdiffs. rewrite length_seq in Hdiffs.
      exact Hdiffs. }
    assert (Hall : Forall (fun d => d <= 1) diffs).
    { apply Forall_lookup_2. intros j d Hj.
      destruct (exc_map_Ok_lookup _ _ _ _ _ Hdiffs Hj) as (k & _ & Hk).
      apply exc_bind_Ok in Hk as (x_i & Hxi & Hk).
      apply exc_bind_Ok in Hk as (x_k & Hxk & Hk).
      inversion Hk.
      apply py_getitem_Ok_elem in Hxi, Hxk.
      rewrite Forall_forall in Hx.
      pose proof (Hx x_i Hxi) as Hi1. pose proof (Hx x_k Hxk) as Hk1.
      assert (Hd : -1 <= x_i - x_k <= 1) by lra.
      assert (Hprod : 0 <= (1 - (x_i - x_k)) * (1 + (x_i - x_k)))
        by (apply Rmult_le_pos; lra).
      simpl. nra. }
    pose proof (fold_left_Rplus_le diffs 0 Hall) as Hsum.
    fold (py_sum diffs) in Hsum. rewrite Hlen in Hsum.
    apply (Rmult_le_reg_r (INR K)); [lra |].
    unfold Rdiv. rewrite Rmult_assoc, Rinv_l by exact HK. lra.
Qed.

(** X5: [compute_curvature] keeps the length of its input; with a window
    K >= 1 it returns, its first K entries are 0, and on samples in [0, 1]
    every curvature lies in [0, 1]; with K = 0 it divides by zero on any
    non-empty input; on the empty input it returns the empty list. *)
Theorem compute_curvature_shape (xhat : list R) (K : nat) :
  compute_curvature [] K = Ok []
  /\ (xhat <> [] -> compute_curvature xhat 0 = Raise ZeroDivisionError)
  /\ ((0 < K)%nat ->
      exists C,
        compute_curvature xhat K = Ok C
        /\ length C = length xhat
        /\ (forall i, (i < K)%nat -> (i < length xhat)%nat -> C !! i = Some 0)
        /\ (Forall (fun x => 0 <= x <= 1) xhat ->
            Forall (fun c => 0 <= c <= 1) C)).
Proof.
  split; [reflexivity |]. split.
  - destruct xhat as [| x rest]; [congruence |]. intros _.
    unfold compute_curvature. cbn [length seq exc_map].
    unfold curvature_at at 1.
    destruct (decide (0 < 0)%nat) as [Hlt | _]; [lia |].
    cbn [seq exc_map exc_bind]. unfold py_sum. cbn [fold_left INR].
    unfold py_div. destruct (decide (0 = 0)) as [_ | Hn]; [| contradiction].
    reflexivity.
  - intros HK.
    destruct (compute_curvature_returns xhat K HK) as (C & HC & Hlen).
    exists C. split; [exact HC |]. split; [exact Hlen |]. split.
    + intros i HiK Hi.
      destruct (lookup_lt_is_Some_2 C i) as [c Hc]; [lia |].
      destruct (exc_map_Ok_lookup _ _ _ _ _ HC Hc) as (j & Hj & Hat).
      apply lookup_seq in Hj as [Hj _]. simpl in Hj. subst j.
      unfold curvature_at in Hat.
      destruct (decide (i < K)%nat); [| contradiction].
      inversion Hat; subst. exact Hc.
    + intros Hx. apply Forall_lookup_2. intros i c Hc.
      destruct (exc_map_Ok_lookup _ _ _ _ _ HC Hc) as (j & _ & Hat).
      split; [eapply curvature_at_nonneg, Hat |
              eapply curvature_at_le_1; [exact Hx | exact Hat]].
Qed.

Lemma compute_curvature_shape_witness :
  exists C,
    compute_curvature [0; 1; 0; 1] 3 = Ok C
    /\ length C = 4%nat
    /\ (forall i, (i < 3)%nat -> (i < 4)%nat -> C !! i = Some 0)
    /\ (Forall (fun x => 0 <= x <= 1) [0; 1; 0; 1] ->
        Forall (fun c => 0 <= c <= 1) C).
Proof. apply (compute_curvature_shape [0; 1; 0; 1] 3). lia. Defined.

(** ** Regime labels *)

Lemma classify_regime_form (omega F S C IC : R) :
  classify_regime omega F S C IC
  = if decide (omega >= 0.30) then
      if decide (IC < 0.30) then "Critical"%string else "Collapse"%string
    else if decide (0.038 <= omega) then "Watch"%string
         else "Stable"%string.
Proof.
  unfold classify_regime, classify_regime_branch.
  destruct (decide (omega < 0.038 /\ F > 0.9 /\ S < 0.15 /\ C < 0.14))
    as [Hs | Hs].
  - destruct (decide (omega >= 0.30)); [lra |].
    destruct (decide (0.038 <= omega)); [lra | reflexivity].
  - destruct (decide (omega >= 0.30)).
    + destruct (decide (IC < 0.30)); reflexivity.
    + destruct (decide (0.038 <= omega /\ omega < 0.30));
        destruct (decide (0.038 <= omega)); try reflexivity; lra.
Qed.

(** X6: the label returned by [classify_regime] depends on omega and IC
    only: it is "Stable" exactly when omega < 0.038, "Watch" exactly when
    0.038 <= omega < 0.30, and for omega >= 0.30 it is "Critical" when
    IC < 0.30 and "Collapse" otherwise; the fidelity, entropy and curvature
    arguments never change it. *)
Theorem classify_regime_label_by_omega (omega F S C IC F' S' C' : R) :
  (classify_regime omega F S C IC = "Stable"%string <-> omega < 0.038)
  /\ (classify_regime omega F S C IC = "Watch"%string <-> 0.038 <= omega < 0.30)
  /\ (classify_regime omega F S C IC = "Critical"%string
      <-> omega >= 0.30 /\ IC < 0.30)
  /\ (classify_regime omega F S C IC = "Collapse"%string
      <-> omega >= 0.30 /\ IC >= 0.30)
  /\ classify_regime omega F S C IC = classify_regime omega F' S' C' IC.
Proof.
  assert (Hform : forall f s c,
             classify_regime omega f s c IC
             = if decide (omega >= 0.30) then
                 if decide (IC < 0.30) then "Critical"%string else "Collapse"%string
               else if decide (0.038 <= omega) then "Watch"%string
                    else "Stable"%string).
  { intros f s c. unfold classify_regime, classify_regime_branch.
    destruct (decide (omega < 0.038 /\ f > 0.9 /\ s < 0.15 /\ c < 0.14))
      as [Hs | Hs].
    - destruct (decide (omega >= 0.30)); [lra |].
      destruct (decide (0.038 <= omega)); [lra | reflexivity].
    - destruct (decide (omega >= 0.30)).
      + destruct (decide (IC < 0.30)); reflexivity.
      + destruct (decide (0.038 <= omega /\ omega < 0.30));
          destruct (decide (0.038 <= omega)); try reflexivity; lra. }
  rewrite !Hform.
  destruct (decide (omega >= 0.30)); [destruct (decide (IC < 0.30)) |
                                       destruct (decide (0.038 <= omega))];
    repeat split; intros; try discriminate; try reflexivity; try lra.
Qed.

(** ** The records of a run *)

Lemma omega_loop_lookup (rest : list R) (y_prev : R) (i : nat) (u v : R) :
  (y_prev :: rest) !! i = Some u -> (y_prev :: rest) !! S i = Some v ->
  omega_loop "pre_clip" y_prev rest !! i = Some (Rabs (v - u)).
Proof.
  revert y_prev i. induction rest as [| y tl IH]; intros y_prev i Hu Hv.
  - destruct i; discriminate.
  - rewrite omega_loop_pre_clip. destruct i as [| i].
    + simpl in Hu, Hv. inversion Hu; inversion Hv; subst. reflexivity.
    + simpl in Hu, Hv. simpl. apply IH; assumption.
Qed.

Lemma compute_omega_lookup_S (y_series : list R) (i : nat) (u v : R) :
  y_series !! i = Some u -> y_series !! S i = Some v ->
  compute_omega y_series "pre_clip" !! S i = Some (Rabs (v - u)).
Proof.
  intros Hu Hv. destruct y_series as [| y0 tl]; [discriminate |].
  rewrite compute_omega_pre_clip_cons. simpl.
  apply omega_loop_lookup; assumption.
Qed.

Lemma py_range_cons (a b : Z) :
  (a < b)%Z -> py_range a b = a :: py_range (a + 1) b.
Proof.
  intros Hab. unfold py_range.
  replace (Z.to_nat (b - a)) with (S (Z.to_nat (b - (a + 1)))) by lia.
  cbn [seq map]. f_equal; [lia |].
  rewrite <- (fmap_S_seq 0).
  change (S <$> seq 0 (Z.to_nat (b - (a + 1))))
    with (map S (seq 0 (Z.to_nat (b - (a + 1))))).
  rewrite map_map. apply map_ext. intros k. lia.
Qed.

Lemma tau_ret_loop_found_later (eps_ret target : R) (xs : list R) (t L : Z)
    (d0 : Z) (rest : list Z) (seen dt : Z) :
  (seen + 1 < L)%Z ->
  tau_ret_loop eps_ret target xs t L (d0 :: rest) seen = Ok (Some dt) ->
  In dt rest.
Proof.
  intros Hseen H. cbn [tau_ret_loop] in H.
  apply exc_bind_Ok in H as (x & _ & H).
  destruct (decide (Rabs (target - x) < eps_ret)).
  - cbv zeta in H. destruct (decide (seen + 1 >= L)%Z); [lia |].
    eapply tau_ret_loop_found, H.
  - eapply tau_ret_loop_found, H.
Qed.

Lemma compute_tau_ret_bounds (eps_ret : R) (xs : list R) (t tau : Z) :
  (0 < t)%Z ->
  compute_tau_ret eps_ret xs t MAX_H DEBOUNCE_L = Ok tau ->
  (2 <= tau <= 600)%Z /\ (tau <= t + 1 \/ tau = 600)%Z.
Proof.
  intros Ht. unfold compute_tau_ret.
  destruct (decide (t = 0%Z)); [lia |].
  intros H. apply exc_bind_Ok in H as (target & _ & H).
  apply exc_bind_Ok in H as ([dt |] & Hloop & H); inversion H; subst;
    unfold MAX_H in *; [| lia].
  rewrite py_range_cons in Hloop by lia.
  apply tau_ret_loop_found_later in Hloop; [| unfold DEBOUNCE_L; lia].
  apply in_py_range in Hloop. lia.
Qed.

Lemma tau_R_loop_bounds (xhat : list R) (idxs : list nat) (res_sigma : R)
    (taus : list Z) :
  tau_R_loop xhat idxs res_sigma = Ok taus ->
  Forall2 (fun (i : nat) (tau : Z) =>
             (i = 0%nat -> tau = 1%Z)
             /\ (i <> 0%nat ->
                 (2 <= tau <= 600)%Z
                 /\ (tau <= Z.of_nat i + 1 \/ tau = 600)%Z))
          idxs taus.
Proof.
  revert res_sigma taus.
  induction idxs as [| i rest IH]; intros res_sigma taus H; simpl in H.
  - inversion H. constructor.
  - destruct (decide (i = 0%nat)).
    + apply exc_bind_Ok in H as (tl & Htl & H). inversion H; subst.
      constructor; [| eapply IH, Htl]. split; [reflexivity | congruence].
    + apply exc_bind_Ok in H as (x_i & _ & H).
      apply exc_bind_Ok in H as (x_p & _ & H). cbv zeta in H.
      apply exc_bind_Ok in H as (tau_r & Htau & H).
      apply exc_bind_Ok in H as (tl & Htl & H). inversion H; subst.
      constructor; [| eapply IH, Htl]. split; [contradiction |].
      intros _. eapply compute_tau_ret_bounds; [lia | exact Htau].
Qed.

(** The fields of a record that [record_facts] leaves out. *)
Lemma record_fields (x_raw : list R) (a b eps : R) (K : nat) (alpha : R)
    (recs : list InvariantRecord) (i : nat) (r : InvariantRecord) :
  compute_invariants x_raw a b eps K alpha = Ok recs ->
  recs !! i = Some r ->
  inv_t r = i
  /\ x_raw !! i = Some (inv_x_raw r)
  /\ inv_U r = inv_C r / (1 + IZR (inv_tau_R r))
  /\ inv_regime r
     = classify_regime (inv_omega r) (inv_F r) (inv_S r) (inv_C r) (inv_IC r).
Proof.
  intros Hrun Hr.
  pose proof (record_facts _ _ _ _ _ _ _ _ _ Hrun Hr) as Hfacts.
  cbv zeta in Hfacts.
  destruct Hfacts as (_ & _ & _ & _ & _ & _ & _ & _ & _ & Htau & _).
  apply compute_invariants_inv in Hrun as (_ & S & C & taus & _ & _ & _ & Hrecs).
  destruct (exc_map_Ok_lookup _ _ _ _ _ Hrecs Hr) as (j & Hj & Hat).
  apply lookup_seq in Hj as [Hj _]. simpl in Hj. subst j.
  apply invariant_record_at_inv in Hat
    as (Ht & Hx & _ & _ & _ & _ & _ & _ & _ & _ & _ & HU & Hreg).
  unfold compute_U in HU. apply IZR_le in Htau.
  rewrite py_div_Ok in HU by lra. inversion HU.
  repeat split; assumption.
Qed.

(** X7: a run returns one record per sample, in order: record i carries
    t = i and the i-th raw sample, y = (x_raw - a) / b, xhat = clip01(y),
    F = 1 - omega, U = C / (1 + tau_R) and the regime of its own
    invariants; the first drift is 0 and every later drift is the absolute
    difference between the record's y and the y of the record before. *)
Theorem compute_invariants_aligned (x_raw : list R) (a b eps : R) (K : nat)
    (alpha : R) (recs : list InvariantRecord) :
  compute_invariants x_raw a b eps K alpha = Ok recs ->
  length recs = length x_raw
  /\ forall i r,
      recs !! i = Some r ->
      inv_t r = i
      /\ x_raw !! i = Some (inv_x_raw r)
      /\ inv_y r = (inv_x_raw r - a) / b
      /\ inv_xhat r = clip01 (inv_y r)
      /\ inv_F r = 1 - inv_omega r
      /\ inv_U r = inv_C r / (1 + IZR (inv_tau_R r))
      /\ inv_regime r
         = classify_regime (inv_omega r) (inv_F r) (inv_S r) (inv_C r) (inv_IC r)
      /\ (i = 0%nat -> inv_omega r = 0)
      /\ (forall j r_prev, i = S j -> recs !! j = Some r_prev ->
          inv_omega r = Rabs (inv_y r - inv_y r_prev)).
Proof.
  intros Hrun. split.
  - pose proof (compute_invariants_inv _ _ _ _ _ _ _ Hrun)
      as (_ & S & C & taus & _ & _ & _ & Hrecs).
    apply exc_map_Ok_length in Hrecs. rewrite length_seq in Hrecs. exact Hrecs.
  - intros i r Hr.
    pose proof (record_fields _ _ _ _ _ _ _ _ _ Hrun Hr) as (Ht & Hx & HU & Hreg).
    pose proof (record_facts _ _ _ _ _ _ _ _ _ Hrun Hr) as Hfacts.
    cbv zeta in Hfacts.
    destruct Hfacts as (Hom & _ & _ & Hy & Hxh & _ & HF & _).
    split; [exact Ht |]. split; [exact Hx |]. split; [exact Hy |].
    split; [exact Hxh |]. split; [exact HF |]. split; [exact HU |].
    split; [exact Hreg |]. split.
    + intros ->. unfold compute_omega in Hom. simpl in Hom.
      inversion Hom. reflexivity.
    + intros j r_prev -> Hprev.
      pose proof (record_fields _ _ _ _ _ _ _ _ _ Hrun Hprev) as (_ & Hxp & _).
      pose proof (record_facts _ _ _ _ _ _ _ _ _ Hrun Hprev) as Hfp.
      cbv zeta in Hfp. destruct Hfp as (_ & _ & _ & Hyp & _).
      pose proof (lookup_map_Some (fun x => (x - a) / b) x_raw _ _ Hx) as Hyi.
      pose proof (lookup_map_Some (fun x => (x - a) / b) x_raw _ _ Hxp) as Hyj.
      rewrite (compute_omega_lookup_S _ _ _ _ Hyj Hyi) in Hom.
      inversion Hom as [Hw]. rewrite Hy, Hyp. reflexivity.
Qed.

Lemma compute_invariants_aligned_witness :
  exists recs,
    compute_invariants [0] 0 1 DEFAULT_EPS DEFAULT_K DEFAULT_ALPHA = Ok recs
    /\ length recs = 1%nat.
Proof.
  destruct run_single_sample as (r & Hrun & _).
  exists [r]. split; [exact Hrun |].
  apply (compute_invariants_aligned [0] 0 1 DEFAULT_EPS DEFAULT_K DEFAULT_ALPHA
           [r] Hrun).
Defined.

(** X8: in every record of a run the return time of the first sample is 1,
    and every later return time lies between 2 and 600 and is either at
    most i + 1 or the horizon 600; with a window K >= 1 the curvature lies
    in [0, 1] and is 0 for the first K samples; and the payload U lies
    between 0 and C / 2. *)
Theorem pipeline_return_time_and_payload (x_raw : list R) (a b eps : R)
    (K : nat) (alpha : R) (recs : list InvariantRecord) (i : nat)
    (r : InvariantRecord) :
  compute_invariants x_raw a b eps K alpha = Ok recs ->
  recs !! i = Some r ->
  (i = 0%nat -> inv_tau_R r = 1%Z)
  /\ (i <> 0%nat ->
      (2 <= inv_tau_R r <= 600)%Z
      /\ (inv_tau_R r <= Z.of_nat i + 1 \/ inv_tau_R r = 600)%Z)
  /\ 0 <= inv_C r <= 1
  /\ ((i < K)%nat -> inv_C r = 0)
  /\ 0 <= inv_U r <= inv_C r / 2.
Proof.
  intros Hrun Hr.
  pose proof (record_fields _ _ _ _ _ _ _ _ _ Hrun Hr) as (_ & _ & HU & _).
  pose proof (record_facts _ _ _ _ _ _ _ _ _ Hrun Hr) as Hfacts.
  cbv zeta in Hfacts.
  destruct Hfacts
    as (_ & (C & HC & HCi) & (taus & Htaus & Hti) & _ & _ & _ & _ & _ & HC0 & Ht1 & _).
  pose proof (tau_R_loop_bounds _ _ _ _ Htaus) as Hb.
  destruct (exc_map_Ok_lookup _ _ _ _ _ HC HCi) as (j & Hj & Hat).
  apply lookup_seq in Hj as [Hj Hlt]. simpl in Hj. subst j.
  pose proof (Forall2_lookup_lr _ _ _ i i (inv_tau_R r) Hb) as Hbi.
  specialize (Hbi (proj2 (lookup_seq _ _ _ _) (conj eq_refl Hlt)) Hti).
  destruct Hbi as (Hb0 & Hb1).
  split; [exact Hb0 |]. split; [exact Hb1 |].
  assert (HC1 : inv_C r <= 1).
  { eapply curvature_at_le_1; [| exact Hat].
    apply Forall_forall. intros x Hx.
    apply list_elem_of_In, in_map_iff in Hx as (y & <- & _).
    apply clip01_range. }
  split; [lra |]. split.
  - intros HiK. unfold curvature_at in Hat.
    destruct (decide (i < K)%nat); [| contradiction].
    inversion Hat. reflexivity.
  - rewrite HU. apply IZR_le in Ht1.
    assert (Hinv : 0 < / (1 + IZR (inv_tau_R r)) <= / 2).
    { split; [apply Rinv_0_lt_compat; lra |].
      apply Rinv_le_contravar; lra. }
    unfold Rdiv. split; [apply Rmult_le_pos; lra |].
    apply Rmult_le_compat_l; lra.
Qed.

Lemma pipeline_return_time_and_payload_witness :
  exists r,
    compute_invariants [0] 0 1 DEFAULT_EPS DEFAULT_K DEFAULT_ALPHA = Ok [r]
    /\ (0%nat = 0%nat -> inv_tau_R r = 1%Z)
    /\ (0%nat <> 0%nat ->
        (2 <= inv_tau_R r <= 600)%Z
        /\ (inv_tau_R r <= Z.of_nat 0 + 1 \/ inv_tau_R r = 600)%Z)
    /\ 0 <= inv_C r <= 1
    /\ ((0 < DEFAULT_K)%nat -> inv_C r = 0)
    /\ 0 <= inv_U r <= inv_C r / 2.
Proof.
  destruct run_single_sample as (r & Hrun & _).
  exists r. split; [exact Hrun |].
  apply (pipeline_return_time_and_payload [0] 0 1 DEFAULT_EPS DEFAULT_K
           DEFAULT_ALPHA [r] 0 r Hrun).
  reflexivity.
Defined.

(** X9: the entropy of a record is -ln(1 - omega + eps) and is never
    below -ln(1 + eps).  For 0 < eps <= 1 its sign follows the drift: it
    is non-negative when omega >= eps and non-positive when omega <= eps.
    The first record, whose drift is 0, has the entropy -ln(1 + eps),
    which is negative for eps >= 1e-15, so for the default 1e-8. *)
Theorem pipeline_entropy_sign (x_raw : list R) (a b eps : R) (K : nat)
    (alpha : R) (recs : list InvariantRecord) (i : nat) (r : InvariantRecord) :
  compute_invariants x_raw a b eps K alpha = Ok recs ->
  recs !! i = Some r ->
  inv_S r = - ln (1 - inv_omega r + eps)
  /\ - ln (1 + eps) <= inv_S r
  /\ (0 < eps <= 1 ->
      (eps <= inv_omega r -> 0 <= inv_S r)
      /\ (inv_omega r <= eps -> inv_S r <= 0))
  /\ (i = 0%nat -> inv_S r = - ln (1 + eps))
  /\ (i = 0%nat -> 1e-15 <= eps -> inv_S r < 0).
Proof.
  intros Hrun Hr.
  pose proof (record_facts _ _ _ _ _ _ _ _ _ Hrun Hr) as Hfacts.
  cbv zeta in Hfacts.
  destruct Hfacts as (Hom & _ & _ & _ & _ & Hrange & _ & HS & _).
  assert (Hpos : 0 < 1 - inv_omega r + eps) by lra.
  assert (Hfirst : i = 0%nat -> inv_S r = - ln (1 + eps)).
  { intros ->. unfold compute_omega in Hom. simpl in Hom.
    inversion Hom as [Hom0]. rewrite HS, <- Hom0. f_equal. f_equal. lra. }
  split; [exact HS |]. split; [| split; [| split; [exact Hfirst |]]].
  - rewrite HS.
    assert (Hln : ln (1 - inv_omega r + eps) <= ln (1 + eps))
      by (apply ln_le; lra).
    lra.
  - intros Heps. rewrite HS. split.
    + intros Hle.
      assert (Hln : ln (1 - inv_omega r + eps) <= ln 1)
        by (apply ln_le; lra).
      rewrite ln_1 in Hln. lra.
    + intros Hle.
      assert (Hln : ln 1 <= ln (1 - inv_omega r + eps))
        by (apply ln_le; lra).
      rewrite ln_1 in Hln. lra.
  - intros Hi Heps. rewrite (Hfirst Hi).
    assert (Hln : ln 1 < ln (1 + eps)) by (apply ln_increasing; lra).
    rewrite ln_1 in Hln. lra.
Qed.

Lemma pipeline_entropy_sign_witness :
  exists r,
    compute_invariants [0] 0 1 DEFAULT_EPS DEFAULT_K DEFAULT_ALPHA = Ok [r]
    /\ inv_S r = - ln (1 + DEFAULT_EPS)
    /\ inv_S r < 0
    /\ inv_S r <= 0.
Proof.
  destruct run_single_sample as (r & Hrun & Hom & _).
  exists r. split; [exact Hrun |].
  destruct (pipeline_entropy_sign [0] 0 1 DEFAULT_EPS DEFAULT_K DEFAULT_ALPHA
              [r] 0 r Hrun eq_refl) as (_ & _ & Hsign & Hfirst & Hneg).
  split; [apply Hfirst; reflexivity |].
  split; [apply Hneg; [reflexivity | unfold DEFAULT_EPS; lra] |].
  destruct Hsign as (_ & Hle); [unfold DEFAULT_EPS; lra |].
  apply Hle. rewrite Hom. unfold DEFAULT_EPS. lra.
Defined.

Lemma compute_invariants_drift_raises (x_raw : list R) (a b eps : R) (K : nat)
    (alpha : R) :
  0 < b ->
  Exists (fun w => 1 + eps <= w)
    (compute_omega (map (fun x => (x - a) / b) x_raw) "pre_clip") ->
  compute_invariants x_raw a b eps K alpha = Raise ValueError.
Proof.
  intros Hb Hex. unfold compute_invariants.
  destruct (decide (b <= 0)); [lra |]. cbv zeta.
  rewrite compute_entropy_Raise by exact Hex. reflexivity.
Qed.



(** ** Transport without drift and past the wall *)

Lemma transport_update_U_no_drift (U_n w alpha eps p U' : R) (face : string) :
  transport_update_U U_n w w alpha eps p face = Ok U' -> U' = U_n.
Proof.
  intros H. apply transport_update_U_Ok in H as (Gam & _ & _ & ->). ring.
Qed.

Lemma predict_U_no_drift (U_n w alpha eps p pivot U' : R)
    (face_n face_np1 : string) :
  predict_U U_n w w alpha eps p pivot face_n face_np1 = Ok U' -> U' = U_n.
Proof.
  unfold predict_U. intros H.
  destruct (decide (face_n <> face_np1)).
  - cbv zeta in H.
    destruct (decide (~ (Rmin w w <= pivot /\ pivot <= Rmax w w)))
      as [_ | Hin].
    + eapply transport_update_U_no_drift, H.
    + assert (Hpiv : pivot = w).
      { destruct (decide (Rmin w w <= pivot /\ pivot <= Rmax w w))
          as [Hd | Hd]; [| contradiction].
        revert Hd. clear. intros Hd. rcases_all. }
      subst pivot.
      apply exc_bind_Ok in H as (U_mid & Hmid & H).
      apply transport_update_U_no_drift in Hmid. subst U_mid.
      eapply transport_update_U_no_drift, H.
  - eapply transport_update_U_no_drift, H.
Qed.

(** X11: a step between two rows with the same drift predicts no change.
    Whatever the guards, the faces and the pivot, and in each of the three
    branches of the prediction, when [validate_step] returns on rows with
    omega_n = omega_np1 its U_pred is U_n, so the transport residual is
    U_np1 - U_n and the transport flag tells whether the two payloads are
    within the tolerance of each other. *)
Theorem validate_step_same_drift (float_of_str : string -> option R)
    (str_of_float : R -> string) (row_n row_np1 : gmap string pyval)
    (alpha eps p tolT tolW pivot : R) (r : StepResult) :
  validate_step float_of_str str_of_float row_n row_np1
    alpha eps p tolT tolW pivot = Ok r ->
  omega_n r = omega_np1 r ->
  U_pred r = U_n r
  /\ rT r = U_np1 r - U_n r
  /\ (okT r = 1 <-> Rabs (U_np1 r - U_n r) <= tolT).
Proof.
  intros Hr Hsame.
  apply validate_step_Ok in Hr
    as (C_n & tau_n & k_n & C_np1 & tau_np1 & k_np1 & _ & _ & _ & _ & _ & _
        & _ & _ & _ & _ & _ & _ & Hpred & HrT & _ & HokT & _).
  rewrite <- Hsame in Hpred. apply predict_U_no_drift in Hpred.
  rewrite Hpred in HrT.
  split; [exact Hpred |]. split; [exact HrT |].
  rewrite HokT, HrT. unfold ok_flag.
  destruct (decide (Rabs (U_np1 r - U_n r) <= tolT)); split; intros H;
    try assumption; try reflexivity; try contradiction; lra.
Qed.

Lemma validate_step_same_drift_witness :
  exists r,
    validate_step float_of_str_none str_of_float_opaque row_B row_B
      1 1e-8 3 1e-9 1e-12 0.99 = Ok r
    /\ U_pred r = U_n r /\ rT r = U_np1 r - U_n r.
Proof.
  destruct (scenario_B_step float_of_str_none str_of_float_opaque)
    as (r & Hr & _ & _ & Hom & Hom' & _).
  exists r. split; [exact Hr |].
  destruct (validate_step_same_drift _ _ _ _ _ _ _ _ _ _ r Hr) as (Hp & HT & _).
  - rewrite Hom, Hom'. reflexivity.
  - split; assumption.
Defined.


Lemma Rabs_not_small_neg (x : R) : x <= - 1e-15 -> ~ Rabs x < 1e-15.
Proof. intros Hx. rcases. Qed.




(** ** Weld continuity *)

Lemma validate_weld_returns (ks : list R) (tol : R) :
  exists flags,
    validate_weld ks tol = Ok flags
    /\ length flags = (length ks - 1)%nat
    /\ forall i k_here k_next,
        ks !! i = Some k_here -> ks !! S i = Some k_next ->
        flags !! i = Some (bool_decide (Rabs (k_next - k_here) <= tol)).
Proof.
  unfold validate_weld.
  destruct (decide (length ks < 2)%nat) as [Hshort | Hlong].
  - exists []. split; [reflexivity |]. split; [simpl; lia |].
    intros i k_here k_next _ Hnext. apply lookup_lt_Some in Hnext. lia.
  - match goal with
    | |- exists flags, exc_map ?f ?l = Ok flags /\ _ =>
        destruct (exc_map_returns f l) as [flags Hflags]
    end.
    { intros i Hi. apply in_seq in Hi.
      destruct (py_getitem_returns ks (Z.of_nat i + 1)) as [k1 ->]; [lia |].
      destruct (py_getitem_returns ks (Z.of_nat i)) as [k0 ->]; [lia |].
      cbn [exc_bind]. eexists. reflexivity. }
    exists flags. split; [exact Hflags |]. split.
    + apply exc_map_Ok_length in Hflags. rewrite length_seq in Hflags.
      exact Hflags.
    + intros i k_here k_next Hhere Hnext.
      pose proof (lookup_lt_Some _ _ _ Hnext) as Hi.
      pose proof (exc_map_Ok_length _ _ _ Hflags) as Hlen.
      rewrite length_seq in Hlen.
      destruct (lookup_lt_is_Some_2 flags i) as [fl Hfl]; [lia |].
      destruct (exc_map_Ok_lookup _ _ _ _ _ Hflags Hfl) as (j & Hj & Hat).
      apply lookup_seq in Hj as [Hj _]. simpl in Hj. subst j.
      rewrite (proj2 (py_getitem_succ_Ok ks i k_next) Hnext) in Hat.
      rewrite (proj2 (py_getitem_nat_Ok ks i k_here) Hhere) in Hat.
      cbn [exc_bind] in Hat. inversion Hat; subst. exact Hfl.
Qed.

(** X14: [validate_weld] never raises; on n values it returns n - 1 flags
    (none for n < 2), flag i telling whether |kappa[i+1] - kappa[i]| is at
    most the tolerance; on a constant sequence every flag is True for a
    tolerance >= 0, and for a negative tolerance every flag is False. *)
Theorem validate_weld_flags (ks : list R) (tol c : R) :
  exists flags,
    validate_weld ks tol = Ok flags
    /\ length flags = (length ks - 1)%nat
    /\ (forall i k_here k_next,
           ks !! i = Some k_here -> ks !! S i = Some k_next ->
           flags !! i = Some (bool_decide (Rabs (k_next - k_here) <= tol)))
    /\ (0 <= tol -> Forall (fun k => k = c) ks -> Forall (fun fl => fl = true) flags)
    /\ (tol < 0 -> Forall (fun fl => fl = false) flags).
Proof.
  destruct (validate_weld_returns ks tol) as (flags & Hret & Hlen & Hflag).
  exists flags. split; [exact Hret |]. split; [exact Hlen |].
  split; [exact Hflag |]. split.
  - intros Htol Hconst. apply Forall_lookup_2. intros i fl Hfl.
    pose proof (lookup_lt_Some _ _ _ Hfl) as Hi.
    destruct (lookup_lt_is_Some_2 ks i) as [k0 Hk0]; [lia |].
    destruct (lookup_lt_is_Some_2 ks (S i)) as [k1 Hk1]; [lia |].
    rewrite (Hflag i k0 k1 Hk0 Hk1) in Hfl. inversion Hfl.
    pose proof (Forall_lookup_1 _ _ _ _ Hconst Hk0) as Hc0.
    pose proof (Forall_lookup_1 _ _ _ _ Hconst Hk1) as Hc1.
    simpl in Hc0, Hc1. subst k0 k1.
    apply bool_decide_eq_true_2.
    replace (c - c) with 0 by lra. rewrite Rabs_R0. exact Htol.
  - intros Htol. apply Forall_lookup_2. intros i fl Hfl.
    pose proof (lookup_lt_Some _ _ _ Hfl) as Hi.
    destruct (lookup_lt_is_Some_2 ks i) as [k0 Hk0]; [lia |].
    destruct (lookup_lt_is_Some_2 ks (S i)) as [k1 Hk1]; [lia |].
    rewrite (Hflag i k0 k1 Hk0 Hk1) in Hfl. inversion Hfl.
    apply bool_decide_eq_false_2.
    pose proof (Rabs_pos (k1 - k0)). lra.
Qed.

Lemma validate_weld_flags_witness :
  exists flags,
    validate_weld [-0.1; -0.1; -0.1] 1e-12 = Ok flags
    /\ length flags = 2%nat
    /\ Forall (fun fl => fl = true) flags.
Proof.
  destruct (validate_weld_flags [-0.1; -0.1; -0.1] 1e-12 (-0.1))
    as (flags & Hret & Hlen & _ & Hconst & _).
  exists flags. split; [exact Hret |]. split; [exact Hlen |].
  apply Hconst; [lra |]. repeat constructor.
Defined.

(** ** Residuals and flags of a validated step *)

Lemma ok_flag_cases (r tol : R) :
  (ok_flag r tol = 1 /\ Rabs r <= tol) \/ (ok_flag r tol = 0 /\ ~ Rabs r <= tol).
Proof. unfold ok_flag. destruct (decide (Rabs r <= tol)); [left | right]; auto. Qed.

Lemma flag_count_ok_flag (r tol : R) :
  flag_count (ok_flag r tol) = if decide (Rabs r <= tol) then 1%Z else 0%Z.
Proof.
  unfold flag_count, ok_flag.
  destruct (decide (Rabs r <= tol)).
  - destruct (decide (1 = 1)); [reflexivity | contradiction].
  - destruct (decide (0 = 1)); [lra | reflexivity].
Qed.

Section StepResiduals.

Variable float_of_str : string -> option R.
Variable str_of_float : R -> string.

(** X15: in the record of a validated step the transport residual is
    U_np1 - U_pred and the weld residual is the difference of the two
    rows' kappa values; each flag is 1.0 or 0.0 and is 1.0 exactly when
    the absolute residual is within its tolerance; so a step whose
    observed payload equals the prediction passes transport for every
    tolerance >= 0, and two rows with the same kappa pass the weld for
    every tolerance >= 0. *)
Theorem validate_step_residuals (row_n row_np1 : gmap string pyval)
    (alpha eps p tolT tolW pivot : R) (r : StepResult) :
  validate_step float_of_str str_of_float row_n row_np1
    alpha eps p tolT tolW pivot = Ok r ->
  rT r = U_np1 r - U_pred r
  /\ (exists k_n k_np1,
         row_kappa float_of_str row_n = Ok k_n
         /\ row_kappa float_of_str row_np1 = Ok k_np1
         /\ rW r = k_np1 - k_n)
  /\ (okT r = 1 \/ okT r = 0) /\ (okW r = 1 \/ okW r = 0)
  /\ (okT r = 1 <-> Rabs (rT r) <= tolT)
  /\ (okW r = 1 <-> Rabs (rW r) <= tolW)
  /\ (U_np1 r = U_pred r -> 0 <= tolT -> rT r = 0 /\ okT r = 1)
  /\ (row_kappa float_of_str row_n = row_kappa float_of_str row_np1 ->
      0 <= tolW -> rW r = 0 /\ okW r = 1).
Proof.
  intros H.
  apply validate_step_Ok in H
    as (C_n & tau_n & k_n & C_np1 & tau_np1 & k_np1 & _ & _ & _ & Hkn & _
        & _ & _ & _ & Hknp1 & _ & _ & _ & _ & HrT & HrW & HokT & HokW).
  assert (HT : okT r = 1 <-> Rabs (rT r) <= tolT).
  { rewrite HokT. destruct (ok_flag_cases (rT r) tolT) as [[-> Hle] | [-> Hn]];
      split; intros; try assumption; try reflexivity; try lra; contradiction. }
  assert (HW : okW r = 1 <-> Rabs (rW r) <= tolW).
  { rewrite HokW. destruct (ok_flag_cases (rW r) tolW) as [[-> Hle] | [-> Hn]];
      split; intros; try assumption; try reflexivity; try lra; contradiction. }
  split; [exact HrT |]. split; [exists k_n, k_np1; auto |].
  split; [rewrite HokT; destruct (ok_flag_cases (rT r) tolT) as [[-> _] | [-> _]]; auto |].
  split; [rewrite HokW; destruct (ok_flag_cases (rW r) tolW) as [[-> _] | [-> _]]; auto |].
  split; [exact HT |]. split; [exact HW |]. split.
  - intros Heq Htol.
    assert (Hz : rT r = 0) by (rewrite HrT, Heq; lra).
    split; [exact Hz |]. apply HT. rewrite Hz, Rabs_R0. exact Htol.
  - intros Heq Htol. rewrite Hkn, Hknp1 in Heq. inversion Heq; subst.
    assert (Hz : rW r = 0) by (rewrite HrW; lra).
    split; [exact Hz |]. apply HW. rewrite Hz, Rabs_R0. exact Htol.
Qed.

End StepResiduals.

Lemma validate_step_residuals_witness :
  exists r,
    validate_step float_of_str_none str_of_float_opaque row_B row_B
      1 1e-8 3 1e-9 1e-12 0.99 = Ok r
    /\ rW r = 0 /\ okW r = 1.
Proof.
  destruct (scenario_B_step float_of_str_none str_of_float_opaque)
    as (r & Hr & _).
  exists r. split; [exact Hr |].
  destruct (validate_step_residuals float_of_str_none str_of_float_opaque
              row_B row_B 1 1e-8 3 1e-9 1e-12 0.99 r Hr)
    as (_ & _ & _ & _ & _ & _ & _ & Hweld).
  apply Hweld; [reflexivity | lra].
Defined.

(** ** The summary of a validated sequence *)

Lemma sum_flags_range (flag : StepResult -> R) (steps : list StepResult) :
  (0 <= sum_flags flag steps <= Z.of_nat (length steps))%Z.
Proof.
  induction steps as [| s rest IH]; [simpl; lia |].
  cbn [sum_flags]. rewrite length_cons.
  assert (Hf : (0 <= flag_count (flag s) <= 1)%Z)
    by (unfold flag_count; destruct (decide (flag s = 1)); lia).
  lia.
Qed.

Section SequenceSummary.

Variable float_of_str : string -> option R.
Variable str_of_float : R -> string.
Variable data : list (gmap string pyval).
Variables alpha eps p tolT tolW pivot : R.

Lemma validate_sequence_Ok_rates recs summ :
  validate_sequence float_of_str str_of_float data alpha eps p tolT tolW pivot
  = Ok (recs, summ) ->
  transport_pass_rate summ = IZR (transport_pass summ) / IZR (total_steps summ)
  /\ weld_pass_rate summ = IZR (weld_pass summ) / IZR (total_steps summ).
Proof.
  unfold validate_sequence.
  destruct (decide (length data < 2)%nat) as [Hlt | Hge]; [discriminate |].
  intros H. apply exc_bind_Ok in H as ([[results pT] pW] & _ & H).
  inversion H; subst; clear H. simpl.
  destruct (decide (0 < length data - 1)%nat); [| lia].
  rewrite <- INR_IZR_INZ. split; reflexivity.
Qed.

(** X16: in the result of [validate_sequence] the i-th record has idx = i;
    total_steps is the number of records and is at least 1; both pass
    counts lie between 0 and total_steps; and each pass rate is its count
    divided by total_steps, hence between 0 and 1. *)
Theorem validate_sequence_summary recs summ :
  validate_sequence float_of_str str_of_float data alpha eps p tolT tolW pivot
  = Ok (recs, summ) ->
  total_steps summ = Z.of_nat (length recs)
  /\ (1 <= total_steps summ)%Z
  /\ (forall i rec, recs !! i = Some rec -> idx rec = Z.of_nat i)
  /\ (0 <= transport_pass summ <= total_steps summ)%Z
  /\ (0 <= weld_pass summ <= total_steps summ)%Z
  /\ transport_pass_rate summ = IZR (transport_pass summ) / IZR (total_steps summ)
  /\ weld_pass_rate summ = IZR (weld_pass summ) / IZR (total_steps summ)
  /\ 0 <= transport_pass_rate summ <= 1
  /\ 0 <= weld_pass_rate summ <= 1.
Proof.
  intros Hret.
  pose proof (validate_sequence_Ok_rates _ _ Hret) as (HrT & HrW).
  apply validate_sequence_Ok_inv in Hret
    as (Hlen & steps & Hsteps & -> & Htot & HT & HW).
  pose proof (Forall2_length _ _ _ Hsteps) as Hlens.
  rewrite length_seq in Hlens.
  pose proof (sum_flags_range okT steps) as HbT.
  pose proof (sum_flags_range okW steps) as HbW.
  assert (Hrate : forall n : Z,
            (0 <= n <= total_steps summ)%Z ->
            0 <= IZR n / IZR (total_steps summ) <= 1).
  { intros n Hn.
    assert (Hpos : 0 < IZR (total_steps summ)) by (apply IZR_lt; lia).
    destruct Hn as [Hn0 Hn1]. apply IZR_le in Hn0, Hn1.
    split.
    - apply Rmult_le_pos; [exact Hn0 | left; apply Rinv_0_lt_compat, Hpos].
    - apply (Rmult_le_reg_r (IZR (total_steps summ))); [exact Hpos |].
      unfold Rdiv. rewrite Rmult_assoc, Rinv_l by lra. lra. }
  split; [rewrite length_zip_with, length_seq; lia |].
  split; [lia |]. split.
  - intros i rec Hrec. rewrite lookup_zip_with in Hrec.
    destruct (seq 0 (length data - 1) !! i) as [j |] eqn:Hj; [| discriminate].
    apply lookup_seq in Hj as [Hj _]. simpl in Hj. subst j.
    simpl in Hrec. destruct (steps !! i); [| discriminate].
    inversion Hrec. reflexivity.
  - split; [lia |]. split; [lia |]. split; [exact HrT |]. split; [exact HrW |].
    split; [rewrite HrT | rewrite HrW]; apply Hrate; lia.
Qed.

(** X17: the weld flags of [validate_sequence] are those of
    [validate_weld]: when the rows' kappa values are collected in a list,
    [validate_weld] with the tolerance tolW returns one flag per record,
    and flag i is True exactly when record i has okW = 1.0. *)
Theorem validate_sequence_weld_agrees recs summ (ks : list R) :
  validate_sequence float_of_str str_of_float data alpha eps p tolT tolW pivot
  = Ok (recs, summ) ->
  Forall2 (fun row k => row_kappa float_of_str row = Ok k) data ks ->
  exists flags,
    validate_weld ks tolW = Ok flags
    /\ length flags = length recs
    /\ forall i rec fl,
        recs !! i = Some rec -> flags !! i = Some fl ->
        (fl = true <-> okW (step rec) = 1).
Proof.
  intros Hret Hks.
  apply validate_sequence_Ok_inv in Hret
    as (Hlen & steps & Hsteps & -> & _).
  pose proof (Forall2_length _ _ _ Hsteps) as Hlens.
  rewrite length_seq in Hlens.
  pose proof (Forall2_length _ _ _ Hks) as Hklen.
  destruct (validate_weld_returns ks tolW) as (flags & Hw & Hwlen & Hflag).
  exists flags. split; [exact Hw |].
  split; [rewrite length_zip_with, length_seq; lia |].
  intros i rec fl Hrec Hfl.
  rewrite lookup_zip_with in Hrec.
  destruct (seq 0 (length data - 1) !! i) as [j |] eqn:Hj; [| discriminate].
  apply lookup_seq in Hj as [Hj Hi]. simpl in Hj. subst j. simpl in Hrec.
  destruct (steps !! i) as [res |] eqn:Hres; [| discriminate].
  inversion Hrec; subst rec; clear Hrec. simpl.
  pose proof (Forall2_lookup_lr _ _ _ i i res Hsteps
                (proj2 (lookup_seq _ _ _ _) (conj eq_refl Hi)) Hres)
    as (row_n & row_np1 & Hn & Hnp1 & Hstep).
  apply validate_step_Ok in Hstep
    as (C_n & tau_n & k_n & C_np1 & tau_np1 & k_np1 & _ & _ & _ & Hkn & _
        & _ & _ & _ & Hknp1 & _ & _ & _ & _ & _ & HrW & _ & HokW).
  destruct (Forall2_lookup_l _ _ _ i row_n Hks Hn) as (k0 & Hk0 & Hrk0).
  destruct (Forall2_lookup_l _ _ _ (S i) row_np1 Hks Hnp1) as (k1 & Hk1 & Hrk1).
  rewrite Hkn in Hrk0. rewrite Hknp1 in Hrk1.
  inversion Hrk0; inversion Hrk1; subst k0 k1.
  rewrite (Hflag i k_n k_np1 Hk0 Hk1) in Hfl. inversion Hfl; subst fl.
  rewrite HokW, HrW.
  destruct (ok_flag_cases (k_np1 - k_n) tolW) as [[-> Hle] | [-> Hn']].
  - rewrite bool_decide_eq_true_2 by exact Hle. split; reflexivity.
  - rewrite bool_decide_eq_false_2 by exact Hn'. split; [discriminate | lra].
Qed.

End SequenceSummary.

Lemma two_rows_B_sequence :
  exists recs summ,
    validate_sequence float_of_str_none str_of_float_opaque [row_B; row_B]
      1 1e-8 3 1e-9 1e-12 0.99 = Ok (recs, summ).
Proof.
  destruct (scenario_B_step float_of_str_none str_of_float_opaque)
    as (r & Hr & _).
  assert (Hsteps : Forall2 (step_at float_of_str_none str_of_float_opaque
                              [row_B; row_B] 1 1e-8 3 1e-9 1e-12 0.99)
                     [0%nat] [r]).
  { constructor; [| constructor]. exists row_B, row_B. auto. }
  unfold validate_sequence.
  destruct (decide (length [row_B; row_B] < 2)%nat) as [Hlt | _];
    [simpl in Hlt; lia |].
  change (seq 0 (length [row_B; row_B] - 1)) with [0%nat].
  rewrite (validate_loop_complete _ _ _ _ _ _ _ _ _ _ _ [] 0%Z 0%Z Hsteps).
  cbn [exc_bind]. eexists. eexists. reflexivity.
Qed.

Lemma validate_sequence_summary_witness :
  exists recs summ,
    validate_sequence float_of_str_none str_of_float_opaque [row_B; row_B]
      1 1e-8 3 1e-9 1e-12 0.99 = Ok (recs, summ)
    /\ total_steps summ = Z.of_nat (length recs)
    /\ 0 <= transport_pass_rate summ <= 1.
Proof.
  destruct two_rows_B_sequence as (recs & summ & Hret).
  exists recs, summ. split; [exact Hret |].
  destruct (validate_sequence_summary float_of_str_none str_of_float_opaque
              [row_B; row_B] 1 1e-8 3 1e-9 1e-12 0.99 recs summ Hret)
    as (Htot & _ & _ & _ & _ & _ & _ & HrT & _).
  split; assumption.
Defined.

Lemma validate_sequence_weld_agrees_witness :
  exists recs summ flags,
    validate_sequence float_of_str_none str_of_float_opaque [row_B; row_B]
      1 1e-8 3 1e-9 1e-12 0.99 = Ok (recs, summ)
    /\ validate_weld [-0.1; -0.1] 1e-12 = Ok flags
    /\ length flags = length recs.
Proof.
  destruct two_rows_B_sequence as (recs & summ & Hret).
  destruct (validate_sequence_weld_agrees float_of_str_none str_of_float_opaque
              [row_B; row_B] 1 1e-8 3 1e-9 1e-12 0.99 recs summ
              [-0.1; -0.1] Hret) as (flags & Hw & Hlen & _).
  - repeat constructor.
  - exists recs, summ, flags. auto.
Defined.

(** ** Reading a row *)

Section RowReading.

Variable float_of_str : string -> option R.
Variable str_of_float : R -> string.

Lemma has_kappa_blank (row : gmap string pyval) :
  has_kappa row = false <-> kappa_blank row.
Proof.
  unfold has_kappa, kappa_blank.
  destruct (row !! "kappa"%string) as [[x | [| c s] |] |]; split;
    try discriminate; try tauto; intros [H | [H | H]]; discriminate.
Qed.

(** X18: where a row's kappa comes from.  A kappa field that is present,
    not empty and not None is converted with [float] and the IC field is
    not looked at; otherwise kappa is ln(min(max(IC, 1e-300), 1)), which
    lies between ln(1e-300) and 0 and is ln(IC) for IC in [1e-300, 1]; and
    with neither a usable kappa nor an IC field the row raises KeyError. *)
Theorem row_kappa_sources (row : gmap string pyval) (v : pyval) (ic : R) :
  (row !! "kappa"%string = Some v -> ~ kappa_blank row ->
   row_kappa float_of_str row = py_float float_of_str v)
  /\ (kappa_blank row -> row !! "IC"%string = Some v ->
      py_float float_of_str v = Ok ic ->
      row_kappa float_of_str row = Ok (ln (Rmin (Rmax ic LOG_FLOOR) 1))
      /\ ln LOG_FLOOR <= ln (Rmin (Rmax ic LOG_FLOOR) 1) <= 0
      /\ (LOG_FLOOR <= ic <= 1 -> row_kappa float_of_str row = Ok (ln ic)))
  /\ (kappa_blank row -> row !! "IC"%string = None ->
      row_kappa float_of_str row = Raise KeyError).
Proof.
  pose proof LOG_FLOOR_pos as Hfl.
  assert (Hfl1 : LOG_FLOOR <= 1) by (unfold LOG_FLOOR; lra).
  split; [| split].
  - intros Hk Hnb. unfold row_kappa.
    destruct (has_kappa row) eqn:Hh.
    + unfold row_float, py_subscript. rewrite Hk. reflexivity.
    + apply has_kappa_blank in Hh. contradiction.
  - intros Hb HIC Hic.
    apply has_kappa_blank in Hb.
    assert (Hrun : row_kappa float_of_str row
                   = Ok (ln (Rmin (Rmax ic LOG_FLOOR) 1))).
    { unfold row_kappa. rewrite Hb. unfold row_float, py_subscript.
      rewrite HIC. cbn [exc_bind]. rewrite Hic. cbn [exc_bind].
      apply math_log_Ok. rcases_all. }
    split; [exact Hrun |]. split.
    + split.
      * apply ln_le; [exact Hfl |]. rcases_all.
      * rewrite <- ln_1. apply ln_le; rcases_all.
    + intros Hrange. rewrite Hrun. do 2 f_equal. rcases_all.
  - intros Hb HIC. apply has_kappa_blank in Hb.
    unfold row_kappa. rewrite Hb. unfold row_float, py_subscript.
    rewrite HIC. reflexivity.
Qed.

(** X19: what [validate_step] needs in order to return.  If the first
    row has no omega field it raises KeyError whatever else the rows hold;
    and whenever it returns, omega, C and tau_R of both rows converted to
    floats, both kappa values could be read, neither tau_R is -1, and
    alpha is not 0: in particular with alpha = 0 it raises on every pair
    of rows. *)
Theorem validate_step_requirements (row_n row_np1 : gmap string pyval)
    (alpha eps p tolT tolW pivot : R) :
  (row_n !! "omega"%string = None ->
   validate_step float_of_str str_of_float row_n row_np1
     alpha eps p tolT tolW pivot = Raise KeyError)
  /\ (returns (validate_step float_of_str str_of_float row_n row_np1
                 alpha eps p tolT tolW pivot) ->
      returns (row_float float_of_str row_n "omega")
      /\ returns (row_float float_of_str row_np1 "omega")
      /\ returns (row_kappa float_of_str row_n)
      /\ returns (row_kappa float_of_str row_np1)
      /\ (exists C_n tau_n, row_float float_of_str row_n "C" = Ok C_n
                            /\ row_float float_of_str row_n "tau_R" = Ok tau_n
                            /\ tau_n <> -1)
      /\ (exists C_np1 tau_np1,
             row_float float_of_str row_np1 "C" = Ok C_np1
             /\ row_float float_of_str row_np1 "tau_R" = Ok tau_np1
             /\ tau_np1 <> -1)
      /\ alpha <> 0)
  /\ (alpha = 0 ->
      ~ returns (validate_step float_of_str str_of_float row_n row_np1
                   alpha eps p tolT tolW pivot)).
Proof.
  assert (Hneed : returns (validate_step float_of_str str_of_float row_n row_np1
                             alpha eps p tolT tolW pivot) ->
                  returns (row_float float_of_str row_n "omega")
                  /\ returns (row_float float_of_str row_np1 "omega")
                  /\ returns (row_kappa float_of_str row_n)
                  /\ returns (row_kappa float_of_str row_np1)
                  /\ (exists C_n tau_n,
                         row_float float_of_str row_n "C" = Ok C_n
                         /\ row_float float_of_str row_n "tau_R" = Ok tau_n
                         /\ tau_n <> -1)
                  /\ (exists C_np1 tau_np1,
                         row_float float_of_str row_np1 "C" = Ok C_np1
                         /\ row_float float_of_str row_np1 "tau_R" = Ok tau_np1
                         /\ tau_np1 <> -1)
                  /\ alpha <> 0).
  { intros [r Hr].
    apply validate_step_Ok in Hr
      as (C_n & tau_n & k_n & C_np1 & tau_np1 & k_np1 & Hon & HCn & Htn & Hkn
          & HUn & Honp1 & HCnp1 & Htnp1 & Hknp1 & HUnp1 & _ & _ & Hpred & _).
    assert (Ht1 : tau_n <> -1).
    { intros ->. unfold py_div in HUn.
      destruct (decide (1 + -1 = 0)) as [| Hnz]; [discriminate | lra]. }
    assert (Ht2 : tau_np1 <> -1).
    { intros ->. unfold py_div in HUnp1.
      destruct (decide (1 + -1 = 0)) as [| Hnz]; [discriminate | lra]. }
    assert (Ha : alpha <> 0).
    { unfold predict_U in Hpred.
      destruct (decide (face_n r <> face_np1 r)).
      - destruct (decide (~ (Rmin (omega_n r) (omega_np1 r) <= pivot
                             /\ pivot <= Rmax (omega_n r) (omega_np1 r)))).
        + apply transport_update_U_Ok in Hpred as (_ & _ & Ha & _). exact Ha.
        + apply exc_bind_Ok in Hpred as (U_mid & Hmid & _).
          apply transport_update_U_Ok in Hmid as (_ & _ & Ha & _). exact Ha.
      - apply transport_update_U_Ok in Hpred as (_ & _ & Ha & _). exact Ha. }
    repeat split; try (eexists; eassumption); try assumption.
    - exists C_n, tau_n. auto.
    - exists C_np1, tau_np1. auto. }
  split; [| split; [exact Hneed |]].
  - intros Hmiss. unfold validate_step, row_float at 1, py_subscript.
    rewrite Hmiss. reflexivity.
  - intros Ha Hret. apply Hneed in Hret.
    destruct Hret as (_ & _ & _ & _ & _ & _ & Hnz). contradiction.
Qed.

End RowReading.

Lemma row_kappa_sources_witness :
  row_kappa float_of_str_none (<["IC"%string := VFloat 0.5]> ∅) = Ok (ln 0.5).
Proof.
  destruct (row_kappa_sources float_of_str_none
              (<["IC"%string := VFloat 0.5]> ∅) (VFloat 0.5) 0.5)
    as (_ & Hic & _).
  destruct Hic as (_ & _ & Hln).
  - left. reflexivity.
  - reflexivity.
  - reflexivity.
  - apply Hln. unfold LOG_FLOOR. lra.
Defined.

Lemma validate_step_requirements_witness :
  validate_step float_of_str_none str_of_float_opaque ∅ row_B
    1 1e-8 3 1e-9 1e-12 0.99 = Raise KeyError
  /\ ~ returns (validate_step float_of_str_none str_of_float_opaque row_B row_B
                  0 1e-8 3 1e-9 1e-12 0.99).
Proof.
  split.
  - destruct (validate_step_requirements float_of_str_none str_of_float_opaque
                ∅ row_B 1 1e-8 3 1e-9 1e-12 0.99) as (H & _).
    apply H. reflexivity.
  - destruct (validate_step_requirements float_of_str_none str_of_float_opaque
                row_B row_B 0 1e-8 3 1e-9 1e-12 0.99) as (_ & _ & H).
    apply H. reflexivity.
Defined.

(** ** From the pipeline to the validator *)

Lemma validate_step_record_rows (float_of_str : string -> option R)
    (str_of_float : R -> string) (r r' : InvariantRecord)
    (alpha eps p tolT tolW pivot : R) :
  validate_step float_of_str str_of_float (record_row r) (record_row r')
    alpha eps p tolT tolW pivot
  = (U1 <- py_div (inv_C r) (1 + IZR (inv_tau_R r)) ;;
     U2 <- py_div (inv_C r') (1 + IZR (inv_tau_R r')) ;;
     let f1 := choose_face (inv_omega r) false eps pivot in
     let f2 := choose_face (inv_omega r') false eps pivot in
     U_pred <- predict_U U1 (inv_omega r) (inv_omega r') alpha eps p pivot f1 f2 ;;
     Ok (mkStepResult (inv_omega r) (inv_omega r') f1 f2 U1 U2 U_pred
           (U2 - U_pred) (inv_kappa r' - inv_kappa r)
           (ok_flag (U2 - U_pred) tolT)
           (ok_flag (inv_kappa r' - inv_kappa r) tolW))).
Proof. reflexivity. Qed.

(** X20: the records of a run can be handed to [validate_step] as rows.
    For two consecutive records the step reads no missing field and never
    divides by 1 + tau_R = 0, so it returns exactly when its transport
    prediction does; and when it returns, its U_n and U_np1 are the two
    records' payloads U, its weld residual is the difference of their
    kappa values, and each face is "exact" exactly when that record's
    drift is at least the pivot (the records carry no guard flag). *)
Theorem pipeline_records_validate (float_of_str : string -> option R)
    (str_of_float : R -> string) (x_raw : list R) (a b eps0 : R) (K : nat)
    (alpha0 : R) (recs : list InvariantRecord) (i : nat)
    (r r' : InvariantRecord) (alpha eps p tolT tolW pivot : R) :
  compute_invariants x_raw a b eps0 K alpha0 = Ok recs ->
  recs !! i = Some r -> recs !! S i = Some r' ->
  let run := validate_step float_of_str str_of_float (record_row r)
               (record_row r') alpha eps p tolT tolW pivot in
  (returns run
   <-> returns (predict_U (inv_U r) (inv_omega r) (inv_omega r') alpha eps p pivot
                  (choose_face (inv_omega r) false eps pivot)
                  (choose_face (inv_omega r') false eps pivot)))
  /\ forall res,
      run = Ok res ->
      omega_n res = inv_omega r /\ omega_np1 res = inv_omega r'
      /\ U_n res = inv_U r /\ U_np1 res = inv_U r'
      /\ rW res = inv_kappa r' - inv_kappa r
      /\ (face_n res = "exact"%string <-> inv_omega r >= pivot)
      /\ (face_np1 res = "exact"%string <-> inv_omega r' >= pivot).
Proof.
  intros Hrun Hr Hr'. cbv zeta.
  pose proof (record_fields _ _ _ _ _ _ _ _ _ Hrun Hr) as (_ & _ & HU & _).
  pose proof (record_fields _ _ _ _ _ _ _ _ _ Hrun Hr') as (_ & _ & HU' & _).
  pose proof (record_facts _ _ _ _ _ _ _ _ _ Hrun Hr) as Hf.
  pose proof (record_facts _ _ _ _ _ _ _ _ _ Hrun Hr') as Hf'.
  cbv zeta in Hf, Hf'.
  destruct Hf as (_ & _ & _ & _ & _ & _ & _ & _ & _ & Ht & _).
  destruct Hf' as (_ & _ & _ & _ & _ & _ & _ & _ & _ & Ht' & _).
  apply IZR_le in Ht, Ht'.
  rewrite validate_step_record_rows.
  rewrite !py_div_Ok by lra. cbn [exc_bind]. cbv zeta.
  rewrite <- HU, <- HU'.
  set (f1 := choose_face (inv_omega r) false eps pivot).
  set (f2 := choose_face (inv_omega r') false eps pivot).
  destruct (predict_U (inv_U r) (inv_omega r) (inv_omega r') alpha eps p pivot f1 f2)
    as [U_pred | e] eqn:Hpred; cbn [exc_bind].
  - split.
    + split; intros _; eexists; reflexivity.
    + intros res Hres. inversion Hres; subst res; clear Hres. simpl.
      repeat split; try reflexivity.
      * subst f1. intros Hx. apply choose_face_exact in Hx as [Hg | Hx];
          [discriminate | exact Hx].
      * intros Hx. subst f1. apply choose_face_exact. right. exact Hx.
      * subst f2. intros Hx. apply choose_face_exact in Hx as [Hg | Hx];
          [discriminate | exact Hx].
      * intros Hx. subst f2. apply choose_face_exact. right. exact Hx.
  - split.
    + split; intros [x Hx]; discriminate.
    + intros res Hres. discriminate.
Qed.

(** Three samples 0, 0.5, 1 (scenario A of the specification). *)
Lemma run_scenario_A :
  exists r0 r1 r2,
    compute_invariants [0; 0.5; 1] 0 1 DEFAULT_EPS DEFAULT_K DEFAULT_ALPHA
    = Ok [r0; r1; r2].
Proof.
  destruct (compute_invariants_returns [0; 0.5; 1] 0 1
              DEFAULT_EPS DEFAULT_K DEFAULT_ALPHA) as (recs & Hrun & Hlen).
  - lra.
  - unfold DEFAULT_K. lia.
  - cbn [map]. rewrite compute_omega_pre_clip_cons, !omega_loop_pre_clip.
    cbn [omega_loop]. unfold DEFAULT_EPS. repeat constructor; rcases.
  - destruct recs as [| r0 [| r1 [| r2 [| r3 rest]]]]; simpl in Hlen;
      try discriminate.
    exists r0, r1, r2. exact Hrun.
Qed.

Lemma pipeline_records_validate_witness :
  exists r0 r1 r2,
    compute_invariants [0; 0.5; 1] 0 1 DEFAULT_EPS DEFAULT_K DEFAULT_ALPHA
    = Ok [r0; r1; r2]
    /\ forall res,
        validate_step float_of_str_none str_of_float_opaque
          (record_row r0) (record_row r1) 1 1e-8 3 1e-9 1e-12 0.99 = Ok res ->
        U_n res = inv_U r0 /\ rW res = inv_kappa r1 - inv_kappa r0.
Proof.
  destruct run_scenario_A as (r0 & r1 & r2 & Hrun).
  exists r0, r1, r2. split; [exact Hrun |].
  intros res Hres.
  destruct (pipeline_records_validate float_of_str_none str_of_float_opaque
              [0; 0.5; 1] 0 1 DEFAULT_EPS DEFAULT_K DEFAULT_ALPHA
              [r0; r1; r2] 0 r0 r1 1 1e-8 3 1e-9 1e-12 0.99 Hrun eq_refl eq_refl)
    as (_ & Hfields).
  destruct (Hfields res Hres) as (_ & _ & HU & _ & HW & _).
  split; assumption.
Defined.

(** ** Control-chart overlays *)

Lemma ewma_limit_is_sigma (sigma : R) :
  3.0 * (sigma * sqrt (0.2 / (2.0 - 0.2))) = sigma.
Proof.
  replace (0.2 / (2.0 - 0.2)) with ((1 / 3) * (1 / 3)) by lra.
  rewrite sqrt_square by lra. lra.
Qed.

Lemma last_or_zero_snoc (xs : list R) (x : R) : last_or_zero (xs ++ [x]) = x.
Proof. unfold last_or_zero. rewrite last_snoc. reflexivity. Qed.

Lemma last_or_zero_nonneg (xs : list R) :
  Forall (fun x => 0 <= x) xs -> 0 <= last_or_zero xs.
Proof.
  intros Hall. unfold last_or_zero.
  destruct (last xs) as [x |] eqn:Hl; [| lra].
  apply last_Some in Hl as [xs' ->].
  apply Forall_app in Hall as [_ Hx]. inversion Hx; subst. assumption.
Qed.

Lemma last_or_zero_zero (xs : list R) :
  Forall (fun x => x = 0) xs -> last_or_zero xs = 0.
Proof.
  intros Hall. unfold last_or_zero.
  destruct (last xs) as [x |] eqn:Hl; [| reflexivity].
  apply last_Some in Hl as [xs' ->].
  apply Forall_app in Hall as [_ Hx]. inversion Hx as [| x0 l0 Hx0 Hl0]. exact Hx0.
Qed.

Lemma spc_loop_lengths (sigma : R) (ys : list R) (acc : SpcOverlays)
    (z : option R) :
  let out := spc_loop sigma ys acc z in
  length (shewhart_flags out) = (length (shewhart_flags acc) + length ys)%nat
  /\ length (ewma out) = (length (ewma acc) + length ys)%nat
  /\ length (ewma_flags out) = (length (ewma_flags acc) + length ys)%nat
  /\ length (cusum_pos out) = (length (cusum_pos acc) + length ys)%nat
  /\ length (cusum_neg out) = (length (cusum_neg acc) + length ys)%nat
  /\ length (cusum_flags out) = (length (cusum_flags acc) + length ys)%nat.
Proof.
  revert acc z. induction ys as [| y rest IH]; intros acc z; cbv zeta.
  - simpl. repeat split; lia.
  - cbn [spc_loop]. cbv zeta.
    match goal with
    | |- context [spc_loop sigma rest ?a ?zz] => specialize (IH a zz)
    end.
    cbv zeta in IH. cbn [shewhart_flags ewma ewma_flags cusum_pos cusum_neg
                          cusum_flags] in IH.
    rewrite !length_app in IH. cbn [length] in *.
    destruct IH as (H1 & H2 & H3 & H4 & H5 & H6).
    repeat split; lia.
Qed.

Lemma spc_loop_cusum_nonneg (sigma : R) (ys : list R) (acc : SpcOverlays)
    (z : option R) :
  Forall (fun c => 0 <= c) (cusum_pos acc) ->
  Forall (fun c => 0 <= c) (cusum_neg acc) ->
  Forall (fun c => 0 <= c) (cusum_pos (spc_loop sigma ys acc z))
  /\ Forall (fun c => 0 <= c) (cusum_neg (spc_loop sigma ys acc z)).
Proof.
  revert acc z. induction ys as [| y rest IH]; intros acc z Hp Hn.
  - simpl. auto.
  - cbn [spc_loop]. cbv zeta. apply IH; cbn [cusum_pos cusum_neg];
      (apply Forall_app; split; [assumption |]);
      constructor; [apply Rmax_l | constructor | apply Rmax_l | constructor].
Qed.

Lemma spc_loop_ewma_bounded (sigma M : R) (ys : list R) (acc : SpcOverlays)
    (z : option R) :
  Forall (fun y => Rabs y <= M) ys ->
  (forall z0, z = Some z0 -> Rabs z0 <= M) ->
  Forall (fun e => Rabs e <= M) (ewma acc) ->
  Forall (fun e => Rabs e <= M) (ewma (spc_loop sigma ys acc z)).
Proof.
  revert acc z. induction ys as [| y rest IH]; intros acc z Hys Hz Hacc.
  - simpl. exact Hacc.
  - inversion Hys as [| y' rest' Hy Hrest]; subst.
    cbn [spc_loop]. cbv zeta.
    assert (Hz' : Rabs (match z with
                        | Some z0 => 0.2 * y + (1 - 0.2) * z0
                        | None => y
                        end) <= M).
    { destruct z as [z0 |]; [| exact Hy].
      specialize (Hz z0 eq_refl). revert Hy Hz. clear. intros Hy Hz.
      rcases_all. }
    apply IH; [exact Hrest | |].
    + intros z0 Hz0. inversion Hz0; subst. exact Hz'.
    + cbn [ewma]. apply Forall_app. split; [exact Hacc |].
      constructor; [exact Hz' | constructor].
Qed.

Lemma spc_loop_flags (sigma : R) (ys : list R) (acc : SpcOverlays)
    (z : option R) :
  let out := spc_loop sigma ys acc z in
  shewhart_flags out
  = shewhart_flags acc ++ map (fun y => bool_decide (Rabs y > 3 * sigma)) ys
  /\ (ewma_flags acc = map (fun e => bool_decide (Rabs e > sigma)) (ewma acc) ->
      ewma_flags out = map (fun e => bool_decide (Rabs e > sigma)) (ewma out))
  /\ (Forall2 (fun fl pn => fl = bool_decide (pn.1 > 5 * sigma)
                                || bool_decide (pn.2 > 5 * sigma))
        (cusum_flags acc) (zip (cusum_pos acc) (cusum_neg acc)) ->
      length (cusum_pos acc) = length (cusum_neg acc) ->
      Forall2 (fun fl pn => fl = bool_decide (pn.1 > 5 * sigma)
                                || bool_decide (pn.2 > 5 * sigma))
        (cusum_flags out) (zip (cusum_pos out) (cusum_neg out))).
Proof.
  revert acc z. induction ys as [| y rest IH]; intros acc z; cbv zeta.
  - simpl. rewrite app_nil_r. auto.
  - cbn [spc_loop]. cbv zeta.
    match goal with
    | |- context [spc_loop sigma rest ?a ?zz] => specialize (IH a zz)
    end.
    cbv zeta in IH. cbn [shewhart_flags ewma ewma_flags cusum_pos cusum_neg
                          cusum_flags] in IH.
    destruct IH as (Hs & He & Hc).
    split; [| split].
    + rewrite Hs, <- app_assoc. reflexivity.
    + intros Hacc. apply He. rewrite Hacc, map_app. cbn [map].
      rewrite ewma_limit_is_sigma. reflexivity.
    + intros Hacc Hlen. apply Hc.
      * rewrite zip_with_app by exact Hlen.
        apply Forall2_app; [exact Hacc |].
        constructor; [| constructor]. cbn [fst snd].
        replace (5.0 * sigma) with (5 * sigma) by lra. reflexivity.
      * rewrite !length_app. cbn [length]. lia.
Qed.

(** X21: the overlays of [compute_spc_overlays] have one entry per sample
    in each of the six lists; both CUSUM sums are non-negative; the
    Shewhart flag of a sample tells whether |y| > 3 sigma; the EWMA flag
    tells whether |ewma| exceeds the control limit
    3.0 * (sigma * sqrt(0.2 / (2.0 - 0.2))); the CUSUM flag tells whether
    either sum exceeds 5 sigma; and the first EWMA value is the first
    sample. *)
Theorem spc_overlays_shape (y_series : list R) (sigma : R) :
  let out := compute_spc_overlays y_series sigma in
  length (shewhart_flags out) = length y_series
  /\ length (ewma out) = length y_series
  /\ length (ewma_flags out) = length y_series
  /\ length (cusum_pos out) = length y_series
  /\ length (cusum_neg out) = length y_series
  /\ length (cusum_flags out) = length y_series
  /\ Forall (fun c => 0 <= c) (cusum_pos out)
  /\ Forall (fun c => 0 <= c) (cusum_neg out)
  /\ shewhart_flags out = map (fun y => bool_decide (Rabs y > 3 * sigma)) y_series
  /\ ewma_flags out
     = map (fun e => bool_decide
                       (Rabs e > 3.0 * (sigma * sqrt (0.2 / (2.0 - 0.2)))))
         (ewma out)
  /\ Forall2 (fun fl pn => fl = bool_decide (pn.1 > 5 * sigma)
                               || bool_decide (pn.2 > 5 * sigma))
       (cusum_flags out) (zip (cusum_pos out) (cusum_neg out))
  /\ ewma out !! 0%nat = y_series !! 0%nat.
Proof.
  cbv zeta. unfold compute_spc_overlays.
  pose proof (spc_loop_lengths sigma y_series (mkSpcOverlays [] [] [] [] [] []) None)
    as HL. cbv zeta in HL. cbn [shewhart_flags ewma ewma_flags cusum_pos
                                cusum_neg cusum_flags length] in HL.
  destruct HL as (H1 & H2 & H3 & H4 & H5 & H6).
  pose proof (spc_loop_cusum_nonneg sigma y_series
                (mkSpcOverlays [] [] [] [] [] []) None) as HN.
  cbn [cusum_pos cusum_neg] in HN.
  destruct HN as (Hp & Hn); [constructor | constructor |].
  pose proof (spc_loop_flags sigma y_series (mkSpcOverlays [] [] [] [] [] []) None)
    as HF. cbv zeta in HF.
  cbn [shewhart_flags ewma ewma_flags cusum_pos cusum_neg cusum_flags] in HF.
  destruct HF as (Hs & He & Hc).
  do 8 (split; [assumption |]).
  split; [exact Hs |]. split.
  { rewrite (He eq_refl). apply map_ext. intros e.
    rewrite ewma_limit_is_sigma. reflexivity. }
  split; [apply Hc; [constructor | reflexivity] |].
  destruct y_series as [| y rest]; [reflexivity |].
  cbn [spc_loop]. cbv zeta.
  match goal with
  | |- ewma (spc_loop sigma rest ?a ?zz) !! 0%nat = _ =>
      assert (Hpre : forall ys acc z0,
                 ewma acc !! 0%nat = Some y ->
                 ewma (spc_loop sigma ys acc z0) !! 0%nat = Some y)
  end.
  { induction ys as [| y' ys IH]; intros acc z0 Hacc; [exact Hacc |].
    cbn [spc_loop]. cbv zeta. apply IH. cbn [ewma].
    rewrite lookup_app_l; [exact Hacc |]. eapply lookup_lt_Some, Hacc. }
  apply Hpre. reflexivity.
Qed.

Lemma spc_loop_cusum_zero (sigma : R) (ys : list R) (acc : SpcOverlays)
    (z : option R) :
  Forall (fun y => Rabs y <= sigma / 2) ys ->
  Forall (fun c => c = 0) (cusum_pos acc) ->
  Forall (fun c => c = 0) (cusum_neg acc) ->
  Forall (fun c => c = 0) (cusum_pos (spc_loop sigma ys acc z))
  /\ Forall (fun c => c = 0) (cusum_neg (spc_loop sigma ys acc z)).
Proof.
  revert acc z. induction ys as [| y rest IH]; intros acc z Hys Hp Hn.
  - simpl. auto.
  - inversion Hys as [| y' rest' Hy Hrest]; subst.
    cbn [spc_loop]. cbv zeta.
    apply IH; [exact Hrest | |]; cbn [cusum_pos cusum_neg];
      (apply Forall_app; split; [assumption |]);
      (constructor; [| constructor]).
    + rewrite (last_or_zero_zero _ Hp). revert Hy. clear. intros Hy. rcases_all.
    + rewrite (last_or_zero_zero _ Hn). revert Hy. clear. intros Hy. rcases_all.
Qed.

(** X23: a series that stays within half a sigma raises no alarm: with
    sigma >= 0 and every |y| at most sigma / 2, both CUSUM sums stay at 0
    and every Shewhart, EWMA and CUSUM flag is False. *)
Theorem spc_in_control_silent (y_series : list R) (sigma : R) :
  0 <= sigma ->
  Forall (fun y => Rabs y <= sigma / 2) y_series ->
  let out := compute_spc_overlays y_series sigma in
  Forall (fun c => c = 0) (cusum_pos out)
  /\ Forall (fun c => c = 0) (cusum_neg out)
  /\ Forall (fun fl => fl = false) (shewhart_flags out)
  /\ Forall (fun fl => fl = false) (ewma_flags out)
  /\ Forall (fun fl => fl = false) (cusum_flags out).
Proof.
  intros Hsig Hys. cbv zeta.
  pose proof (spc_loop_flags sigma y_series (mkSpcOverlays [] [] [] [] [] []) None)
    as HF. cbv zeta in HF.
  cbn [shewhart_flags ewma ewma_flags cusum_pos cusum_neg cusum_flags] in HF.
  destruct HF as (Hs & He & Hc).
  specialize (He eq_refl). specialize (Hc ltac:(constructor) eq_refl).
  fold (compute_spc_overlays y_series sigma) in Hs, He, Hc.
  assert (Hew : Forall (fun e => Rabs e <= sigma / 2)
                  (ewma (compute_spc_overlays y_series sigma))).
  { unfold compute_spc_overlays.
    apply spc_loop_ewma_bounded; [exact Hys | discriminate | constructor]. }
  destruct (spc_loop_cusum_zero sigma y_series (mkSpcOverlays [] [] [] [] [] [])
              None Hys) as (Hp & Hn); [constructor | constructor |].
  fold (compute_spc_overlays y_series sigma) in Hp, Hn.
  split; [exact Hp |]. split; [exact Hn |]. split; [| split].
  - rewrite Hs. apply Forall_forall. intros fl Hfl.
    apply list_elem_of_In, in_map_iff in Hfl as (y & <- & Hy).
    apply list_elem_of_In in Hy. rewrite Forall_forall in Hys.
    specialize (Hys y Hy). apply bool_decide_eq_false_2. lra.
  - rewrite He. apply Forall_forall. intros fl Hfl.
    apply list_elem_of_In, in_map_iff in Hfl as (e & <- & Hein).
    apply list_elem_of_In in Hein. rewrite Forall_forall in Hew.
    specialize (Hew e Hein). apply bool_decide_eq_false_2. lra.
  - apply Forall_lookup_2. intros i fl Hfl.
    destruct (Forall2_lookup_l _ _ _ i fl Hc Hfl) as ([cp cn] & Hpn & ->).
    apply lookup_zip_with_Some in Hpn as (cp' & cn' & Heq & Hcp & Hcn).
    inversion Heq; subst cp' cn'. cbn [fst snd].
    pose proof (Forall_lookup_1 _ _ _ _ Hp Hcp) as Hp0.
    pose proof (Forall_lookup_1 _ _ _ _ Hn Hcn) as Hn0.
    simpl in Hp0, Hn0. subst cp cn.
    rewrite !bool_decide_eq_false_2 by lra. reflexivity.
Qed.

Lemma spc_in_control_silent_witness :
  Forall (fun fl => fl = false)
    (cusum_flags (compute_spc_overlays [0.5; -0.5; 0.25] 1))
  /\ Forall (fun fl => fl = false)
       (ewma_flags (compute_spc_overlays [0.5; -0.5; 0.25] 1)).
Proof.
  destruct (spc_in_control_silent [0.5; -0.5; 0.25] 1)
    as (_ & _ & _ & He & Hc).
  - lra.
  - constructor; [rcases | constructor; [rcases | constructor; [rcases | constructor]]].
  - split; assumption.
Defined.

(** ** Analysis of a run *)

Lemma count_step_lookup (counts : gmap string Z) (regime k : string) :
  default 0%Z (<[regime := (default 0%Z (counts !! regime) + 1)%Z]> counts !! k)
  = (default 0%Z (counts !! k) + if decide (regime = k) then 1 else 0)%Z.
Proof.
  destruct (decide (regime = k)) as [-> | Hne].
  - rewrite lookup_insert_eq. simpl. reflexivity.
  - rewrite lookup_insert_ne by exact Hne. lia.
Qed.

Lemma count_fold_lookup (regimes : list string) (counts : gmap string Z)
    (k : string) :
  default 0%Z
    (fold_left (fun (m : gmap string Z) regime =>
                  <[regime := (default 0%Z (m !! regime) + 1)%Z]> m)
       regimes counts !! k)
  = (default 0%Z (counts !! k)
     + Z.of_nat (length (filter (fun s => s = k) regimes)))%Z.
Proof.
  revert counts. induction regimes as [| s rest IH]; intros counts.
  - simpl. lia.
  - cbn [fold_left]. rewrite IH, count_step_lookup, filter_cons.
    destruct (decide (s = k)); simpl; lia.
Qed.

Lemma count_fold_positive (regimes : list string) (counts : gmap string Z) :
  (forall k c, counts !! k = Some c -> (1 <= c)%Z) ->
  forall k c,
    fold_left (fun (m : gmap string Z) regime =>
                 <[regime := (default 0%Z (m !! regime) + 1)%Z]> m)
      regimes counts !! k = Some c ->
    (1 <= c)%Z /\ (counts !! k <> None \/ k ∈ regimes).
Proof.
  revert counts. induction regimes as [| s rest IH]; intros counts Hpos k c Hk.
  - simpl in Hk. split; [eapply Hpos, Hk |]. left. congruence.
  - cbn [fold_left] in Hk. apply IH in Hk.
    + destruct Hk as (Hc & Hin). split; [exact Hc |].
      destruct Hin as [Hin | Hin].
      * destruct (decide (s = k)) as [-> | Hne].
        -- right. apply list_elem_of_here.
        -- rewrite lookup_insert_ne in Hin by exact Hne. left. exact Hin.
      * right. apply list_elem_of_further, Hin.
    + intros k' c' Hk'. destruct (decide (s = k')) as [-> | Hne].
      * rewrite lookup_insert_eq in Hk'. inversion Hk'; subst.
        destruct (counts !! k') as [c0 |] eqn:Hc0; simpl; [| lia].
        specialize (Hpos _ _ Hc0). lia.
      * rewrite lookup_insert_ne in Hk' by exact Hne. eapply Hpos, Hk'.
Qed.

Lemma filter_regime_map (k : string) (results : list InvariantRecord) :
  length (filter (fun s => s = k) (map inv_regime results))
  = length (filter (fun r => inv_regime r = k) results).
Proof.
  induction results as [| r rest IH]; [reflexivity |].
  cbn [map]. rewrite !filter_cons.
  destruct (decide (inv_regime r = k)); simpl; rewrite IH; reflexivity.
Qed.

Lemma branch_label_cases (br : regime_branch) :
  branch_label br ∈ ["Stable"%string; "Watch"%string; "Collapse"%string;
                     "Critical"%string].
Proof. destruct br; simpl; set_solver. Qed.

Lemma four_labels_partition (results : list InvariantRecord) :
  Forall (fun r => inv_regime r ∈ ["Stable"%string; "Watch"%string;
                                   "Collapse"%string; "Critical"%string])
         results ->
  (regime_occurrences "Stable" results + regime_occurrences "Watch" results
   + regime_occurrences "Collapse" results
   + regime_occurrences "Critical" results)%Z
  = Z.of_nat (length results).
Proof.
  unfold regime_occurrences.
  induction 1 as [| r rest Hr _ IH]; [reflexivity |].
  rewrite !filter_cons. cbn [length].
  rewrite !elem_of_cons, elem_of_nil in Hr.
  destruct Hr as [Hr | [Hr | [Hr | [Hr | []]]]]; rewrite Hr;
    repeat match goal with
           | |- context [decide (?s = ?t)] =>
               destruct (decide (s = t)); [try discriminate | try congruence]
           end;
    cbn [length]; lia.
Qed.

Lemma run_regimes_labelled (x_raw : list R) (a b eps : R) (K : nat) (alpha : R)
    (recs : list InvariantRecord) :
  compute_invariants x_raw a b eps K alpha = Ok recs ->
  Forall (fun r => inv_regime r ∈ ["Stable"%string; "Watch"%string;
                                   "Collapse"%string; "Critical"%string]) recs.
Proof.
  intros Hrun. apply Forall_lookup_2. intros i r Hr.
  pose proof (record_fields _ _ _ _ _ _ _ _ _ Hrun Hr) as (_ & _ & _ & Hreg).
  rewrite Hreg. apply branch_label_cases.
Qed.

Lemma analyze_time_series_Ok (x_raw : list R) (a b eps : R) (K : nat)
    (alpha : R) (an : Analysis) :
  analyze_time_series x_raw a b eps K alpha = Ok an ->
  compute_invariants x_raw a b eps K alpha = Ok (an_results an)
  /\ n_samples (an_statistics an) = Z.of_nat (length (an_results an))
  /\ regime_counts (an_statistics an)
     = count_regimes (map inv_regime (an_results an))
  /\ an_critical_periods an = critical_from 0 (an_results an)
  /\ an_parameters an = mkParameters a b eps K alpha
  /\ mean_omega (an_statistics an) = mean_or_zero (map inv_omega (an_results an))
  /\ mean_F (an_statistics an) = mean_or_zero (map inv_F (an_results an))
  /\ mean_C (an_statistics an) = mean_or_zero (map inv_C (an_results an))
  /\ mean_IC (an_statistics an) = mean_or_zero (map inv_IC (an_results an))
  /\ max_omega (an_statistics an) = max_or_zero (map inv_omega (an_results an))
  /\ max_C (an_statistics an) = max_or_zero (map inv_C (an_results an))
  /\ min_IC (an_statistics an) = min_or_zero (map inv_IC (an_results an)).
Proof.
  unfold analyze_time_series. intros H.
  apply exc_bind_Ok in H as (results & Hrun & H).
  inversion H; subst an; clear H. simpl. repeat split; assumption || reflexivity.
Qed.

Lemma analyze_time_series_returns (x_raw : list R) (a b eps : R) (K : nat)
    (alpha : R) (recs : list InvariantRecord) :
  compute_invariants x_raw a b eps K alpha = Ok recs ->
  exists an, analyze_time_series x_raw a b eps K alpha = Ok an
             /\ an_results an = recs.
Proof.
  intros Hrun. unfold analyze_time_series. rewrite Hrun. cbn [exc_bind].
  eexists. split; reflexivity.
Qed.

(** X24: [analyze_time_series] raises what [compute_invariants] raises;
    when it returns, its results are those of the run, n_samples is the
    number of samples, the count stored for a label is the number of
    records with that label, every stored count is at least 1 (a label
    that does not occur has no entry) and belongs to one of the four
    labels, and the four counts add up to n_samples. *)
Theorem analyze_time_series_counts (x_raw : list R) (a b eps : R) (K : nat)
    (alpha : R) :
  (forall e, compute_invariants x_raw a b eps K alpha = Raise e ->
             analyze_time_series x_raw a b eps K alpha = Raise e)
  /\ forall an,
      analyze_time_series x_raw a b eps K alpha = Ok an ->
      let counts := regime_counts (an_statistics an) in
      compute_invariants x_raw a b eps K alpha = Ok (an_results an)
      /\ n_samples (an_statistics an) = Z.of_nat (length x_raw)
      /\ an_parameters an = mkParameters a b eps K alpha
      /\ (forall label,
             default 0%Z (counts !! label)
             = regime_occurrences label (an_results an))
      /\ (forall label c,
             counts !! label = Some c ->
             (1 <= c)%Z
             /\ label ∈ ["Stable"%string; "Watch"%string; "Collapse"%string;
                         "Critical"%string])
      /\ (default 0%Z (counts !! "Stable"%string)
          + default 0%Z (counts !! "Watch"%string)
          + default 0%Z (counts !! "Collapse"%string)
          + default 0%Z (counts !! "Critical"%string))%Z
         = n_samples (an_statistics an).
Proof.
  split.
  - intros e He. unfold analyze_time_series. rewrite He. reflexivity.
  - intros an Han. cbv zeta.
    apply analyze_time_series_Ok in Han
      as (Hrun & Hn & Hcounts & _ & Hpar & _).
    pose proof (run_regimes_labelled _ _ _ _ _ _ _ Hrun) as Hlab.
    assert (Hlen : length (an_results an) = length x_raw).
    { pose proof (compute_invariants_inv _ _ _ _ _ _ _ Hrun)
        as (_ & S & C & taus & _ & _ & _ & Hrecs).
      apply exc_map_Ok_length in Hrecs. rewrite length_seq in Hrecs.
      exact Hrecs. }
    assert (Hocc : forall label,
               default 0%Z (regime_counts (an_statistics an) !! label)
               = regime_occurrences label (an_results an)).
    { intros label. rewrite Hcounts. unfold count_regimes, regime_occurrences.
      rewrite count_fold_lookup, lookup_empty, filter_regime_map. simpl. lia. }
    split; [exact Hrun |]. split; [rewrite Hn, Hlen; reflexivity |].
    split; [exact Hpar |]. split; [exact Hocc |]. split.
    + intros label c Hc. rewrite Hcounts in Hc. unfold count_regimes in Hc.
      apply count_fold_positive in Hc
        as (Hpos & [Hin | Hin]).
      * rewrite lookup_empty in Hin. congruence.
      * split; [exact Hpos |].
        apply list_elem_of_In, in_map_iff in Hin as (r & <- & Hr).
        apply list_elem_of_In in Hr. rewrite Forall_forall in Hlab.
        apply Hlab, Hr.
      * intros k' c' Hk'. rewrite lookup_empty in Hk'. discriminate.
    + rewrite !Hocc, Hn. apply four_labels_partition, Hlab.
Qed.

Lemma analyze_time_series_counts_witness :
  analyze_time_series [0; 2] 0 1 DEFAULT_EPS DEFAULT_K DEFAULT_ALPHA
  = Raise ValueError
  /\ exists an,
      analyze_time_series [0; 1] 0 1 DEFAULT_EPS DEFAULT_K DEFAULT_ALPHA = Ok an
      /\ n_samples (an_statistics an) = 2%Z.
Proof.
  split.
  - destruct (analyze_time_series_counts [0; 2] 0 1
                DEFAULT_EPS DEFAULT_K DEFAULT_ALPHA) as (Hraise & _).
    apply Hraise.
    apply compute_invariants_drift_raises; [lra |].
    cbn [map]. rewrite compute_omega_pre_clip_cons, omega_loop_pre_clip.
    unfold DEFAULT_EPS. right. left. rcases.
  - destruct run_unit_jump as (r0 & r1 & Hrun & _).
    destruct (analyze_time_series_returns _ _ _ _ _ _ _ Hrun) as (an & Han & _).
    exists an. split; [exact Han |].
    destruct (analyze_time_series_counts [0; 1] 0 1
                DEFAULT_EPS DEFAULT_K DEFAULT_ALPHA) as (_ & Hok).
    destruct (Hok an Han) as (_ & Hn & _). exact Hn.
Defined.

Lemma critical_label_iff (r : InvariantRecord) :
  inv_regime r ∈ ["Collapse"%string; "Critical"%string]
  <-> inv_regime r = "Collapse"%string \/ inv_regime r = "Critical"%string.
Proof. rewrite !elem_of_cons, elem_of_nil. tauto. Qed.

Lemma critical_from_elem (results : list InvariantRecord) (i j : nat) :
  j ∈ critical_from i results
  <-> (i <= j)%nat
      /\ exists r, results !! (j - i)%nat = Some r
                   /\ (inv_regime r = "Collapse"%string
                       \/ inv_regime r = "Critical"%string).
Proof.
  revert i. induction results as [| r0 rest IH]; intros i.
  - simpl. split; [intros H; inversion H | intros (_ & r & Hr & _); discriminate].
  - cbn [critical_from].
    assert (Hrest : j ∈ critical_from (S i) rest
                    <-> (i < j)%nat
                        /\ exists r, (r0 :: rest) !! (j - i)%nat = Some r
                                     /\ (inv_regime r = "Collapse"%string
                                         \/ inv_regime r = "Critical"%string)).
    { rewrite IH. split.
      - intros (Hle & r & Hr & Hlab). split; [lia |]. exists r.
        replace (j - i)%nat with (S (j - S i)) by lia. auto.
      - intros (Hlt & r & Hr & Hlab). split; [lia |]. exists r.
        replace (j - i)%nat with (S (j - S i)) in Hr by lia. auto. }
    destruct (decide (inv_regime r0 ∈ ["Collapse"%string; "Critical"%string]))
      as [Hc | Hc].
    + rewrite elem_of_cons, Hrest. apply critical_label_iff in Hc. split.
      * intros [-> | (Hlt & Hex)].
        -- split; [lia |]. exists r0. rewrite Nat.sub_diag. auto.
        -- split; [lia | exact Hex].
      * intros (Hle & Hex).
        destruct (decide (j = i)) as [-> | Hne]; [left; reflexivity |].
        right. split; [lia | exact Hex].
    + rewrite Hrest. split.
      * intros (Hlt & Hex). split; [lia | exact Hex].
      * intros (Hle & r & Hr & Hlab).
        destruct (decide (j = i)) as [-> | Hne].
        -- rewrite Nat.sub_diag in Hr. simpl in Hr. inversion Hr; subst.
           exfalso. apply Hc, critical_label_iff, Hlab.
        -- split; [lia |]. exists r. auto.
Qed.

Lemma critical_from_increasing (results : list InvariantRecord) (i : nat)
    (p q jp jq : nat) :
  (p < q)%nat ->
  critical_from i results !! p = Some jp ->
  critical_from i results !! q = Some jq ->
  (jp < jq)%nat.
Proof.
  revert i p q. induction results as [| r0 rest IH]; intros i p q Hpq Hp Hq.
  - discriminate.
  - cbn [critical_from] in Hp, Hq.
    destruct (decide (inv_regime r0 ∈ ["Collapse"%string; "Critical"%string])).
    + destruct q as [| q]; [lia |]. simpl in Hq.
      destruct p as [| p].
      * simpl in Hp. inversion Hp; subst.
        apply list_elem_of_lookup_2, critical_from_elem in Hq. lia.
      * simpl in Hp. eapply (IH (S i) p q); [lia | exact Hp | exact Hq].
    + eapply IH; eassumption.
Qed.

Lemma critical_from_length (results : list InvariantRecord) (i : nat) :
  Z.of_nat (length (critical_from i results))
  = (regime_occurrences "Collapse" results
     + regime_occurrences "Critical" results)%Z.
Proof.
  unfold regime_occurrences. revert i.
  induction results as [| r0 rest IH]; intros i; [reflexivity |].
  cbn [critical_from]. rewrite !filter_cons.
  destruct (decide (inv_regime r0 ∈ ["Collapse"%string; "Critical"%string]))
    as [Hc | Hc].
  - apply critical_label_iff in Hc. cbn [length]. specialize (IH (S i)).
    destruct Hc as [Hc | Hc]; rewrite Hc;
      repeat match goal with
             | |- context [decide (?s = ?t)] =>
                 destruct (decide (s = t)); [try discriminate | try congruence]
             end;
      cbn [length]; lia.
  - specialize (IH (S i)).
    destruct (decide (inv_regime r0 = "Collapse"%string)) as [He | _];
      [exfalso; apply Hc, critical_label_iff; auto |].
    destruct (decide (inv_regime r0 = "Critical"%string)) as [He | _];
      [exfalso; apply Hc, critical_label_iff; auto |].
    exact IH.
Qed.

(** X25: the critical periods of an analysis are exactly the indices of
    the records whose drift is at least 0.30, listed in increasing order;
    their number is the sum of the "Collapse" and "Critical" counts. *)
Theorem analyze_time_series_critical (x_raw : list R) (a b eps : R) (K : nat)
    (alpha : R) (an : Analysis) :
  analyze_time_series x_raw a b eps K alpha = Ok an ->
  (forall j, j ∈ an_critical_periods an
             <-> exists r, an_results an !! j = Some r /\ inv_omega r >= 0.30)
  /\ (forall p q jp jq,
         (p < q)%nat ->
         an_critical_periods an !! p = Some jp ->
         an_critical_periods an !! q = Some jq -> (jp < jq)%nat)
  /\ Z.of_nat (length (an_critical_periods an))
     = (default 0%Z (regime_counts (an_statistics an) !! "Collapse"%string)
        + default 0%Z (regime_counts (an_statistics an) !! "Critical"%string))%Z.
Proof.
  intros Han.
  pose proof (analyze_time_series_Ok _ _ _ _ _ _ _ Han)
    as (Hrun & _ & Hcounts & Hcrit & _).
  assert (Hocc : forall label,
             default 0%Z (regime_counts (an_statistics an) !! label)
             = regime_occurrences label (an_results an)).
  { intros label. rewrite Hcounts. unfold count_regimes, regime_occurrences.
    rewrite count_fold_lookup, lookup_empty, filter_regime_map. simpl. lia. }
  split; [| split].
  - intros j. rewrite Hcrit, critical_from_elem, Nat.sub_0_r. split.
    + intros (_ & r & Hr & Hlab). exists r. split; [exact Hr |].
      pose proof (record_fields _ _ _ _ _ _ _ _ _ Hrun Hr) as (_ & _ & _ & Hreg).
      rewrite Hreg, classify_regime_form in Hlab.
      destruct (decide (inv_omega r >= 0.30)) as [Hge | Hlt]; [exact Hge |].
      destruct (decide (0.038 <= inv_omega r));
        destruct Hlab as [Hlab | Hlab]; discriminate.
    + intros (r & Hr & Hom). split; [lia |]. exists r. split; [exact Hr |].
      pose proof (record_fields _ _ _ _ _ _ _ _ _ Hrun Hr) as (_ & _ & _ & Hreg).
      rewrite Hreg, classify_regime_form.
      destruct (decide (inv_omega r >= 0.30)) as [Hge | Hlt]; [| contradiction].
      destruct (decide (inv_IC r < 0.30)); auto.
  - intros p q jp jq Hpq Hp Hq. rewrite Hcrit in Hp, Hq.
    eapply critical_from_increasing; eassumption.
  - rewrite !Hocc, Hcrit. apply critical_from_length.
Qed.

Lemma analyze_time_series_critical_witness :
  exists an,
    analyze_time_series [0; 1] 0 1 DEFAULT_EPS DEFAULT_K DEFAULT_ALPHA = Ok an
    /\ 1%nat ∈ an_critical_periods an.
Proof.
  destruct run_unit_jump as (r0 & r1 & Hrun & Hom & HIC).
  destruct (analyze_time_series_returns _ _ _ _ _ _ _ Hrun) as (an & Han & Hres).
  exists an. split; [exact Han |].
  destruct (analyze_time_series_critical _ _ _ _ _ _ an Han) as (Hmem & _).
  apply Hmem. exists r1. rewrite Hres. split; [reflexivity | lra].
Defined.

(** ** The statistics of an analysis *)














(** ** Parameter sweeps *)

Lemma flat_map_rows_length {A B : Type} (f : A -> list B) (n : nat)
    (l : list A) :
  (forall a, length (f a) = n) ->
  length (flat_map f l) = (length l * n)%nat.
Proof.
  intros Hf. induction l as [| a rest IH]; [reflexivity |].
  cbn [flat_map]. rewrite length_app, Hf, IH. simpl. lia.
Qed.

Lemma flat_map_rows_lookup {A B : Type} (f : A -> list B) (n : nat)
    (l : list A) (i j : nat) (a : A) :
  (forall a', length (f a') = n) ->
  l !! i = Some a -> (j < n)%nat ->
  flat_map f l !! (i * n + j)%nat = f a !! j.
Proof.
  intros Hf. revert i. induction l as [| a0 rest IH]; intros i Hi Hj.
  - discriminate.
  - cbn [flat_map]. destruct i as [| i].
    + simpl in Hi. inversion Hi; subst. simpl.
      apply lookup_app_l. rewrite Hf. exact Hj.
    + simpl in Hi. rewrite lookup_app_r by (rewrite Hf; simpl; lia).
      rewrite Hf. replace (S i * n + j - n)%nat with (i * n + j)%nat
        by (simpl; lia).
      apply IH; assumption.
Qed.

Lemma compute_invariants_bad_scale (x_raw : list R) (a b eps : R) (K : nat)
    (alpha : R) :
  b <= 0 -> compute_invariants x_raw a b eps K alpha = Raise ValueError.
Proof.
  intros Hb. unfold compute_invariants.
  destruct (decide (b <= 0)); [reflexivity | contradiction].
Qed.

(** X27: [parameter_sweep] returns one entry per combination, those of the
    first [a] first: with m values of b, entry i * m + j belongs to
    a_values[i] and b_values[j].  The entry is an error entry exactly when
    [compute_invariants] raises for that combination, in particular the
    ValueError of a scale b <= 0, and the sweep goes on; otherwise it
    holds the statistics of the run, n_samples being the length of the
    series, and n_critical counts the records labelled "Collapse" or
    "Critical". *)
Theorem parameter_sweep_entries (x_raw a_values b_values : list R) (eps : R)
    (K : nat) (alpha : R) :
  let sweep := parameter_sweep x_raw a_values b_values eps K alpha in
  length sweep = (length a_values * length b_values)%nat
  /\ forall i j a b,
      a_values !! i = Some a -> b_values !! j = Some b ->
      exists entry,
        sweep !! (i * length b_values + j)%nat = Some entry
        /\ (b <= 0 -> entry = SweepError a b ValueError)
        /\ (forall e, compute_invariants x_raw a b eps K alpha = Raise e ->
                      entry = SweepError a b e)
        /\ (forall recs,
               compute_invariants x_raw a b eps K alpha = Ok recs ->
               exists stats,
                 entry
                 = SweepStats a b stats
                     (regime_occurrences "Collapse" recs
                      + regime_occurrences "Critical" recs)
                 /\ n_samples stats = Z.of_nat (length x_raw)).
Proof.
  cbv zeta. unfold parameter_sweep.
  assert (Hrow : forall a,
             length (map (sweep_entry x_raw eps K alpha a) b_values)
             = length b_values) by (intros a; apply length_map).
  split; [apply flat_map_rows_length, Hrow |].
  intros i j a b Ha Hb.
  exists (sweep_entry x_raw eps K alpha a b). split.
  - rewrite (flat_map_rows_lookup _ _ _ i j a Hrow Ha)
      by (eapply lookup_lt_Some, Hb).
    apply lookup_map_Some. exact Hb.
  - assert (Hraise : forall e,
               compute_invariants x_raw a b eps K alpha = Raise e ->
               sweep_entry x_raw eps K alpha a b = SweepError a b e).
    { intros e He. unfold sweep_entry, analyze_time_series. rewrite He.
      reflexivity. }
    split; [| split; [exact Hraise |]].
    + intros Hle. apply Hraise. apply compute_invariants_bad_scale. exact Hle.
    + intros recs Hrun.
      destruct (analyze_time_series_returns _ _ _ _ _ _ _ Hrun)
        as (an & Han & Hres).
      unfold sweep_entry. rewrite Han.
      pose proof (analyze_time_series_Ok _ _ _ _ _ _ _ Han)
        as (_ & Hn & _ & Hcrit & _).
      exists (an_statistics an). split.
      * rewrite Hcrit, critical_from_length, Hres. reflexivity.
      * rewrite Hn, Hres.
        pose proof (compute_invariants_inv _ _ _ _ _ _ _ Hrun)
          as (_ & S & C & taus & _ & _ & _ & Hrecs).
        apply exc_map_Ok_length in Hrecs. rewrite length_seq in Hrecs.
        rewrite Hrecs. reflexivity.
Qed.

Lemma parameter_sweep_entries_witness :
  parameter_sweep [0; 1] [0; 1] [1; 0] DEFAULT_EPS DEFAULT_K DEFAULT_ALPHA
    !! 3%nat
  = Some (SweepError 1 0 ValueError).
Proof.
  destruct (parameter_sweep_entries [0; 1] [0; 1] [1; 0]
              DEFAULT_EPS DEFAULT_K DEFAULT_ALPHA) as (_ & Hentry).
  destruct (Hentry 1%nat 1%nat 1 0 eq_refl eq_refl)
    as (entry & Hlook & Hbad & _).
  rewrite <- Hbad by lra. exact Hlook.
Defined.

(** ** The harness against the core *)

Lemma tau_ret_loop_single (eps target : R) (series : list R) (t L dt : Z)
    (x : R) :
  py_getitem series (t - dt) = Ok x -> (2 <= L)%Z ->
  tau_ret_loop eps target series t L [dt] 0 = Ok None.
Proof.
  intros Hx HL. cbn [tau_ret_loop]. rewrite Hx. cbn [exc_bind].
  destruct (decide (Rabs (target - x) < eps)); [| reflexivity].
  cbv zeta. destruct (decide (0 + 1 >= L)%Z); [lia | reflexivity].
Qed.

(** X28: the harness's [compute_tau_ret] against the core's.  At every
    t <> 0 the two agree.  At t = 0 the core returns 1 without looking at
    the series; the harness compares the sample with series[-1], cannot
    reach a debounce of 2 or more in its single iteration and returns
    max_h on every non-empty series, and raises IndexError on the empty
    one. *)
Theorem harness_tau_ret_first_sample (eps : R) (series : list R)
    (t max_h L : Z) :
  (t <> 0%Z ->
   Harness.compute_tau_ret eps series t max_h L
   = compute_tau_ret eps series t max_h L)
  /\ compute_tau_ret eps series 0 max_h L = Ok 1%Z
  /\ (series <> [] -> (2 <= L)%Z ->
      Harness.compute_tau_ret eps series 0 max_h L = Ok max_h)
  /\ Harness.compute_tau_ret eps [] 0 max_h L = Raise IndexError.
Proof.
  split; [| split; [| split]].
  - intros Ht. unfold Harness.compute_tau_ret, compute_tau_ret.
    destruct (decide (t = 0%Z)); [contradiction | reflexivity].
  - reflexivity.
  - intros Hne HL. unfold Harness.compute_tau_ret.
    destruct (py_getitem_returns series 0) as [target Htarget].
    { destruct series; [congruence | simpl; lia]. }
    rewrite Htarget. cbn [exc_bind].
    destruct (decide (1 <= max_h)%Z) as [Hh | Hh].
    + replace (Z.min (0 + 1) max_h + 1)%Z with 2%Z by lia.
      change (py_range 1 2) with [1%Z].
      destruct (py_getitem_returns series (0 - 1)) as [x Hx].
      { destruct series; [congruence | simpl; lia]. }
      rewrite (tau_ret_loop_single _ _ _ _ _ _ x Hx HL). reflexivity.
    + assert (Hempty : py_range 1 (Z.min (0 + 1) max_h + 1) = []).
      { unfold py_range.
        replace (Z.to_nat (Z.min (0 + 1) max_h + 1 - 1)) with 0%nat by lia.
        reflexivity. }
      rewrite Hempty. reflexivity.
  - reflexivity.
Qed.

Lemma harness_tau_ret_first_sample_witness :
  Harness.compute_tau_ret 0.5 [0.3; 0.4] 1 600 2
  = compute_tau_ret 0.5 [0.3; 0.4] 1 600 2
  /\ Harness.compute_tau_ret 0.5 [0.3] 0 600 2 = Ok 600%Z.
Proof.
  split.
  - destruct (harness_tau_ret_first_sample 0.5 [0.3; 0.4] 1 600 2) as (H & _).
    apply H. lia.
  - destruct (harness_tau_ret_first_sample 0.5 [0.3] 0 600 2)
      as (_ & _ & H & _).
    apply H; [discriminate | lia].
Defined.

Lemma deque_append_window (maxlen : nat) (pre : list R) (x : R) :
  (1 <= maxlen)%nat ->
  Harness.deque_append maxlen (drop (length pre - maxlen) pre) x
  = drop (length (pre ++ [x]) - maxlen) (pre ++ [x]).
Proof.
  intros Hmax. unfold Harness.deque_append. cbv zeta.
  rewrite !length_app, length_drop. cbn [length].
  rewrite drop_app_le by (rewrite length_drop; lia).
  rewrite drop_drop.
  rewrite (drop_app_le pre [x]) by lia.
  f_equal. f_equal. lia.
Qed.

Lemma py_getitem_from_end {A : Type} (xs : list A) (k : nat) (x : A) :
  (1 <= k <= length xs)%nat ->
  xs !! (length xs - k)%nat = Some x ->
  py_getitem xs (- Z.of_nat k) = Ok x.
Proof.
  intros Hk Hx. unfold py_getitem. cbv zeta.
  destruct (decide (- Z.of_nat k < 0)%Z) as [_ | Hn]; [| lia].
  destruct (decide (0 <= - Z.of_nat k + Z.of_nat (length xs)
                    < Z.of_nat (length xs))%Z) as [_ | Hn]; [| lia].
  replace (Z.to_nat (- Z.of_nat k + Z.of_nat (length xs)))
    with (length xs - k)%nat by lia.
  rewrite Hx. reflexivity.
Qed.

Lemma window_curvature_early (l : list R) (i : nat) :
  (i < 3)%nat ->
  Harness.window_curvature (drop (i + 1 - 4) (take (i + 1) l)) = Ok 0.
Proof.
  intros Hi. unfold Harness.window_curvature, Harness.K.
  destruct (decide (length (drop (i + 1 - 4) (take (i + 1) l)) < 3 + 1)%nat)
    as [_ | Hn]; [reflexivity |].
  exfalso. apply Hn. rewrite length_drop, length_take. lia.
Qed.

Lemma window_curvature_full (l : list R) (i : nat) (x0 x1 x2 : R) :
  (3 <= i)%nat ->
  l !! i = Some x0 -> l !! (i - 1)%nat = Some x1 ->
  l !! (i - 2)%nat = Some x2 ->
  Harness.window_curvature (drop (i + 1 - 4) (take (i + 1) l))
  = Ok (((x0 - x1) ^ 2 + (x0 - x2) ^ 2) / 3).
Proof.
  intros Hi H0 H1 H2.
  pose proof (lookup_lt_Some _ _ _ H0) as Hlen.
  set (win := drop (i + 1 - 4) (take (i + 1) l)).
  assert (Hwlen : length win = 4%nat).
  { subst win. rewrite length_drop, length_take. lia. }
  assert (Hwin : forall j x, (j <= 3)%nat -> l !! (i - 3 + j)%nat = Some x ->
                             win !! j = Some x).
  { intros j x Hj Hx. subst win. rewrite lookup_drop, lookup_take_lt by lia.
    replace (i + 1 - 4 + j)%nat with (i - 3 + j)%nat by lia. exact Hx. }
  assert (Hget : forall k x, (1 <= k <= 3)%nat -> l !! (i + 1 - k)%nat = Some x ->
                             py_getitem win (- Z.of_nat k) = Ok x).
  { intros k x Hk Hx. apply py_getitem_from_end; [lia |].
    rewrite Hwlen. apply Hwin; [lia |].
    replace (i - 3 + (4 - k))%nat with (i + 1 - k)%nat by lia. exact Hx. }
  unfold Harness.window_curvature, Harness.K.
  destruct (decide (length win < 3 + 1)%nat) as [Hlt | _]; [lia |].
  cbn [seq exc_map].
  change (-1)%Z with (- Z.of_nat 1)%Z.
  rewrite (Hget 1%nat x0) by (try lia; replace (i + 1 - 1)%nat with i by lia;
                              exact H0).
  rewrite (Hget 2%nat x1) by (try lia; replace (i + 1 - 2)%nat with (i - 1)%nat by lia;
                              exact H1).
  rewrite (Hget 3%nat x2) by (try lia; replace (i + 1 - 3)%nat with (i - 2)%nat by lia;
                              exact H2).
  cbn [exc_bind]. unfold py_sum. cbn [fold_left].
  rewrite py_div_Ok by (simpl; lra). f_equal. simpl. field.
Qed.

Lemma curvature_loop_windows (pre xs : list R) :
  Harness.curvature_loop (drop (length pre - 4) pre) xs
  = exc_map (fun i => Harness.window_curvature
                        (drop (i + 1 - 4) (take (i + 1) (pre ++ xs))))
      (seq (length pre) (length xs)).
Proof.
  revert pre. induction xs as [| x rest IH]; intros pre; [reflexivity |].
  cbn [Harness.curvature_loop length seq exc_map]. cbv zeta.
  change (Harness.K + 1)%nat with 4%nat.
  rewrite deque_append_window by lia.
  assert (Htake : take (length pre + 1) (pre ++ x :: rest) = pre ++ [x]).
  { rewrite (cons_middle x pre rest), app_assoc.
    rewrite take_app_le by (rewrite length_app; simpl; lia).
    apply take_ge. rewrite length_app. simpl. lia. }
  rewrite Htake.
  replace (length (pre ++ [x]) - 4)%nat with (length pre + 1 - 4)%nat
    by (rewrite length_app; simpl; lia).
  specialize (IH (pre ++ [x])).
  replace (length (pre ++ [x]) - 4)%nat with (length pre + 1 - 4)%nat in IH
    by (rewrite length_app; simpl; lia).
  rewrite IH.
  replace (length (pre ++ [x])) with (S (length pre))
    by (rewrite length_app; simpl; lia).
  rewrite <- app_assoc. reflexivity.
Qed.

Lemma curvature_at_full (l : list R) (i : nat) (x0 x1 x2 x3 : R) :
  (3 <= i)%nat ->
  l !! i = Some x0 -> l !! (i - 1)%nat = Some x1 ->
  l !! (i - 2)%nat = Some x2 -> l !! (i - 3)%nat = Some x3 ->
  curvature_at l 3 i
  = Ok (((x0 - x1) ^ 2 + (x0 - x2) ^ 2 + (x0 - x3) ^ 2) / 3).
Proof.
  intros Hi H0 H1 H2 H3. unfold curvature_at.
  destruct (decide (i < 3)%nat) as [Hlt | _]; [lia |].
  cbn [seq exc_map].
  assert (Hget : forall k x, (k <= i)%nat -> l !! (i - k)%nat = Some x ->
                             py_getitem l (Z.of_nat i - Z.of_nat k) = Ok x).
  { intros k x Hk Hx. replace (Z.of_nat i - Z.of_nat k)%Z
      with (Z.of_nat (i - k)) by lia.
    apply py_getitem_nat_Ok, Hx. }
  rewrite (proj2 (py_getitem_nat_Ok l i x0) H0).
  rewrite (Hget 1%nat x1), (Hget 2%nat x2), (Hget 3%nat x3)
    by (lia || assumption).
  cbn [exc_bind]. unfold py_sum. cbn [fold_left].
  rewrite py_div_Ok by (simpl; lra). f_equal. simpl. field.
Qed.

(** X29: the curvature column of the harness against the core's curvature
    with K = 3.  The harness returns one curvature per row, 0 for the
    first three rows as the core does; from the fourth row on its window
    lags are 0, 1 and 2 (xhat_win[-1] is the row itself), so it computes
    ((x_i - x_(i-1))^2 + (x_i - x_(i-2))^2) / 3 where the core divides
    the sum of the three squares (x_i - x_(i-k))^2, k = 1, 2, 3, by 3: the
    harness leaves out the lag K, never exceeds the core, and agrees with
    it on a row whose x_(i-3) equals x_i. *)
Theorem harness_curvature_misses_last_lag (xhat : list R) :
  exists C,
    Harness.curvature_column xhat = Ok C
    /\ length C = length xhat
    /\ forall i c,
        C !! i = Some c ->
        ((i < 3)%nat -> c = 0 /\ curvature_at xhat 3 i = Ok 0)
        /\ ((3 <= i)%nat ->
            exists x0 x1 x2 x3,
              xhat !! i = Some x0 /\ xhat !! (i - 1)%nat = Some x1
              /\ xhat !! (i - 2)%nat = Some x2 /\ xhat !! (i - 3)%nat = Some x3
              /\ c = ((x0 - x1) ^ 2 + (x0 - x2) ^ 2) / 3
              /\ curvature_at xhat 3 i
                 = Ok (py_sum [(x0 - x1) ^ 2; (x0 - x2) ^ 2; (x0 - x3) ^ 2] / 3)
              /\ (x3 = x0 -> curvature_at xhat 3 i = Ok c))
        /\ exists c_core, curvature_at xhat 3 i = Ok c_core /\ c <= c_core.
Proof.
  unfold Harness.curvature_column.
  pose proof (curvature_loop_windows [] xhat) as Hloop.
  cbn [length app Nat.sub drop] in Hloop. rewrite Hloop. clear Hloop.
  assert (Hfour : forall i, (i < length xhat)%nat -> (3 <= i)%nat ->
             exists x0 x1 x2 x3,
               xhat !! i = Some x0 /\ xhat !! (i - 1)%nat = Some x1
               /\ xhat !! (i - 2)%nat = Some x2
               /\ xhat !! (i - 3)%nat = Some x3).
  { intros i Hi H3.
    destruct (lookup_lt_is_Some_2 xhat i) as [x0 H0]; [lia |].
    destruct (lookup_lt_is_Some_2 xhat (i - 1)) as [x1 H1]; [lia |].
    destruct (lookup_lt_is_Some_2 xhat (i - 2)) as [x2 H2]; [lia |].
    destruct (lookup_lt_is_Some_2 xhat (i - 3)) as [x3 Hx3]; [lia |].
    exists x0, x1, x2, x3. auto. }
  destruct (exc_map_returns
              (fun i => Harness.window_curvature
                          (drop (i + 1 - 4) (take (i + 1) xhat)))
              (seq 0 (length xhat))) as [C HC].
  { intros i Hi. apply in_seq in Hi.
    destruct (Nat.lt_ge_cases i 3) as [Hlt | Hge].
    - rewrite window_curvature_early by exact Hlt. eexists. reflexivity.
    - destruct (Hfour i) as (x0 & x1 & x2 & x3 & H0 & H1 & H2 & _);
        [lia | exact Hge |].
      rewrite (window_curvature_full xhat i x0 x1 x2 Hge H0 H1 H2).
      eexists. reflexivity. }
  exists C. split; [exact HC |].
  pose proof (exc_map_Ok_length _ _ _ HC) as Hlen. rewrite length_seq in Hlen.
  split; [exact Hlen |].
  intros i c Hc.
  destruct (exc_map_Ok_lookup _ _ _ _ _ HC Hc) as (j & Hj & Hwin).
  apply lookup_seq in Hj as [Hj Hi]. simpl in Hj. subst j.
  destruct (Nat.lt_ge_cases i 3) as [Hlt | Hge].
  - rewrite window_curvature_early in Hwin by exact Hlt.
    inversion Hwin; subst c.
    assert (Hcore : curvature_at xhat 3 i = Ok 0).
    { unfold curvature_at. destruct (decide (i < 3)%nat); [reflexivity | lia]. }
    split; [intros _; split; [reflexivity | exact Hcore] |].
    split; [intros H3; lia |].
    exists 0. split; [exact Hcore | lra].
  - destruct (Hfour i Hi Hge) as (x0 & x1 & x2 & x3 & H0 & H1 & H2 & H3).
    rewrite (window_curvature_full xhat i x0 x1 x2 Hge H0 H1 H2) in Hwin.
    inversion Hwin; subst c.
    pose proof (curvature_at_full xhat i x0 x1 x2 x3 Hge H0 H1 H2 H3) as Hcore.
    split; [intros Hlt; lia |].
    split.
    + intros _. exists x0, x1, x2, x3. repeat (split; [assumption |]).
      split; [reflexivity |]. split.
      * rewrite Hcore. f_equal. unfold py_sum. cbn [fold_left]. field.
      * intros ->. rewrite Hcore. f_equal. field.
    + eexists. split; [exact Hcore |].
      pose proof (pow2_ge_0 (x0 - x3)). lra.
Qed.
